(** * Parrot call signatures: [src/call/signature.c]

    A shallow embedding of the signature container used to pass positional
    and named arguments between call frames, and the properties of its
    operations.  Pointers are addresses in [Z] ([NULL] is [0]); the storage
    the file allocates through the collector is an explicit memory, threaded
    through a small state-and-error monad. *)

From Stdlib Require Import ZArith Ascii String Floats.SpecFloat.
From stdpp Require Import base numbers option list gmap strings.

Local Open Scope Z_scope.

(** ** Platform types *)

Abbreviation INTVAL := Z (only parsing).
Abbreviation FLOATVAL := spec_float (only parsing).
Abbreviation ptr := Z (only parsing).

Definition NULL : ptr := 0.
Definition PMCNULL : ptr := NULL.
Definition STRINGNULL : ptr := NULL.

(** Modelled from the spec: [parrot/config.h] is not part of the file; an
    INTVAL is taken as a 64-bit two's complement integer, a pointer as 64
    bits and a FLOATVAL as an IEEE binary64 number. *)
Definition sizeof_INTVAL : nat := 8.
Definition sizeof_ptr : nat := 8.
Definition INTVAL_MIN : Z := - 2 ^ 63.
Definition INTVAL_MAX : Z := 2 ^ 63 - 1.

Definition in_INTVAL (z : Z) : bool := (INTVAL_MIN <=? z) && (z <=? INTVAL_MAX).

(** Arithmetic on INTVAL is done in [Z] and wrapped back into the 64 bits. *)
Definition wrap (z : Z) : INTVAL := (z + 2 ^ 63) mod 2 ^ 64 - 2 ^ 63.

(** [size * sizeof (T)] is computed in [size_t]. *)
Definition to_size_t (z : Z) : Z := z mod 2 ^ 64.

Definition FLOATVAL_prec : Z := 53.
Definition FLOATVAL_emax : Z := 1024.

(** The conversion [(FLOATVAL)i]: the nearest binary64 number, ties to even. *)
Definition FLOATVAL_of_INTVAL (i : INTVAL) : FLOATVAL :=
  binary_normalize FLOATVAL_prec FLOATVAL_emax i 0 false.

(** The integral part of a finite number [(-1)^s * m * 2^e], rounded toward
    zero: a negative shift drops the fractional bits of the magnitude. *)
Definition FLOATVAL_trunc (n : FLOATVAL) : option Z :=
  match n with
  | S754_zero _ => Some 0
  | S754_finite s m e =>
      let mag := Z.shiftl (Z.pos m) e in
      Some (if s then - mag else mag)
  | S754_infinity _ | S754_nan => None
  end.

(** The conversion [(INTVAL)n]: the value truncated toward zero; the
    conversion is undefined when that value is not an INTVAL, and for
    infinities and NaN. *)
Definition INTVAL_of_FLOATVAL (n : FLOATVAL) : option INTVAL :=
  match FLOATVAL_trunc n with
  | Some z => if in_INTVAL z then Some z else None
  | None => None
  end.

(** ** Cells *)

(** [Pcc_cell] is a union [u] of an INTVAL, a FLOATVAL, a [STRING *] and a
    [PMC *], and a [type] tag; every write of the file sets the member and
    the tag together, and every read goes through the tag.  A cell is
    therefore one constructor per tag; [NOCELL] is a cell whose tag is none
    of the four, as in storage that was never written. *)
Inductive Pcc_cell : Type :=
  | INTCELL (i : INTVAL)
  | FLOATCELL (n : FLOATVAL)
  | STRINGCELL (s : ptr)
  | PMCCELL (p : ptr)
  | NOCELL.

Definition sizeof_Pcc_cell : Z := 16.
Definition sizeof_Parrot_Signature : Z := 64.

(** ** The signature aggregate *)

Record Parrot_Signature : Type := mkSig {
  positionals : ptr;
  num_positionals : INTVAL;
  allocated_positionals : INTVAL;
  hash : ptr;
  type_tuple : ptr;
  short_sig : ptr;
  arg_flags : ptr;
  return_flags : ptr
}.

Definition set_positionals (v : ptr) (s : Parrot_Signature) : Parrot_Signature :=
  mkSig v (num_positionals s) (allocated_positionals s) (hash s)
        (type_tuple s) (short_sig s) (arg_flags s) (return_flags s).
Definition set_num_positionals (v : INTVAL) (s : Parrot_Signature) : Parrot_Signature :=
  mkSig (positionals s) v (allocated_positionals s) (hash s)
        (type_tuple s) (short_sig s) (arg_flags s) (return_flags s).
Definition set_allocated_positionals (v : INTVAL) (s : Parrot_Signature) : Parrot_Signature :=
  mkSig (positionals s) (num_positionals s) v (hash s)
        (type_tuple s) (short_sig s) (arg_flags s) (return_flags s).
Definition set_hash (v : ptr) (s : Parrot_Signature) : Parrot_Signature :=
  mkSig (positionals s) (num_positionals s) (allocated_positionals s) v
        (type_tuple s) (short_sig s) (arg_flags s) (return_flags s).
Definition set_type_tuple (v : ptr) (s : Parrot_Signature) : Parrot_Signature :=
  mkSig (positionals s) (num_positionals s) (allocated_positionals s) (hash s)
        v (short_sig s) (arg_flags s) (return_flags s).
Definition set_short_sig (v : ptr) (s : Parrot_Signature) : Parrot_Signature :=
  mkSig (positionals s) (num_positionals s) (allocated_positionals s) (hash s)
        (type_tuple s) v (arg_flags s) (return_flags s).
Definition set_arg_flags (v : ptr) (s : Parrot_Signature) : Parrot_Signature :=
  mkSig (positionals s) (num_positionals s) (allocated_positionals s) (hash s)
        (type_tuple s) (short_sig s) v (return_flags s).
Definition set_return_flags (v : ptr) (s : Parrot_Signature) : Parrot_Signature :=
  mkSig (positionals s) (num_positionals s) (allocated_positionals s) (hash s)
        (type_tuple s) (short_sig s) (arg_flags s) v.

(** ** Memory *)

(** What the file asks of the collector, in call order. *)
Inductive gc_event : Type :=
  | AllocFixed (size : Z) (p : ptr)
  | AllocChunk (size : Z) (p : ptr)
  | FreeFixed (size : Z) (p : ptr)
  | FreeChunk (p : ptr)
  | MarkString (s : ptr)
  | MarkPMC (p : ptr).

(** A hash table is its list of buckets, in iteration order: a key (a
    [STRING *]) and a value (a [Pcc_cell *]). *)
Abbreviation Hash := (list (Z * Z)) (only parsing).

Record Mem : Type := mkMem {
  cells : gmap Z (list Pcc_cell);   (* arrays of cells, by base address *)
  tables : gmap Z (list (Z * Z));   (* hash tables, by address *)
  gc_log : list gc_event
}.

Definition empty_mem : Mem := mkMem ∅ ∅ [].

Definition set_cells (v : gmap Z (list Pcc_cell)) (m : Mem) : Mem :=
  mkMem v (tables m) (gc_log m).
Definition set_tables (v : gmap Z (list (Z * Z))) (m : Mem) : Mem :=
  mkMem (cells m) v (gc_log m).
Definition log_event (e : gc_event) (m : Mem) : Mem :=
  mkMem (cells m) (tables m) (gc_log m ++ [e]).

(** An address no live object has, and not [NULL]. *)
Definition used_addresses (m : Mem) : gset Z :=
  {[ NULL ]} ∪ dom (cells m) ∪ dom (tables m).
Definition fresh_ptr (m : Mem) : ptr := fresh (used_addresses m).

(** ** Outcomes and the monad *)

(** A call returns, or the interpreter aborts on a failed assertion, or the
    call makes an access that C leaves undefined (a wild pointer, a
    conversion out of range). *)
Inductive Res (A : Type) : Type :=
  | Ok (a : A)
  | Abort (msg : string)
  | Fault.
Arguments Ok {A} a.
Arguments Abort {A} msg.
Arguments Fault {A}.

Definition M (A : Type) : Type := Mem -> Res (A * Mem).

Definition ret {A} (a : A) : M A := fun m => Ok (a, m).
Definition bind {A B} (c : M A) (k : A -> M B) : M B :=
  fun m => match c m with
           | Ok (a, m') => k a m'
           | Abort msg => Abort msg
           | Fault => Fault
           end.
Definition fault {A} : M A := fun _ => Fault.
Definition abort {A} (msg : string) : M A := fun _ => Abort msg.
Definition modify_mem (f : Mem -> Mem) : M unit := fun m => Ok (tt, f m).

Declare Scope sig_scope.
Delimit Scope sig_scope with sig.
Notation "'let*' x ':=' c 'in' k" := (bind c (fun x => k))
  (at level 10, x pattern, c at level 100, k at level 200) : sig_scope.
Notation "c1 '>>' c2" := (bind c1 (fun _ => c2))
  (at level 100, c2 at level 200, right associativity) : sig_scope.
Local Open Scope sig_scope.

(** Run a list of actions in order. *)
Fixpoint for_each {A} (f : A -> M unit) (l : list A) : M unit :=
  match l with
  | [] => ret tt
  | x :: l' => f x >> for_each f l'
  end.

(** ** The collector's allocators *)

(** Modelled from the spec: the allocators of the collector are outside the
    file (pooled storage of a fixed size, chunks of any size, and the report
    that a reference is reachable).  An allocation returns an address no
    live block has, and a release needs a live block.  Storage is typed by
    its use: the blocks the file reads and writes through pointers hold
    [Pcc_cell]s, so a block of [size] bytes is an array of
    [size / sizeof (Pcc_cell)] cells, none of them written yet.  (The
    aggregate is threaded by value; its block only reserves its address.) *)
Definition raw_storage (size : Z) : list Pcc_cell :=
  replicate (Z.to_nat (size / sizeof_Pcc_cell)) NOCELL.

Definition Parrot_gc_allocate_fixed_size_storage (size : Z) : M ptr :=
  fun m =>
    let p := fresh_ptr m in
    Ok (p, log_event (AllocFixed size p)
             (set_cells (<[p := raw_storage size]> (cells m)) m)).

Definition Parrot_gc_allocate_memory_chunk (size : Z) : M ptr :=
  fun m =>
    let p := fresh_ptr m in
    Ok (p, log_event (AllocChunk size p)
             (set_cells (<[p := raw_storage size]> (cells m)) m)).

Definition Parrot_gc_free_fixed_size_storage (size : Z) (p : ptr) : M unit :=
  fun m =>
    match cells m !! p with
    | Some _ => Ok (tt, log_event (FreeFixed size p) (set_cells (delete p (cells m)) m))
    | None => Fault
    end.

Definition Parrot_gc_free_memory_chunk (p : ptr) : M unit :=
  fun m =>
    match cells m !! p with
    | Some _ => Ok (tt, log_event (FreeChunk p) (set_cells (delete p (cells m)) m))
    | None => Fault
    end.

Definition Parrot_gc_mark_STRING_alive (s : ptr) : M unit :=
  modify_mem (log_event (MarkString s)).

Definition Parrot_gc_mark_PMC_alive (p : ptr) : M unit :=
  modify_mem (log_event (MarkPMC p)).

(** [memcpy (dest, src, n)] over arrays of cells; copying nothing touches
    nothing. *)
Definition memcpy (dest src : ptr) (n : Z) : M unit :=
  fun m =>
    if n =? 0 then Ok (tt, m)
    else
      match cells m !! src, cells m !! dest with
      | Some ls, Some ld =>
          let k := Z.to_nat (n / sizeof_Pcc_cell) in
          if (k <=? length ls)%nat && (k <=? length ld)%nat
          then Ok (tt, set_cells (<[dest := take k ls ++ drop k ld]> (cells m)) m)
          else Fault
      | _, _ => Fault
      end.

(** Reading [p[i]] and writing [p[i] = c]. *)
Definition load_cell (p : ptr) (i : Z) : M Pcc_cell :=
  fun m =>
    match cells m !! p with
    | Some l =>
        if 0 <=? i then
          match l !! Z.to_nat i with
          | Some c => Ok (c, m)
          | None => Fault
          end
        else Fault
    | None => Fault
    end.

Definition store_cell (p : ptr) (i : Z) (c : Pcc_cell) : M unit :=
  fun m =>
    match cells m !! p with
    | Some l =>
        if (0 <=? i) && (i <? Z.of_nat (length l))
        then Ok (tt, set_cells (<[p := <[Z.to_nat i := c]> l]> (cells m)) m)
        else Fault
    | None => Fault
    end.

(** Modelled from the spec: [PARROT_ASSERT] is declared outside the file; a
    failed assertion aborts the interpreter. *)
Definition PARROT_ASSERT (cond : bool) (text : string) : M unit :=
  if cond then ret tt else abort text.

(** ** The host: objects and strings *)

(** The object model and the string library are collaborators of the file,
    taken as parameters: the address of the interpreter, the free-list flag
    of an object, the vtable entries the coercions call, the boxing
    constructors, the number formatting and parsing of the string library,
    and the text a [STRING *] holds. *)
Class Host : Type := mkHost {
  interp : ptr;
  PObj_on_free_list_TEST : ptr -> bool;
  VTABLE_get_integer : ptr -> INTVAL;
  VTABLE_get_number : ptr -> FLOATVAL;
  VTABLE_get_string : ptr -> ptr;
  VTABLE_clone : ptr -> ptr;
  Parrot_pmc_box_integer : INTVAL -> ptr;
  Parrot_pmc_box_number : FLOATVAL -> ptr;
  Parrot_pmc_box_string : ptr -> ptr;
  Parrot_str_from_int : INTVAL -> ptr;
  Parrot_str_from_num : FLOATVAL -> ptr;
  Parrot_str_to_num : ptr -> FLOATVAL;
  string_text : ptr -> string
}.

(** *** Parsing an integer *)

Definition digit_of (a : ascii) : option Z :=
  let n := Z.of_N (Ascii.N_of_ascii a) in
  if (48 <=? n) && (n <=? 57) then Some (n - 48) else None.

(** The value of a run of decimal digits, [None] when a character is not a
    digit. *)
Fixpoint digits_value (acc : Z) (s : string) : option Z :=
  match s with
  | EmptyString => Some acc
  | String a s' =>
      match digit_of a with
      | Some d => digits_value (10 * acc + d) s'
      | None => None
      end
  end.

Definition numeral_value (s : string) : option Z :=
  match s with
  | EmptyString => None
  | String "-" s' =>
      match s' with
      | EmptyString => None
      | _ => Z.opp <$> digits_value 0 s'
      end
  | String "+" s' =>
      match s' with
      | EmptyString => None
      | _ => digits_value 0 s'
      end
  | _ => digits_value 0 s
  end.

(** Modelled from the spec: [Parrot_str_to_int] belongs to the string
    library; text is parsed as an integer, and text that does not parse
    gives 0. *)
Definition Parrot_str_to_int `{Host} (s : ptr) : INTVAL :=
  match numeral_value (string_text s) with
  | Some z => wrap z
  | None => 0
  end.

Section Signature.
Context `{Host}.

(** ** The hash table of the host *)

(** Modelled from the spec: the generic hash table is a collaborator (a table
    with text keys and iteration).  Keys are compared by their text; a table
    keeps one bucket per key, [Parrot_hash_put] replacing the value of a key
    it already holds; the functions dereference the table they are given. *)
Definition key_eqb (k1 k2 : ptr) : bool :=
  bool_decide (string_text k1 = string_text k2).

Fixpoint find_bucket (k : ptr) (h : Hash) : option ptr :=
  match h with
  | [] => None
  | (k', v) :: h' => if key_eqb k' k then Some v else find_bucket k h'
  end.

Fixpoint put_bucket (k v : ptr) (h : Hash) : Hash :=
  match h with
  | [] => [(k, v)]
  | (k', v') :: h' =>
      if key_eqb k' k then (k', v) :: h' else (k', v') :: put_bucket k v h'
  end.

Definition with_table {A} (h : ptr) (f : Hash -> M A) : M A :=
  fun m => match tables m !! h with
           | Some b => f b m
           | None => Fault
           end.

Definition Parrot_hash_create : M ptr :=
  fun m =>
    let p := fresh_ptr m in
    Ok (p, set_tables (<[p := []]> (tables m)) m).

Definition Parrot_hash_destroy (h : ptr) : M unit :=
  with_table h (fun _ => modify_mem (fun m => set_tables (delete h (tables m)) m)).

(** The key of a text in a table keyed by strings is the string itself. *)
Definition Parrot_hash_key_from_string (h : ptr) (key : ptr) : M ptr :=
  with_table h (fun _ => ret key).

Definition Parrot_hash_get (h : ptr) (key : ptr) : M ptr :=
  with_table h (fun b => ret (default NULL (find_bucket key b))).

Definition Parrot_hash_exists (h : ptr) (key : ptr) : M INTVAL :=
  with_table h (fun b => ret (match find_bucket key b with Some _ => 1 | None => 0 end)).

Definition Parrot_hash_put (h : ptr) (key value : ptr) : M unit :=
  with_table h (fun b =>
    modify_mem (fun m => set_tables (<[h := put_bucket key value b]> (tables m)) m)).

Definition Parrot_hash_clone (src dest : ptr) : M unit :=
  with_table src (fun b =>
    for_each (fun kv : Z * Z => Parrot_hash_put dest kv.1 kv.2) b).

(** [parrot_hash_iterate (h, CODE)] runs [CODE] on every bucket. *)
Definition parrot_hash_iterate (h : ptr) (code : Z * Z -> M unit) : M unit :=
  with_table h (fun b => for_each code b).

(** The same, for a body that ends in [_bucket->value = tmp]. *)
Definition parrot_hash_iterate_set_value (h : ptr) (code : Z * Z -> M ptr) : M unit :=
  with_table h (fun b =>
    for_each (fun kv : Z * Z =>
                let* tmp := code kv in
                with_table h (fun b' =>
                  modify_mem (fun m =>
                    set_tables (<[h := put_bucket kv.1 tmp b']> (tables m)) m))) b).

(** Modelled from the spec: the cell macros are declared outside the file; a
    named cell is one cell of pooled storage, and cloning one copies its
    contents into a new cell. *)
Definition ALLOC_CELL : M ptr :=
  Parrot_gc_allocate_fixed_size_storage sizeof_Pcc_cell.

Definition FREE_CELL (c : ptr) : M unit :=
  Parrot_gc_free_fixed_size_storage sizeof_Pcc_cell c.

Definition CLONE_CELL (c : ptr) : M ptr :=
  let* tmp := ALLOC_CELL in
  memcpy tmp c sizeof_Pcc_cell >> ret tmp.

Definition PMC_IS_NULL (p : ptr) : bool := bool_decide (p = PMCNULL).

(** ** [memset] on the aggregate *)

(** The value of a field of [width] bytes after every byte was set to [c]. *)
Definition memset_field (c : Z) (width : nat) : Z :=
  foldr (fun b acc => b + 256 * acc) 0 (replicate width (c mod 256)).

Definition memset_Parrot_Signature (c : Z) : Parrot_Signature :=
  {| positionals := memset_field c sizeof_ptr;
     num_positionals := wrap (memset_field c sizeof_INTVAL);
     allocated_positionals := wrap (memset_field c sizeof_INTVAL);
     hash := memset_field c sizeof_ptr;
     type_tuple := memset_field c sizeof_ptr;
     short_sig := memset_field c sizeof_ptr;
     arg_flags := memset_field c sizeof_ptr;
     return_flags := memset_field c sizeof_ptr |}.

(** ** Functions of the file *)

Definition Parrot_pcc_signature_new : M Parrot_Signature :=
  let* sig := Parrot_gc_allocate_fixed_size_storage sizeof_Parrot_Signature in
  ret (memset_Parrot_Signature 1).

Definition Parrot_pcc_signature_reset (self : Parrot_Signature) : M Parrot_Signature :=
  (* Don't free positionals. Just reuse them *)
  let self := set_num_positionals 0 self in
  if bool_decide (hash self ≠ NULL) then
    parrot_hash_iterate (hash self) (fun bucket => FREE_CELL bucket.2) >>
    Parrot_hash_destroy (hash self) >>
    ret (set_hash NULL self)
  else ret self.

Definition Parrot_pcc_signature_num_positionals (self : Parrot_Signature) : INTVAL :=
  num_positionals self.

Definition ensure_positionals_storage (self : Parrot_Signature) (size : INTVAL)
  : M Parrot_Signature :=
  if size <=? allocated_positionals self then ret self
  else
    let size := if size <? 8 then 8 else size in
    let* new_array :=
      (if 8 <? size
       then Parrot_gc_allocate_memory_chunk (to_size_t (size * sizeof_Pcc_cell))
       else Parrot_gc_allocate_fixed_size_storage (to_size_t (size * sizeof_Pcc_cell))) in
    (if bool_decide (positionals self ≠ NULL) then
       memcpy new_array (positionals self)
              (to_size_t (num_positionals self * sizeof_Pcc_cell)) >>
       (if 8 <? allocated_positionals self
        then Parrot_gc_free_memory_chunk (positionals self)
        else Parrot_gc_free_fixed_size_storage
               (to_size_t (allocated_positionals self * sizeof_Pcc_cell))
               (positionals self))
     else ret tt) >>
    ret (set_positionals new_array (set_allocated_positionals size self)).

Definition Parrot_pcc_signature_push_integer (self : Parrot_Signature) (value : INTVAL)
  : M Parrot_Signature :=
  let num_pos := num_positionals self in
  let* self := ensure_positionals_storage self (wrap (num_pos + 1)) in
  store_cell (positionals self) num_pos (INTCELL value) >>
  ret (set_num_positionals (wrap (num_positionals self + 1)) self).

Definition Parrot_pcc_signature_push_float (self : Parrot_Signature) (value : FLOATVAL)
  : M Parrot_Signature :=
  let num_pos := num_positionals self in
  let* self := ensure_positionals_storage self (wrap (num_pos + 1)) in
  store_cell (positionals self) num_pos (FLOATCELL value) >>
  ret (set_num_positionals (wrap (num_positionals self + 1)) self).

Definition Parrot_pcc_signature_push_string (self : Parrot_Signature) (value : ptr)
  : M Parrot_Signature :=
  let num_pos := num_positionals self in
  let* self := ensure_positionals_storage self (wrap (num_pos + 1)) in
  store_cell (positionals self) num_pos (STRINGCELL value) >>
  ret (set_num_positionals (wrap (num_positionals self + 1)) self).

(** The assertion is [!PObj_on_free_list_TEST(value) || !"Push dead ..."]; a
    string literal is a non-null pointer, so its negation is false. *)
Definition Parrot_pcc_signature_push_pmc (self : Parrot_Signature) (value : ptr)
  : M Parrot_Signature :=
  let num_pos := num_positionals self in
  PARROT_ASSERT (negb (PObj_on_free_list_TEST value) || negb true)
                "Push dead object into CallContext!" >>
  let* self := ensure_positionals_storage self (wrap (num_pos + 1)) in
  store_cell (positionals self) num_pos (PMCCELL value) >>
  ret (set_num_positionals (wrap (num_positionals self + 1)) self).

(** *** Autoboxing *)

Definition autobox_intval (cell : Pcc_cell) : M INTVAL :=
  match cell with
  | INTCELL i => ret i
  | FLOATCELL n =>
      match INTVAL_of_FLOATVAL n with
      | Some i => ret i
      | None => fault
      end
  | STRINGCELL s => ret (if bool_decide (s ≠ NULL) then Parrot_str_to_int s else 0)
  | PMCCELL p => ret (VTABLE_get_integer p)
  | NOCELL => (* exception *) ret 0
  end.

Definition autobox_floatval (cell : Pcc_cell) : M FLOATVAL :=
  match cell with
  | INTCELL i => ret (FLOATVAL_of_INTVAL i)
  | FLOATCELL n => ret n
  | STRINGCELL s =>
      ret (if bool_decide (s ≠ NULL) then Parrot_str_to_num s else S754_zero false)
  | PMCCELL p => ret (VTABLE_get_number p)
  | NOCELL => (* exception *) ret (S754_zero false)
  end.

Definition autobox_string (cell : Pcc_cell) : M ptr :=
  match cell with
  | INTCELL i => ret (Parrot_str_from_int i)
  | FLOATCELL n => ret (Parrot_str_from_num n)
  | STRINGCELL s => ret s
  | PMCCELL p => ret (VTABLE_get_string p)
  | NOCELL => (* exception *) ret STRINGNULL
  end.

(** The [PMCCELL] case has no [break] and falls into [default], which only
    breaks. *)
Definition autobox_pmc (cell : Pcc_cell) : M ptr :=
  let result := PMCNULL in
  match cell with
  | INTCELL i => ret (Parrot_pmc_box_integer i)
  | FLOATCELL n => ret (Parrot_pmc_box_number n)
  | STRINGCELL s => ret (Parrot_pmc_box_string s)
  | PMCCELL p => ret p
  | NOCELL => (* exception *) ret result
  end.

(** *** Positional getters *)

Definition Parrot_pcc_signature_get_integer (self : Parrot_Signature) (key : INTVAL)
  : M INTVAL :=
  if (num_positionals self <=? key) || (key <? 0) then ret 0
  else let* cell := load_cell (positionals self) key in autobox_intval cell.

Definition Parrot_pcc_signature_get_number (self : Parrot_Signature) (key : INTVAL)
  : M FLOATVAL :=
  if (num_positionals self <=? key) || (key <? 0) then ret (S754_zero false)
  else let* cell := load_cell (positionals self) key in autobox_floatval cell.

Definition Parrot_pcc_signature_get_string (self : Parrot_Signature) (key : INTVAL)
  : M ptr :=
  if (num_positionals self <=? key) || (key <? 0) then ret STRINGNULL
  else let* cell := load_cell (positionals self) key in autobox_string cell.

Definition Parrot_pcc_signature_get_pmc (self : Parrot_Signature) (key : INTVAL)
  : M ptr :=
  if (num_positionals self <=? key) || (key <? 0) then ret PMCNULL
  else let* cell := load_cell (positionals self) key in autobox_pmc cell.

(** *** Named parameters *)

Definition get_cell_at (self : Parrot_Signature) (key : INTVAL)
  : M (Parrot_Signature * (ptr * Z)) :=
  let* self := ensure_positionals_storage self (wrap (key + 1)) in
  ret (self, (positionals self, key)).

Definition get_cell_named (self : Parrot_Signature) (key : ptr) : M ptr :=
  let* cell := Parrot_hash_get (hash self) key in
  if bool_decide (cell = NULL) then
    let* cell := ALLOC_CELL in
    Parrot_hash_put (hash self) key cell >> ret cell
  else ret cell.

Definition Parrot_pcc_signature_push_integer_named
  (self : Parrot_Signature) (key : ptr) (value : INTVAL) : M unit :=
  let* cell := get_cell_named self key in
  store_cell cell 0 (INTCELL value).

Definition Parrot_pcc_signature_push_number_named
  (self : Parrot_Signature) (key : ptr) (value : FLOATVAL) : M unit :=
  let* cell := get_cell_named self key in
  store_cell cell 0 (FLOATCELL value).

Definition Parrot_pcc_signature_push_string_named
  (self : Parrot_Signature) (key : ptr) (value : ptr) : M unit :=
  let* cell := get_cell_named self key in
  store_cell cell 0 (STRINGCELL value).

Definition Parrot_pcc_signature_push_pmc_named
  (self : Parrot_Signature) (key : ptr) (value : ptr) : M unit :=
  let* cell := get_cell_named self key in
  store_cell cell 0 (PMCCELL value).

Definition Parrot_pcc_signature_get_integer_named
  (self : Parrot_Signature) (key : ptr) : M INTVAL :=
  if bool_decide (hash self ≠ NULL) then
    let* k := Parrot_hash_key_from_string (hash self) key in
    let* cell := Parrot_hash_get (hash self) k in
    if bool_decide (cell ≠ NULL) then
      let* c := load_cell cell 0 in
      match c with
      | INTCELL i => ret i
      | _ => autobox_intval c
      end
    else ret 0
  else ret 0.

Definition Parrot_pcc_signature_get_number_named
  (self : Parrot_Signature) (key : ptr) : M FLOATVAL :=
  if bool_decide (hash self ≠ NULL) then
    let* k := Parrot_hash_key_from_string (hash self) key in
    let* cell := Parrot_hash_get (hash self) k in
    if bool_decide (cell ≠ NULL) then
      let* c := load_cell cell 0 in autobox_floatval c
    else ret (S754_zero false)
  else ret (S754_zero false).

Definition Parrot_pcc_signature_get_string_named
  (self : Parrot_Signature) (key : ptr) : M ptr :=
  if bool_decide (hash self ≠ NULL) then
    let* k := Parrot_hash_key_from_string (hash self) key in
    let* cell := Parrot_hash_get (hash self) k in
    if bool_decide (cell ≠ NULL) then
      let* c := load_cell cell 0 in autobox_string c
    else ret STRINGNULL
  else ret STRINGNULL.

Definition Parrot_pcc_signature_get_pmc_named
  (self : Parrot_Signature) (key : ptr) : M ptr :=
  if bool_decide (hash self ≠ NULL) then
    let* k := Parrot_hash_key_from_string (hash self) key in
    let* cell := Parrot_hash_get (hash self) k in
    if bool_decide (cell ≠ NULL) then
      let* c := load_cell cell 0 in
      match c with
      | PMCCELL p => ret p
      | _ => autobox_pmc c
      end
    else ret PMCNULL
  else ret PMCNULL.

Definition Parrot_pcc_signature_exists_named
  (self : Parrot_Signature) (key : ptr) : M INTVAL :=
  if bool_decide (hash self ≠ NULL) then
    let* k := Parrot_hash_key_from_string (hash self) key in
    Parrot_hash_exists (hash self) k
  else ret 0.

(** Modelled from the spec: the attribute accessors [GETATTR_CallContext_hash]
    and [SETATTR_CallContext_hash] are declared outside the file; they are
    taken to read and write the [hash] member of the structure they are
    given. *)
Definition get_hash (SELF : Parrot_Signature) : M (ptr * Parrot_Signature) :=
  let hash0 := hash SELF in
  if bool_decide (hash0 = NULL) then
    let* hash1 := Parrot_hash_create in
    ret (hash1, set_hash hash1 SELF)
  else ret (hash0, SELF).

(** *** Cloning *)

(** The body of [Parrot_pcc_signature_clone], returning its local [dest] as
    the last statement leaves it.  The body names [hash], which the function
    does not declare: it is the parameter [hash_ident].  The statement
    [dest->short_sig = interp, self->short_sig;] is an assignment of [interp]
    followed by an expression without effect. *)
Definition clone_body (hash_ident : ptr) (self : Parrot_Signature)
  : M Parrot_Signature :=
  let* dest := Parrot_pcc_signature_new in
  (* Copy positionals *)
  let* dest := ensure_positionals_storage dest (num_positionals self) in
  memcpy (positionals dest) (positionals self)
         (to_size_t (num_positionals self * sizeof_Pcc_cell)) >>
  let dest := set_num_positionals (num_positionals self) dest in
  let dest := set_type_tuple (VTABLE_clone (type_tuple self)) dest in
  let dest := set_short_sig interp dest in
  let dest := set_arg_flags (VTABLE_clone (arg_flags self)) dest in
  let dest := set_return_flags (VTABLE_clone (return_flags self)) dest in
  if bool_decide (hash self ≠ NULL) then
    let* r := get_hash dest in
    let dest_hash := r.1 in
    let dest := r.2 in
    Parrot_hash_clone hash_ident dest_hash >>
    parrot_hash_iterate_set_value dest_hash (fun bucket => CLONE_CELL bucket.2) >>
    ret dest
  else ret dest.

(** The function has no [return] statement: control reaches its closing
    brace and the caller receives no value. *)
Definition Parrot_pcc_signature_clone (hash_ident : ptr) (self : Parrot_Signature)
  : M (option Parrot_Signature) :=
  let* dest := clone_body hash_ident self in
  ret None.

(** *** Marking *)

Definition mark_cell (c : Pcc_cell) : M unit :=
  match c with
  | STRINGCELL s =>
      if bool_decide (s ≠ NULL) then Parrot_gc_mark_STRING_alive s else ret tt
  | PMCCELL p =>
      if negb (PMC_IS_NULL p) then Parrot_gc_mark_PMC_alive p else ret tt
  | INTCELL _ | FLOATCELL _ | NOCELL => ret tt
  end.

Definition mark_positionals (self : Parrot_Signature) : M unit :=
  for_each (fun i => let* c := load_cell (positionals self) i in mark_cell c)
           (seqZ 0 (num_positionals self)).

Definition mark_hash (h : ptr) : M unit :=
  parrot_hash_iterate h (fun bucket =>
    Parrot_gc_mark_STRING_alive bucket.1 >>
    let* c := load_cell bucket.2 0 in mark_cell c).

End Signature.

(** ** A concrete host *)

(** A small object model to run the functions on: object 666 is on the free
    list, an object answers its vtable queries with fixed values, and the
    string library knows four texts. *)
Module Demo.

Definition text_of (s : ptr) : string :=
  if s =? 100 then "42"
  else if s =? 101 then "abc"
  else if s =? 102 then "x"
  else if s =? 103 then "-17"
  else "".

#[export] Instance host : Host := {|
  interp := 4096;
  PObj_on_free_list_TEST p := p =? 666;
  VTABLE_get_integer p := 7;
  VTABLE_get_number p := S754_zero false;
  VTABLE_get_string p := 102;
  VTABLE_clone p := if p =? 0 then 0 else p + 1;
  Parrot_pmc_box_integer i := 200;
  Parrot_pmc_box_number n := 201;
  Parrot_pmc_box_string s := 202;
  Parrot_str_from_int i := 102;
  Parrot_str_from_num n := 102;
  Parrot_str_to_num s := S754_zero false;
  string_text := text_of
|}.

(** A signature with three positionals and a named store of two entries:
    ["x"] holds an integer and ["42"] holds the string ["abc"]. *)
Definition sample_mem : Mem :=
  {| cells := {[ 16 := [INTCELL 5; STRINGCELL 100; PMCCELL 300; NOCELL;
                        NOCELL; NOCELL; NOCELL; NOCELL];
                 32 := [INTCELL 1];
                 64 := [STRINGCELL 101] ]};
     tables := {[ 48 := [(102, 32); (100, 64)] ]};
     gc_log := [] |}.

Definition sample_sig : Parrot_Signature := mkSig 16 3 8 48 0 0 0 0.

(** -3.75 *)
Definition sample_float : FLOATVAL := S754_finite true 15 (-2).

End Demo.

(** ** Notions of the specification *)

(** [z] is the number [n] rounded toward zero: it has the sign of [n] and
    its magnitude is the largest integer not above the magnitude
    [m * 2^e] of [n]. *)
Definition truncation_toward_zero (n : FLOATVAL) (z : Z) : Prop :=
  match n with
  | S754_zero _ => z = 0
  | S754_finite s m e =>
      (if s then z <= 0 else 0 <= z)
      /\ Z.abs z * 2 ^ Z.max 0 (- e) <= Z.pos m * 2 ^ Z.max 0 e
      /\ Z.pos m * 2 ^ Z.max 0 e < (Z.abs z + 1) * 2 ^ Z.max 0 (- e)
  | S754_infinity _ | S754_nan => False
  end.


(** A binary64 number is zero or [(-1)^s * m * 2^e] with [m < 2^53] and
    [-1074 <= e <= 971]; [binary64_value] is its value times [2^1074], an
    integer. *)
Definition binary64_value (g : FLOATVAL) : option Z :=
  match g with
  | S754_zero _ => Some 0
  | S754_finite s m e =>
      if (Z.pos m <? 2 ^ 53) && (-1074 <=? e) && (e <=? 971)
      then Some ((if s then -1 else 1) * (Z.pos m * 2 ^ (e + 1074)))
      else None
  | S754_infinity _ | S754_nan => None
  end.

(** [f] is the number [(float)v] of an integer [v]: a binary64 number in
    canonical form, [+0.0] for 0, such that no binary64 number is nearer to
    [v], and whose significand is even when another one is as near. *)
Definition float_of_integer (v : Z) (f : FLOATVAL) : Prop :=
  valid_binary FLOATVAL_prec FLOATVAL_emax f = true
  /\ (v = 0 -> f = S754_zero false)
  /\ exists x : Z,
       binary64_value f = Some x
       /\ forall (g : FLOATVAL) (y : Z),
            binary64_value g = Some y ->
            Z.abs (x - v * 2 ^ 1074) <= Z.abs (y - v * 2 ^ 1074)
            /\ (Z.abs (x - v * 2 ^ 1074) = Z.abs (y - v * 2 ^ 1074) -> y <> x ->
                match f with
                | S754_finite _ m _ => Z.even (Z.pos m) = true
                | _ => True
                end).

(** The decimal digits and their values. *)
Inductive decimal_digit : ascii -> Z -> Prop :=
  | digit_0 : decimal_digit "0" 0
  | digit_1 : decimal_digit "1" 1
  | digit_2 : decimal_digit "2" 2
  | digit_3 : decimal_digit "3" 3
  | digit_4 : decimal_digit "4" 4
  | digit_5 : decimal_digit "5" 5
  | digit_6 : decimal_digit "6" 6
  | digit_7 : decimal_digit "7" 7
  | digit_8 : decimal_digit "8" 8
  | digit_9 : decimal_digit "9" 9.

(** A run of one or more decimal digits and the number it writes: a digit
    appended to a run multiplies its number by ten and adds the digit. *)
Inductive decimal_digits : string -> Z -> Prop :=
  | digits_one (a : ascii) (d : Z) :
      decimal_digit a d -> decimal_digits (String a EmptyString) d
  | digits_snoc (s : string) (v : Z) (a : ascii) (d : Z) :
      decimal_digits s v -> decimal_digit a d ->
      decimal_digits (String.append s (String a EmptyString)) (10 * v + d).

(** Text that parses as an integer: a run of decimal digits, with an
    optional sign in front. *)
Inductive parses_as_integer : string -> Z -> Prop :=
  | parse_digits (s : string) (v : Z) :
      decimal_digits s v -> parses_as_integer s v
  | parse_plus (s : string) (v : Z) :
      decimal_digits s v -> parses_as_integer (String "+" s) v
  | parse_minus (s : string) (v : Z) :
      decimal_digits s v -> parses_as_integer (String "-" s) (- v).

Definition unparsable (s : string) : Prop := forall z : Z, ~ parses_as_integer s z.

(** The storage of the positionals is consistent: the count is within the
    recorded capacity, the capacity is a size the allocator is asked for
    without overflow, and the array is absent with capacity 0 or an
    allocated block of exactly the recorded capacity. *)
Definition storage_ok (m : Mem) (self : Parrot_Signature) : bool :=
  (0 <=? num_positionals self)
  && (num_positionals self <=? allocated_positionals self)
  && (allocated_positionals self <? 2 ^ 59)
  && (if bool_decide (positionals self = NULL)
      then allocated_positionals self =? 0
      else match cells m !! positionals self with
           | Some l => Z.of_nat (length l) =? allocated_positionals self
           | None => false
           end).

(** The live slots of the positional store: the cells at indices below the
    count. *)
Definition live_cells (m : Mem) (self : Parrot_Signature) : list Pcc_cell :=
  match cells m !! positionals self with
  | Some l => take (Z.to_nat (num_positionals self)) l
  | None => []
  end.

(** What [ensure_positionals_storage] asks of the collector when it grows
    the array to capacity [a] at address [p]. *)
Definition growth_events (self : Parrot_Signature) (a : Z) (p : ptr) : list gc_event :=
  [if 8 <? a then AllocChunk (a * sizeof_Pcc_cell) p
   else AllocFixed (a * sizeof_Pcc_cell) p]
  ++ (if bool_decide (positionals self <> NULL)
      then [if 8 <? allocated_positionals self
            then FreeChunk (positionals self)
            else FreeFixed (allocated_positionals self * sizeof_Pcc_cell)
                           (positionals self)]
      else []).

(** The capacity and the array after room was made for one more cell: as
    they were when the capacity suffices, else a new block of at least 8
    cells. *)
Definition next_capacity (self : Parrot_Signature) : Z :=
  if num_positionals self + 1 <=? allocated_positionals self
  then allocated_positionals self
  else Z.max 8 (num_positionals self + 1).

Definition next_array (m : Mem) (self : Parrot_Signature) : ptr :=
  if num_positionals self + 1 <=? allocated_positionals self
  then positionals self
  else fresh_ptr m.

(** [self'] in [m'] is [self] in [m] with the cell [c] appended: one more
    live cell, the earlier ones and the rest of the aggregate as they were,
    the named store and the other blocks untouched, and the collector asked
    only for what growth needs. *)
Definition appended (m : Mem) (self : Parrot_Signature) (c : Pcc_cell)
  (m' : Mem) (self' : Parrot_Signature) : Prop :=
  storage_ok m' self' = true
  /\ num_positionals self' = num_positionals self + 1
  /\ live_cells m' self' = live_cells m self ++ [c]
  /\ positionals self' = next_array m self
  /\ allocated_positionals self' = next_capacity self
  /\ (hash self' = hash self /\ type_tuple self' = type_tuple self
      /\ short_sig self' = short_sig self /\ arg_flags self' = arg_flags self
      /\ return_flags self' = return_flags self)
  /\ tables m' = tables m
  /\ (forall q, q <> positionals self -> q <> positionals self' ->
                cells m' !! q = cells m !! q)
  /\ gc_log m' = gc_log m ++
       (if num_positionals self + 1 <=? allocated_positionals self then []
        else growth_events self (Z.max 8 (num_positionals self + 1)) (fresh_ptr m)).

(** *** Sequences of positional pushes *)

Section PushSequences.
Context `{Host}.

Inductive push_op : Type :=
  | PushInteger (v : INTVAL)
  | PushFloat (n : FLOATVAL)
  | PushString (s : ptr)
  | PushPMC (p : ptr).

Definition run_push (self : Parrot_Signature) (op : push_op) : M Parrot_Signature :=
  match op with
  | PushInteger v => Parrot_pcc_signature_push_integer self v
  | PushFloat n => Parrot_pcc_signature_push_float self n
  | PushString s => Parrot_pcc_signature_push_string self s
  | PushPMC p => Parrot_pcc_signature_push_pmc self p
  end.

Fixpoint run_pushes (self : Parrot_Signature) (ops : list push_op)
  : M Parrot_Signature :=
  match ops with
  | [] => ret self
  | op :: ops' => let* self := run_push self op in run_pushes self ops'
  end.

(** The cell a push writes. *)
Definition cell_of_push (op : push_op) : Pcc_cell :=
  match op with
  | PushInteger v => INTCELL v
  | PushFloat n => FLOATCELL n
  | PushString s => STRINGCELL s
  | PushPMC p => PMCCELL p
  end.

(** Reading index [i] with the getter of the kind [op] was pushed with. *)
Definition get_native (self : Parrot_Signature) (i : INTVAL) (op : push_op)
  : M push_op :=
  match op with
  | PushInteger _ =>
      let* v := Parrot_pcc_signature_get_integer self i in ret (PushInteger v)
  | PushFloat _ =>
      let* n := Parrot_pcc_signature_get_number self i in ret (PushFloat n)
  | PushString _ =>
      let* s := Parrot_pcc_signature_get_string self i in ret (PushString s)
  | PushPMC _ =>
      let* p := Parrot_pcc_signature_get_pmc self i in ret (PushPMC p)
  end.

(** An object push of a reference that is not on the free list; the other
    pushes have no precondition. *)
Definition push_allowed (op : push_op) : bool :=
  match op with
  | PushPMC p => negb (PObj_on_free_list_TEST p)
  | _ => true
  end.

End PushSequences.

(** *** The named store *)

Section NamedStore.
Context `{Host}.

(** The buckets of a table whose key is the text of [k]. *)
Definition named_entries (k : ptr) (b : Hash) : Hash :=
  List.filter (fun kv : Z * Z => key_eqb kv.1 k) b.

(** A push for key [k] overwrites the cell [c] in place: the push returns,
    the cell at [c] now holds [new], no other cell and no table changed,
    the table has exactly one entry for [k], nothing was asked of the
    collector, the key still exists, and the named getters read [new]. *)
Definition overwrites_in_place (self : Parrot_Signature) (k c : ptr)
  (new : Pcc_cell) (push : M unit) (m : Mem) : Prop :=
  exists m',
    push m = Ok (tt, m')
    /\ cells m' = <[c := [new]]> (cells m)
    /\ tables m' = tables m
    /\ (exists b', tables m' !! hash self = Some b'
                   /\ length (named_entries k b') = 1%nat)
    /\ gc_log m' = gc_log m
    /\ Parrot_pcc_signature_exists_named self k m' = Ok (1, m')
    /\ Parrot_pcc_signature_get_integer_named self k m' =
         match new with INTCELL i => Ok (i, m') | _ => autobox_intval new m' end
    /\ Parrot_pcc_signature_get_number_named self k m' = autobox_floatval new m'
    /\ Parrot_pcc_signature_get_string_named self k m' = autobox_string new m'
    /\ Parrot_pcc_signature_get_pmc_named self k m' =
         match new with PMCCELL p => Ok (p, m') | _ => autobox_pmc new m' end.

End NamedStore.

(** *** References held by a signature *)

(** Appending reports to the collector's log. *)
Definition add_log (evs : list gc_event) (m : Mem) : Mem :=
  mkMem (cells m) (tables m) (gc_log m ++ evs).

(** A cell holds a live reference when it is a text or an object cell and
    its reference is not null. *)
Definition holds_reference (c : Pcc_cell) : bool :=
  match c with
  | STRINGCELL s => negb (s =? NULL)
  | PMCCELL p => negb (p =? PMCNULL)
  | INTCELL _ | FLOATCELL _ | NOCELL => false
  end.

(** The report the collector is owed for a cell. *)
Definition reference_of (c : Pcc_cell) : option gc_event :=
  match c with
  | STRINGCELL s => if holds_reference c then Some (MarkString s) else None
  | PMCCELL p => if holds_reference c then Some (MarkPMC p) else None
  | INTCELL _ | FLOATCELL _ | NOCELL => None
  end.

(** The references of the live positional cells, in index order. *)
Definition positional_references (m : Mem) (self : Parrot_Signature) : list gc_event :=
  omap reference_of (live_cells m self).

(** The cell a bucket's value points to. *)
Definition named_cell (m : Mem) (v : ptr) : option Pcc_cell :=
  match cells m !! v with
  | Some (c :: _) => Some c
  | _ => None
  end.

(** The references of a bucket: its key, and the reference of its cell. *)
Definition bucket_references (m : Mem) (kv : Z * Z) : list gc_event :=
  MarkString kv.1 :: option_list (named_cell m kv.2 ≫= reference_of).

Definition named_references (m : Mem) (b : Hash) : list gc_event :=
  flat_map (bucket_references m) b.

(** The number of live references a signature holds: the live positional
    cells that hold one, the keys of the named store, and the named cells
    that hold one. *)
Definition count_references (m : Mem) (self : Parrot_Signature) (b : Hash) : nat :=
  (length (List.filter holds_reference (live_cells m self))
   + length b
   + length (List.filter holds_reference (omap (fun kv : Z * Z => named_cell m kv.2) b)))%nat.

(** Every bucket has a key that is not null and a value that points to one
    cell. *)
Definition named_ok (m : Mem) (b : Hash) : bool :=
  forallb (fun kv : Z * Z =>
             negb (kv.1 =? NULL)
             && match cells m !! kv.2 with
                | Some [_] => true
                | _ => false
                end) b.

(** *** Releasing a signature *)

(** [Parrot_pcc_signature_free].  The aggregate is threaded by value, so its
    address, which the last statement releases, is the argument
    [self_ptr]. *)
Definition Parrot_pcc_signature_free (self_ptr : ptr) (self : Parrot_Signature)
  : M unit :=
  (if negb (allocated_positionals self =? 0) then
     if 8 <? allocated_positionals self
     then Parrot_gc_free_memory_chunk (positionals self)
     else Parrot_gc_free_fixed_size_storage
            (to_size_t (allocated_positionals self * sizeof_Pcc_cell))
            (positionals self)
   else ret tt) >>
  (if bool_decide (hash self <> NULL) then
     parrot_hash_iterate (hash self) (fun bucket => FREE_CELL bucket.2) >>
     Parrot_hash_destroy (hash self)
   else ret tt) >>
  Parrot_gc_free_fixed_size_storage sizeof_Parrot_Signature self_ptr.

(** The blocks of the memory other than the positional array. *)
Definition other_blocks (m : Mem) (self : Parrot_Signature) : gmap Z (list Pcc_cell) :=
  delete (positionals self) (cells m).

(** The release of the positional array, as [Parrot_pcc_signature_free]
    asks for it. *)
Definition array_release (self : Parrot_Signature) : list gc_event :=
  if allocated_positionals self =? 0 then []
  else [if 8 <? allocated_positionals self
        then FreeChunk (positionals self)
        else FreeFixed (allocated_positionals self * sizeof_Pcc_cell)
                       (positionals self)].

(** The release of the cells of a table, one per bucket. *)
Definition cell_releases (b : Hash) : list gc_event :=
  map (fun kv : Z * Z => FreeFixed sizeof_Pcc_cell kv.2) b.

(** The values of the buckets are live blocks, no two the same, and none is
    one of the addresses [avoid]. *)
Definition named_cells_live (m : Mem) (b : Hash) (avoid : list ptr) : bool :=
  bool_decide (NoDup (b.*2))
  && forallb (fun kv : Z * Z =>
                bool_decide (is_Some (cells m !! kv.2))
                && bool_decide (kv.2 ∉ avoid)) b.

(** The buckets of the named store of a signature, none without a store. *)
Definition named_buckets (m : Mem) (self : Parrot_Signature) : Hash :=
  if bool_decide (hash self = NULL) then []
  else default [] (tables m !! hash self).

(** The named store can be released: there is none, or its table is
    allocated and its cells are live, distinct and none of [avoid]. *)
Definition named_store_ready (m : Mem) (self : Parrot_Signature) (avoid : list ptr)
  : bool :=
  if bool_decide (hash self = NULL) then true
  else match tables m !! hash self with
       | Some b => named_cells_live m b avoid
       | None => false
       end.

(** An array is recorded with a capacity: capacity 0 means no array. *)
Definition capacity_sane (self : Parrot_Signature) : bool :=
  negb (allocated_positionals self =? 0) || bool_decide (positionals self = NULL).

(** *** Named pushes of any kind *)

Section NamedOps.
Context `{Host}.

(** The named push of the kind of [op], with its value. *)
Definition run_push_named (self : Parrot_Signature) (k : ptr) (op : push_op) : M unit :=
  match op with
  | PushInteger v => Parrot_pcc_signature_push_integer_named self k v
  | PushFloat n => Parrot_pcc_signature_push_number_named self k n
  | PushString s => Parrot_pcc_signature_push_string_named self k s
  | PushPMC p => Parrot_pcc_signature_push_pmc_named self k p
  end.

(** Reading key [k] with the named getter of the kind [op] was pushed with. *)
Definition get_native_named (self : Parrot_Signature) (k : ptr) (op : push_op)
  : M push_op :=
  match op with
  | PushInteger _ =>
      let* v := Parrot_pcc_signature_get_integer_named self k in ret (PushInteger v)
  | PushFloat _ =>
      let* n := Parrot_pcc_signature_get_number_named self k in ret (PushFloat n)
  | PushString _ =>
      let* s := Parrot_pcc_signature_get_string_named self k in ret (PushString s)
  | PushPMC _ =>
      let* p := Parrot_pcc_signature_get_pmc_named self k in ret (PushPMC p)
  end.

(** The named queries for key [k] answer as for a present key whose cell
    holds [x]. *)
Definition named_reads (self : Parrot_Signature) (k : ptr) (x : Pcc_cell) (m : Mem)
  : Prop :=
  Parrot_pcc_signature_exists_named self k m = Ok (1, m)
  /\ Parrot_pcc_signature_get_integer_named self k m =
       match x with INTCELL i => Ok (i, m) | _ => autobox_intval x m end
  /\ Parrot_pcc_signature_get_number_named self k m = autobox_floatval x m
  /\ Parrot_pcc_signature_get_string_named self k m = autobox_string x m
  /\ Parrot_pcc_signature_get_pmc_named self k m =
       match x with PMCCELL p => Ok (p, m) | _ => autobox_pmc x m end.

(** A well-formed named store: every bucket has a non-null key and a
    non-null value that points to one cell, no two buckets share a cell,
    and no two keys have the same text. *)
Definition table_ok (m : Mem) (b : Hash) : bool :=
  named_ok m b
  && bool_decide (NoDup (b.*2))
  && forallb (fun kv : Z * Z => negb (kv.2 =? NULL)) b
  && bool_decide (NoDup (string_text <$> b.*1)).

End NamedOps.

(** *** More concrete inputs *)

Module Demo2.

(** The sample memory of [Demo] with the block of the aggregate at
    address 8. *)
Definition owned_mem : Mem :=
  {| cells := <[8 := [NOCELL; NOCELL; NOCELL; NOCELL]]> (cells Demo.sample_mem);
     tables := tables Demo.sample_mem;
     gc_log := [] |}.

(** A memory that holds only the block of an aggregate, at address 8. *)
Definition bare_mem : Mem :=
  {| cells := {[ 8 := [NOCELL; NOCELL; NOCELL; NOCELL] ]};
     tables := ∅;
     gc_log := [] |}.

(** Nine positional pushes of mixed kinds. *)
Definition nine_pushes : list push_op :=
  [PushInteger 1; PushString 100; PushPMC 300; PushFloat Demo.sample_float;
   PushInteger 5; PushInteger 6; PushString 101; PushInteger 8; PushPMC 301].

(** The sample signature with a float at index 1 that is too large for an
    INTVAL (2^64). *)
Definition float_mem : Mem :=
  {| cells := {[ 16 := [INTCELL 5; FLOATCELL (S754_finite false 1 64); NOCELL; NOCELL;
                        NOCELL; NOCELL; NOCELL; NOCELL] ]};
     tables := ∅;
     gc_log := [] |}.

Definition float_sig : Parrot_Signature := mkSig 16 2 8 0 0 0 0 0.

(** [2^64], a number above every INTVAL. *)
Definition huge_float : FLOATVAL := S754_finite false 1 64.

End Demo2.

(** * Properties *)

Section Properties.
Context `{Host}.

(** ** Running the monad *)

Lemma bind_Ok {A B} (c : M A) (k : A -> M B) m a m' :
  c m = Ok (a, m') -> bind c k m = k a m'.
Proof. intros Hc. unfold bind. now rewrite Hc. Qed.

Lemma load_cell_Ok p i l c m :
  cells m !! p = Some l -> 0 <= i -> l !! Z.to_nat i = Some c ->
  load_cell p i m = Ok (c, m).
Proof.
  intros Hp Hi Hc. unfold load_cell. rewrite Hp.
  destruct (Z.leb_spec 0 i); [now rewrite Hc | lia].
Qed.

Lemma store_cell_Ok p i l c m :
  cells m !! p = Some l -> 0 <= i < Z.of_nat (length l) ->
  store_cell p i c m =
    Ok (tt, set_cells (<[p := <[Z.to_nat i := c]> l]> (cells m)) m).
Proof.
  intros Hp Hi. unfold store_cell. rewrite Hp.
  destruct (Z.leb_spec 0 i); [| lia].
  destruct (Z.ltb_spec i (Z.of_nat (length l))); [reflexivity | lia].
Qed.

Lemma out_of_range_test (self : Parrot_Signature) (key : INTVAL) :
  num_positionals self <= key \/ key < 0 ->
  (num_positionals self <=? key) || (key <? 0) = true.
Proof.
  intros [Hk | Hk].
  - apply orb_true_iff. left. now apply Z.leb_le.
  - apply orb_true_iff. right. now apply Z.ltb_lt.
Qed.

Lemma in_range_test (self : Parrot_Signature) (key : INTVAL) :
  0 <= key < num_positionals self ->
  (num_positionals self <=? key) || (key <? 0) = false.
Proof.
  intros Hk. apply orb_false_iff. split.
  - apply Z.leb_gt. lia.
  - apply Z.ltb_ge. lia.
Qed.

(** ** Allocation *)

(** A field of at least one byte set to a non-zero byte is not zero. *)
Lemma memset_field_pos (c : Z) (width : nat) :
  0 < c < 256 -> (0 < width)%nat -> 0 < memset_field c width.
Proof.
  intros Hc Hw. unfold memset_field.
  rewrite (Z.mod_small c 256) by lia.
  destruct width as [| w]; [lia |]. simpl.
  assert (Hge : 0 <= foldr (fun b acc => b + 256 * acc) 0 (replicate w c)).
  { induction w as [| w IH]; simpl; lia. }
  lia.
Qed.

(** C2: [Parrot_pcc_signature_new] sets every byte of the aggregate to 1, so
    every member of the signature it returns is 0x0101010101010101: the
    positional count is not zero, the recorded capacity is not zero, and
    neither the array, the hash nor a metadata handle is null. *)
Theorem new_sets_every_member_to_ones (m : Mem) :
  exists m',
    Parrot_pcc_signature_new m =
      Ok (mkSig 72340172838076673 72340172838076673 72340172838076673
                72340172838076673 72340172838076673 72340172838076673
                72340172838076673 72340172838076673, m')
    /\ gc_log m' = gc_log m ++ [AllocFixed sizeof_Parrot_Signature (fresh_ptr m)].
Proof.
  eexists. split; reflexivity.
Qed.

(** ** Out-of-range reads *)

(** C6: for an index at or past the positional count, or negative, each of
    the four positional getters returns the zero of its type (0, 0.0, the
    null string, the null object), with no error and the memory as it was. *)
Theorem get_out_of_range (self : Parrot_Signature) (key : INTVAL) (m : Mem) :
  num_positionals self <= key \/ key < 0 ->
  Parrot_pcc_signature_get_integer self key m = Ok (0, m)
  /\ Parrot_pcc_signature_get_number self key m = Ok (S754_zero false, m)
  /\ Parrot_pcc_signature_get_string self key m = Ok (STRINGNULL, m)
  /\ Parrot_pcc_signature_get_pmc self key m = Ok (PMCNULL, m).
Proof.
  intros Hk. apply out_of_range_test in Hk.
  unfold Parrot_pcc_signature_get_integer, Parrot_pcc_signature_get_number,
    Parrot_pcc_signature_get_string, Parrot_pcc_signature_get_pmc.
  rewrite Hk. repeat split.
Qed.

(** ** Coercions *)

Lemma FLOATVAL_trunc_toward_zero (n : FLOATVAL) (z : Z) :
  FLOATVAL_trunc n = Some z -> truncation_toward_zero n z.
Proof.
  destruct n as [s | s | | s m e]; simpl; try discriminate.
  - now intros [= <-].
  - intros [= <-].
    assert (Hmag : 0 <= Z.shiftl (Z.pos m) e) by (apply Z.shiftl_nonneg; lia).
    assert (Habs : Z.abs (if s then - Z.shiftl (Z.pos m) e else Z.shiftl (Z.pos m) e)
                   = Z.shiftl (Z.pos m) e) by (destruct s; lia).
    rewrite Habs. split; [destruct s; lia |].
    destruct (Z.le_gt_cases 0 e) as [He | He].
    + rewrite (Z.max_r 0 e), (Z.max_l 0 (- e)) by lia.
      rewrite Z.shiftl_mul_pow2 by lia. simpl (2 ^ 0). lia.
    + rewrite (Z.max_l 0 e), (Z.max_r 0 (- e)) by lia.
      replace e with (- - e) at 1 3 by lia.
      rewrite Z.shiftl_opp_r, Z.shiftr_div_pow2 by lia.
      assert (Hd : 0 < 2 ^ (- e)) by (apply Z.pow_pos_nonneg; lia).
      pose proof (Z.div_mod (Z.pos m) (2 ^ (- e)) ltac:(lia)) as Hdm.
      pose proof (Z.mod_pos_bound (Z.pos m) (2 ^ (- e)) Hd) as Hb.
      simpl (2 ^ 0). nia.
Qed.

(** The integral part of a number is the only integer that is its
    truncation toward zero. *)
Lemma truncation_toward_zero_trunc (n : FLOATVAL) (z : Z) :
  truncation_toward_zero n z -> FLOATVAL_trunc n = Some z.
Proof.
  destruct n as [s | s | | s m e]; simpl; try contradiction.
  - now intros ->.
  - intros (Hs & Hlo & Hhi).
    pose proof (FLOATVAL_trunc_toward_zero (S754_finite s m e) _ eq_refl)
      as (Hs0 & Hlo0 & Hhi0).
    set (z0 := if s then - Z.shiftl (Z.pos m) e else Z.shiftl (Z.pos m) e) in *.
    assert (HA : 0 < 2 ^ Z.max 0 (- e)) by (apply Z.pow_pos_nonneg; lia).
    assert (H1 : Z.abs z * 2 ^ Z.max 0 (- e) < (Z.abs z0 + 1) * 2 ^ Z.max 0 (- e)) by lia.
    assert (H2 : Z.abs z0 * 2 ^ Z.max 0 (- e) < (Z.abs z + 1) * 2 ^ Z.max 0 (- e)) by lia.
    apply Z.mul_lt_mono_pos_r in H1, H2; [| assumption | assumption].
    f_equal. destruct s; lia.
Qed.

(** *** The conversion of an integer to a float *)

Lemma digits2_pos_bounds (p : positive) :
  2 ^ (Z.pos (digits2_pos p) - 1) <= Z.pos p < 2 ^ Z.pos (digits2_pos p).
Proof.
  induction p as [p IH | p IH |]; simpl digits2_pos.
  - rewrite Pos2Z.inj_succ. replace (Z.succ (Z.pos (digits2_pos p)) - 1)
      with (Z.succ (Z.pos (digits2_pos p) - 1)) by lia.
    rewrite !Z.pow_succ_r by lia. lia.
  - rewrite Pos2Z.inj_succ. replace (Z.succ (Z.pos (digits2_pos p)) - 1)
      with (Z.succ (Z.pos (digits2_pos p) - 1)) by lia.
    rewrite !Z.pow_succ_r by lia. lia.
  - simpl. lia.
Qed.

Lemma digits2_pos_unique (p : positive) (n : Z) :
  2 ^ (n - 1) <= Z.pos p < 2 ^ n -> Z.pos (digits2_pos p) = n.
Proof.
  intros [Hlo Hhi]. pose proof (digits2_pos_bounds p) as [Hlo' Hhi'].
  assert (Hn : 0 < n).
  { destruct (Z.lt_ge_cases 0 n) as [| Hle]; [assumption |].
    destruct (Z.eq_dec n 0) as [-> | Hn0]; [simpl in Hhi; lia |].
    rewrite Z.pow_neg_r in Hhi by lia. lia. }
  destruct (Z.lt_trichotomy (Z.pos (digits2_pos p)) n) as [Hlt | [Heq | Hgt]];
    [| assumption |].
  - assert (2 ^ Z.pos (digits2_pos p) <= 2 ^ (n - 1)) by (apply Z.pow_le_mono_r; lia). lia.
  - assert (2 ^ n <= 2 ^ (Z.pos (digits2_pos p) - 1)) by (apply Z.pow_le_mono_r; lia). lia.
Qed.

Lemma iter_pos_iter {A : Type} (f : A -> A) (p : positive) (x : A) :
  SpecFloat.iter_pos f p x = Nat.iter (Pos.to_nat p) f x.
Proof.
  revert x. induction p as [p IH | p IH |]; intros x; simpl SpecFloat.iter_pos.
  - rewrite !IH, Pos2Nat.inj_xI.
    replace (S (2 * Pos.to_nat p)) with (Pos.to_nat p + S (Pos.to_nat p))%nat by lia.
    rewrite Nat.iter_add. f_equal. now rewrite Nat.iter_succ_r.
  - rewrite !IH, Pos2Nat.inj_xO.
    replace (2 * Pos.to_nat p)%nat with (Pos.to_nat p + Pos.to_nat p)%nat by lia.
    now rewrite Nat.iter_add.
  - reflexivity.
Qed.

Lemma shr_1_halves (m : Z) (r s : bool) :
  0 <= m ->
  shr_1 {| shr_m := m; shr_r := r; shr_s := s |}
  = {| shr_m := Z.div2 m; shr_r := Z.odd m; shr_s := r || s |}.
Proof.
  intros Hm. destruct m as [| p | p]; [reflexivity | | lia].
  destruct p; reflexivity.
Qed.

Lemma shr_iter (n : nat) (m : Z) :
  0 <= m ->
  exists (q low : Z) (rb : bool),
    Nat.iter (S n) shr_1 {| shr_m := m; shr_r := false; shr_s := false |}
    = {| shr_m := q; shr_r := rb; shr_s := negb (low =? 0) |}
    /\ 0 <= q /\ 0 <= low < 2 ^ Z.of_nat n
    /\ m = q * 2 ^ Z.of_nat (S n) + (if rb then 2 ^ Z.of_nat n else 0) + low.
Proof.
  intros Hm. induction n as [| n (q & low & rb & Hit & Hq & Hlow & Heq)].
  - exists (Z.div2 m), 0, (Z.odd m).
    change (Nat.iter 1 shr_1 ?x) with (shr_1 x).
    rewrite shr_1_halves by assumption.
    split; [reflexivity |]. split; [apply Z.div2_nonneg; lia |].
    split; [simpl; lia |].
    pose proof (Z.div2_odd m) as Hd. change (2 ^ Z.of_nat 1) with 2.
    change (2 ^ Z.of_nat 0) with 1. destruct (Z.odd m); simpl in Hd; lia.
  - exists (Z.div2 q), ((if rb then 2 ^ Z.of_nat n else 0) + low), (Z.odd q).
    assert (HP : 0 < 2 ^ Z.of_nat n) by (apply Z.pow_pos_nonneg; lia).
    assert (HS : 2 ^ Z.of_nat (S n) = 2 * 2 ^ Z.of_nat n)
      by (rewrite Nat2Z.inj_succ, Z.pow_succ_r; lia).
    assert (HSS : 2 ^ Z.of_nat (S (S n)) = 2 * 2 ^ Z.of_nat (S n))
      by (rewrite (Nat2Z.inj_succ (S n)), Z.pow_succ_r; lia).
    change (Nat.iter (S (S n)) shr_1 ?x) with (shr_1 (Nat.iter (S n) shr_1 x)).
    rewrite Hit, shr_1_halves by assumption.
    split.
    { f_equal. destruct rb; simpl.
      - symmetry. apply negb_true_iff, Z.eqb_neq. lia.
      - reflexivity. }
    split; [apply Z.div2_nonneg; lia |].
    split; [destruct rb; lia |].
    pose proof (Z.div2_odd q) as Hd. rewrite HSS, HS. rewrite HS in Heq.
    destruct (Z.odd q); simpl in Hd; destruct rb; lia.
Qed.

(** The significand kept by a right shift of [n >= 1] bits and the rounding
    of what was dropped, to nearest and to even on a tie. *)
Lemma shr_round (n : positive) (m : Z) :
  0 <= m ->
  exists q rho : Z,
    let mrs := SpecFloat.iter_pos shr_1 n {| shr_m := m; shr_r := false; shr_s := false |} in
    let q' := round_nearest_even (shr_m mrs) (loc_of_shr_record mrs) in
    m = q * 2 ^ Z.pos n + rho /\ 0 <= q /\ 0 <= rho < 2 ^ Z.pos n
    /\ ((q' = q /\ 2 * rho <= 2 ^ Z.pos n) \/ (q' = q + 1 /\ 2 ^ Z.pos n <= 2 * rho))
    /\ (2 * rho = 2 ^ Z.pos n -> Z.even q' = true).
Proof.
  intros Hm. rewrite iter_pos_iter.
  destruct (Pos2Nat.is_succ n) as (k & Hk). rewrite Hk.
  destruct (shr_iter k m Hm) as (q & low & rb & Hit & Hq & Hlow & Heq).
  assert (Hn : Z.pos n = Z.of_nat (S k)) by lia.
  assert (HP : 0 < 2 ^ Z.of_nat k) by (apply Z.pow_pos_nonneg; lia).
  assert (HS : 2 ^ Z.of_nat (S k) = 2 * 2 ^ Z.of_nat k)
    by (rewrite Nat2Z.inj_succ, Z.pow_succ_r; lia).
  exists q, ((if rb then 2 ^ Z.of_nat k else 0) + low).
  cbv zeta. rewrite Hit, Hn. cbn [shr_m loc_of_shr_record].
  split; [lia |]. split; [assumption |]. split; [destruct rb; lia |].
  destruct (Z.eqb_spec low 0) as [E | Hne]; destruct rb;
    cbn [negb round_nearest_even].
  - destruct (Z.even q) eqn:He.
    + split; [left; lia |]. intros _. assumption.
    + split; [right; lia |]. intros _. rewrite Z.even_add, He. reflexivity.
  - split; [left; lia |]. intros; lia.
  - split; [right; lia |]. intros; lia.
  - split; [left; lia |]. intros; lia.
Qed.

Lemma shl_align_left (mx : positive) (ex ex' : Z) :
  ex' < ex ->
  shl_align mx ex ex' = (Pos.iter xO mx (Z.to_pos (ex - ex')), ex').
Proof.
  intros Hlt. unfold shl_align.
  destruct (ex' - ex) as [| d | d] eqn:E; [lia | lia |].
  replace (ex - ex') with (Z.pos d) by lia. reflexivity.
Qed.

Lemma shl_align_stay (mx : positive) (ex ex' : Z) :
  ex <= ex' -> shl_align mx ex ex' = (mx, ex).
Proof.
  intros Hle. unfold shl_align.
  destruct (ex' - ex) as [| d | d] eqn:E; [reflexivity | reflexivity | lia].
Qed.

Lemma iter_xO_value (p d : positive) :
  Z.pos (Pos.iter xO p d) = Z.pos p * 2 ^ Z.pos d.
Proof.
  pose proof (shift_pos_correct d p) as Hs. unfold shift_pos in Hs.
  rewrite Hs. change (Zpower_pos 2 d) with (2 ^ Z.pos d). lia.
Qed.

Lemma shr_fexp_eq (m e : Z) (l : location) :
  shr_fexp FLOATVAL_prec FLOATVAL_emax m e l
  = shr (shr_record_of_loc m l) e (Z.max (Zdigits2 m + e - 53) (-1074) - e).
Proof. reflexivity. Qed.

(** A significand of 53 bits with an exponent in range is kept as it is. *)
Lemma binary_round_aux_normal (s : bool) (m : positive) (e : Z) :
  2 ^ 52 <= Z.pos m < 2 ^ 53 -> -1074 <= e <= 971 ->
  binary_round_aux FLOATVAL_prec FLOATVAL_emax s (Z.pos m) e loc_Exact
  = S754_finite s m e.
Proof.
  intros Hm He.
  assert (Hd : Z.pos (digits2_pos m) = 53) by (apply digits2_pos_unique; exact Hm).
  assert (Hsh : shr_fexp FLOATVAL_prec FLOATVAL_emax (Z.pos m) e loc_Exact
                = ({| shr_m := Z.pos m; shr_r := false; shr_s := false |}, e)).
  { rewrite shr_fexp_eq. cbn [Zdigits2]. rewrite Hd.
    replace (Z.max (53 + e - 53) (-1074) - e) with 0 by lia. reflexivity. }
  unfold binary_round_aux. rewrite Hsh.
  cbn [shr_m loc_of_shr_record round_nearest_even]. rewrite Hsh. cbn [shr_m].
  replace (e <=? FLOATVAL_emax - FLOATVAL_prec) with true; [reflexivity |].
  symmetry. apply Z.leb_le. unfold FLOATVAL_emax, FLOATVAL_prec. lia.
Qed.

Lemma shr_fexp_normal (m : positive) (e : Z) :
  2 ^ 52 <= Z.pos m < 2 ^ 53 -> -1074 <= e ->
  shr_fexp FLOATVAL_prec FLOATVAL_emax (Z.pos m) e loc_Exact
  = ({| shr_m := Z.pos m; shr_r := false; shr_s := false |}, e).
Proof.
  intros Hm He.
  assert (Hd : Z.pos (digits2_pos m) = 53) by (apply digits2_pos_unique; exact Hm).
  rewrite shr_fexp_eq. cbn [Zdigits2]. rewrite Hd.
  replace (Z.max (53 + e - 53) (-1074) - e) with 0 by lia. reflexivity.
Qed.

Lemma shr_fexp_carry (e : Z) :
  -1074 <= e ->
  shr_fexp FLOATVAL_prec FLOATVAL_emax (2 ^ 53) e loc_Exact
  = ({| shr_m := 2 ^ 52; shr_r := false; shr_s := false |}, e + 1).
Proof.
  intros He. rewrite shr_fexp_eq. change (Zdigits2 (2 ^ 53)) with 54.
  replace (Z.max (54 + e - 53) (-1074) - e) with 1 by lia. reflexivity.
Qed.

(** The shape of [(FLOATVAL)a] for a positive [a] below [2^64], with the
    values scaled by [2^1074]: the significand has 53 bits; [a] lies in the
    interval from [q * 2^delta] to [(q + 1) * 2^delta], whose ends are
    neighbours among the binary64 numbers, and the result is the nearer
    end, the even one on a tie. *)
Lemma binary_round_shape (s : bool) (p : positive) :
  Z.pos p < 2 ^ 64 ->
  exists (m : positive) (e q delta rho : Z),
    binary_round FLOATVAL_prec FLOATVAL_emax s p 0 = S754_finite s m e
    /\ 2 ^ 52 <= Z.pos m < 2 ^ 53 /\ -52 <= e <= 12
    /\ 2 ^ 52 <= q < 2 ^ 53 /\ 0 <= delta /\ 0 <= rho < 2 ^ delta
    /\ Z.pos p * 2 ^ 1074 = q * 2 ^ delta + rho
    /\ ((Z.pos m * 2 ^ (e + 1074) = q * 2 ^ delta /\ 2 * rho <= 2 ^ delta)
        \/ (Z.pos m * 2 ^ (e + 1074) = (q + 1) * 2 ^ delta /\ 2 ^ delta <= 2 * rho))
    /\ (2 * rho = 2 ^ delta -> Z.even (Z.pos m) = true).
Proof.
  intros Hp.
  pose proof (digits2_pos_bounds p) as [Hlo Hhi].
  set (n := Z.pos (digits2_pos p)) in *.
  assert (Hn : 1 <= n <= 64).
  { split; [unfold n; lia |].
    destruct (Z.le_gt_cases n 64) as [| Hgt]; [assumption |].
    assert (2 ^ 64 <= 2 ^ (n - 1)) by (apply Z.pow_le_mono_r; lia). lia. }
  assert (Hfexp : fexp FLOATVAL_prec FLOATVAL_emax (n + 0) = n - 53).
  { unfold fexp, emin, FLOATVAL_prec, FLOATVAL_emax. lia. }
  unfold binary_round. fold n. rewrite Hfexp.
  destruct (Z.le_gt_cases n 53) as [Hsmall | Hbig].
  - (* the value is kept exactly *)
    assert (Hex : exists m : positive,
               shl_align p 0 (n - 53) = (m, n - 53)
               /\ Z.pos m = Z.pos p * 2 ^ (53 - n)).
    { destruct (Z.eq_dec n 53) as [E | NE].
      - exists p. rewrite shl_align_stay by lia. rewrite E. split; [reflexivity |].
        simpl (2 ^ (53 - 53)). lia.
      - exists (Pos.iter xO p (Z.to_pos (0 - (n - 53)))).
        rewrite shl_align_left by lia. split; [reflexivity |].
        rewrite iter_xO_value, Z2Pos.id by lia. f_equal. f_equal. lia. }
    destruct Hex as (m & Hal & Hm). rewrite Hal.
    assert (Hpow : 2 ^ (n - 1) * 2 ^ (53 - n) = 2 ^ 52)
      by (rewrite <- Z.pow_add_r by lia; f_equal; lia).
    assert (Hpow' : 2 ^ n * 2 ^ (53 - n) = 2 ^ 53)
      by (rewrite <- Z.pow_add_r by lia; f_equal; lia).
    assert (Hs : 0 < 2 ^ (53 - n)) by (apply Z.pow_pos_nonneg; lia).
    assert (Hmb : 2 ^ 52 <= Z.pos m < 2 ^ 53) by nia.
    rewrite binary_round_aux_normal by (assumption || lia).
    exists m, (n - 53), (Z.pos m), (n - 53 + 1074), 0.
    assert (Hd : 0 < 2 ^ (n - 53 + 1074)) by (apply Z.pow_pos_nonneg; lia).
    split; [reflexivity |]. split; [assumption |]. split; [lia |].
    split; [assumption |]. split; [lia |]. split; [lia |].
    split.
    { rewrite Hm, Z.add_0_r, <- Z.mul_assoc, <- Z.pow_add_r by lia.
      f_equal. f_equal. lia. }
    split; [left; split; [reflexivity | lia] |]. lia.
  - (* the low bits are rounded away *)
    rewrite shl_align_stay by lia.
    set (d := Z.to_pos (n - 53)).
    assert (Hd : Z.pos d = n - 53) by (unfold d; rewrite Z2Pos.id; lia).
    destruct (shr_round d (Z.pos p) ltac:(lia))
      as (q & rho & Hsplit & Hq0 & Hrho & Hnear & Htie).
    cbv zeta in Hnear, Htie.
    assert (Hsh : shr_fexp FLOATVAL_prec FLOATVAL_emax (Z.pos p) 0 loc_Exact
                  = (SpecFloat.iter_pos shr_1 d
                       {| shr_m := Z.pos p; shr_r := false; shr_s := false |},
                     Z.pos d)).
    { rewrite shr_fexp_eq. cbn [Zdigits2]. fold n.
      replace (Z.max (n + 0 - 53) (-1074) - 0) with (Z.pos d) by lia.
      reflexivity. }
    unfold binary_round_aux. rewrite Hsh.
    set (mrs := SpecFloat.iter_pos shr_1 d _) in *.
    set (q' := round_nearest_even (shr_m mrs) (loc_of_shr_record mrs)) in *.
    assert (HD : 0 < 2 ^ Z.pos d) by (apply Z.pow_pos_nonneg; lia).
    assert (Hpow : 2 ^ (n - 1) = 2 ^ 52 * 2 ^ Z.pos d)
      by (rewrite <- Z.pow_add_r by lia; f_equal; lia).
    assert (Hpow' : 2 ^ n = 2 ^ 53 * 2 ^ Z.pos d)
      by (rewrite <- Z.pow_add_r by lia; f_equal; lia).
    assert (Hqb : 2 ^ 52 <= q < 2 ^ 53) by nia.
    assert (Hscale : 2 ^ (Z.pos d + 1074) = 2 ^ Z.pos d * 2 ^ 1074)
      by (apply Z.pow_add_r; lia).
    assert (HK : 0 < 2 ^ 1074) by (apply Z.pow_pos_nonneg; lia).
    destruct (Z.eq_dec q' (2 ^ 53)) as [Hcarry | Hnocarry].
    + (* the rounding carries into the next binade *)
      rewrite Hcarry, shr_fexp_carry by lia. cbn [shr_m].
      change (2 ^ 52) with (Z.pos (Z.to_pos (2 ^ 52))).
      replace (Z.pos d + 1 <=? FLOATVAL_emax - FLOATVAL_prec) with true
        by (symmetry; apply Z.leb_le; unfold FLOATVAL_emax, FLOATVAL_prec; lia).
      exists (Z.to_pos (2 ^ 52)), (Z.pos d + 1), q, (Z.pos d + 1074), (rho * 2 ^ 1074).
      assert (Hq1 : q' = q + 1) by (destruct Hnear as [[? _] | [? _]]; lia).
      split; [reflexivity |]. split; [simpl; lia |]. split; [lia |].
      split; [assumption |]. split; [lia |]. split; [rewrite Hscale; nia |].
      split; [rewrite Hscale, Hsplit; lia |].
      split; [| intros _; reflexivity].
      right. destruct Hnear as [[? _] | [_ Hge]]; [lia |].
      split; [| rewrite Hscale; nia].
      change (Z.pos (Z.to_pos (2 ^ 52))) with (2 ^ 52).
      replace (Z.pos d + 1 + 1074) with (1 + (Z.pos d + 1074)) by lia.
      rewrite Z.pow_add_r by lia. change (2 ^ 1) with 2. lia.
    + (* the rounded significand still has 53 bits *)
      assert (Hq'b : 2 ^ 52 <= q' < 2 ^ 53) by (destruct Hnear as [[? _] | [? _]]; lia).
      destruct q' as [| mq | mq] eqn:Eq'; [lia | | lia].
      rewrite shr_fexp_normal by (assumption || lia). cbn [shr_m].
      replace (Z.pos d <=? FLOATVAL_emax - FLOATVAL_prec) with true
        by (symmetry; apply Z.leb_le; unfold FLOATVAL_emax, FLOATVAL_prec; lia).
      exists mq, (Z.pos d), q, (Z.pos d + 1074), (rho * 2 ^ 1074).
      split; [reflexivity |]. split; [assumption |]. split; [lia |].
      split; [assumption |]. split; [lia |]. split; [rewrite Hscale; nia |].
      split; [rewrite Hscale, Hsplit; lia |].
      split.
      * rewrite Hscale. destruct Hnear as [[E Hle] | [E Hge]]; [left | right];
          (split; [rewrite E; lia | nia]).
      * rewrite Hscale. intros Ht. apply Htie. nia.
Qed.

(** No binary64 number lies strictly between [q * 2^delta] and
    [(q + 1) * 2^delta] when [q] has 53 bits or more. *)
Lemma binary64_gap (g : FLOATVAL) (y q delta : Z) :
  binary64_value g = Some y ->
  2 ^ 52 <= q -> 0 <= delta ->
  ~ (q * 2 ^ delta < Z.abs y < (q + 1) * 2 ^ delta).
Proof.
  intros Hy Hq Hdelta [Hlo Hhi].
  assert (HD : 0 < 2 ^ delta) by (apply Z.pow_pos_nonneg; lia).
  destruct g as [s | s | | s m e]; simpl in Hy; try discriminate.
  - injection Hy as <-. simpl in Hlo. nia.
  - destruct (Z.ltb_spec (Z.pos m) (2 ^ 53)) as [Hm |]; [| discriminate].
    destruct (Z.leb_spec (-1074) e) as [He |]; [| discriminate].
    destruct (Z.leb_spec e 971); [| discriminate].
    simpl in Hy. injection Hy as <-.
    assert (HE : 0 < 2 ^ (e + 1074)) by (apply Z.pow_pos_nonneg; lia).
    assert (Habs : Z.abs ((if s then -1 else 1) * (Z.pos m * 2 ^ (e + 1074)))
                   = Z.pos m * 2 ^ (e + 1074)) by (destruct s; nia).
    rewrite Habs in Hlo, Hhi.
    destruct (Z.le_gt_cases delta (e + 1074)) as [Hge | Hlt].
    + assert (Hsp : 2 ^ (e + 1074) = 2 ^ (e + 1074 - delta) * 2 ^ delta)
        by (rewrite <- Z.pow_add_r by lia; f_equal; lia).
      rewrite Hsp, Z.mul_assoc in Hlo, Hhi.
      apply Z.mul_lt_mono_pos_r in Hlo, Hhi; [lia | assumption | assumption].
    + assert (Hsp : 2 ^ delta = 2 ^ (delta - (e + 1074) - 1) * (2 * 2 ^ (e + 1074))).
      { rewrite <- Z.pow_succ_r, <- Z.pow_add_r by lia. f_equal. lia. }
      assert (HP : 0 < 2 ^ (delta - (e + 1074) - 1)) by (apply Z.pow_pos_nonneg; lia).
      set (P := 2 ^ (delta - (e + 1074) - 1)) in *. set (E := 2 ^ (e + 1074)) in *.
      assert (H1 : 2 ^ 52 * 1 <= q * P) by (apply Z.mul_le_mono_nonneg; lia).
      assert (H2 : 2 ^ 52 * (2 * E) <= q * P * (2 * E))
        by (apply Z.mul_le_mono_nonneg_r; lia).
      assert (H3 : Z.pos m * E < 2 ^ 53 * E) by (apply Z.mul_lt_mono_pos_r; lia).
      rewrite Hsp in Hlo. lia.
Qed.

Lemma FLOATVAL_of_INTVAL_nearest (v : INTVAL) :
  in_INTVAL v = true -> float_of_integer v (FLOATVAL_of_INTVAL v).
Proof.
  intros Hv. unfold in_INTVAL, INTVAL_MIN, INTVAL_MAX in Hv.
  apply andb_true_iff in Hv as [Hlo Hhi]. apply Z.leb_le in Hlo, Hhi.
  destruct v as [| p | p].
  - split; [reflexivity |]. split; [reflexivity |].
    exists 0. split; [reflexivity |]. intros g y _. split; [lia |]. lia.
  - assert (Hp : Z.pos p < 2 ^ 64) by lia.
    destruct (binary_round_shape false p Hp)
      as (m & e & q & delta & rho & Hf & Hm & He & Hq & Hdelta & Hrho & Hsplit
          & Hnear & Htie).
    unfold FLOATVAL_of_INTVAL, binary_normalize. rewrite Hf.
    assert (Hdig : Z.pos (digits2_pos m) = 53) by (apply digits2_pos_unique; exact Hm).
    split.
    { unfold valid_binary, bounded, canonical_mantissa, fexp, emin. rewrite Hdig.
      apply andb_true_iff. split; [apply Z.eqb_eq | apply Z.leb_le];
        unfold FLOATVAL_prec, FLOATVAL_emax; lia. }
    split; [discriminate |].
    exists (Z.pos m * 2 ^ (e + 1074)). split.
    { unfold binary64_value.
      destruct (Z.ltb_spec (Z.pos m) (2 ^ 53)); [| lia].
      destruct (Z.leb_spec (-1074) e); [| lia].
      destruct (Z.leb_spec e 971); [| lia]. simpl. f_equal; lia. }
    intros g y Hy. pose proof (binary64_gap g y q delta Hy ltac:(lia) Hdelta) as Hgap.
    assert (HD : 0 < 2 ^ delta) by (apply Z.pow_pos_nonneg; lia).
    rewrite Hsplit. set (X := Z.pos m * 2 ^ (e + 1074)) in *.
    set (D := 2 ^ delta) in *. set (L := q * D) in *.
    assert (HU : (q + 1) * D = L + D) by (unfold L; lia).
    rewrite HU in Hgap, Hnear.
    split; [lia |]. intros Heq Hne. apply Htie. lia.
  - assert (Hp : Z.pos p < 2 ^ 64) by lia.
    destruct (binary_round_shape true p Hp)
      as (m & e & q & delta & rho & Hf & Hm & He & Hq & Hdelta & Hrho & Hsplit
          & Hnear & Htie).
    unfold FLOATVAL_of_INTVAL, binary_normalize. rewrite Hf.
    assert (Hdig : Z.pos (digits2_pos m) = 53) by (apply digits2_pos_unique; exact Hm).
    split.
    { unfold valid_binary, bounded, canonical_mantissa, fexp, emin. rewrite Hdig.
      apply andb_true_iff. split; [apply Z.eqb_eq | apply Z.leb_le];
        unfold FLOATVAL_prec, FLOATVAL_emax; lia. }
    split; [discriminate |].
    exists (- (Z.pos m * 2 ^ (e + 1074))). split.
    { unfold binary64_value.
      destruct (Z.ltb_spec (Z.pos m) (2 ^ 53)); [| lia].
      destruct (Z.leb_spec (-1074) e); [| lia].
      destruct (Z.leb_spec e 971); [| lia]. simpl. f_equal; lia. }
    intros g y Hy. pose proof (binary64_gap g y q delta Hy ltac:(lia) Hdelta) as Hgap.
    assert (HD : 0 < 2 ^ delta) by (apply Z.pow_pos_nonneg; lia).
    replace (Z.neg p * 2 ^ 1074) with (- (Z.pos p * 2 ^ 1074)) by lia.
    rewrite Hsplit. set (X := Z.pos m * 2 ^ (e + 1074)) in *.
    set (D := 2 ^ delta) in *. set (L := q * D) in *.
    assert (HU : (q + 1) * D = L + D) by (unfold L; lia).
    rewrite HU in Hgap, Hnear.
    split; [lia |]. intros Heq Hne. apply Htie. lia.
Qed.

(** *** Parsing *)

Lemma digit_of_decimal (a : ascii) (d : Z) :
  digit_of a = Some d <-> decimal_digit a d.
Proof.
  split.
  - destruct a as [[] [] [] [] [] [] [] []]; intros Hd; vm_compute in Hd;
      try discriminate; injection Hd as <-; constructor.
  - intros []; reflexivity.
Qed.

Lemma append_cons (b : ascii) (t s : string) :
  String.append (String b t) s = String b (String.append t s).
Proof. reflexivity. Qed.

Lemma digits_value_snoc (s : string) (a : ascii) (acc : Z) :
  digits_value acc (String.append s (String a EmptyString))
  = match digits_value acc s with
    | Some v => match digit_of a with Some d => Some (10 * v + d) | None => None end
    | None => None
    end.
Proof.
  revert acc. induction s as [| b s IH]; intros acc.
  - change (String.append EmptyString ?x) with x. simpl.
    destruct (digit_of a); reflexivity.
  - rewrite append_cons. simpl. destruct (digit_of b); [apply IH | reflexivity].
Qed.

Lemma decimal_digits_value (s : string) (v : Z) :
  decimal_digits s v -> digits_value 0 s = Some v /\ s <> EmptyString.
Proof.
  induction 1 as [a d Hd | s v a d _ [IH _] Hd].
  - apply digit_of_decimal in Hd. simpl. rewrite Hd. split; [f_equal; lia | discriminate].
  - apply digit_of_decimal in Hd. rewrite digits_value_snoc, IH, Hd.
    split; [reflexivity |]. destruct s; discriminate.
Qed.

Lemma append_snoc_assoc (t : string) (a : ascii) (s : string) :
  String.append (String.append t (String a EmptyString)) s = String.append t (String a s).
Proof. induction t as [| b t IH]; [reflexivity | rewrite !append_cons; now f_equal]. Qed.

Lemma append_empty_r (t : string) : String.append t EmptyString = t.
Proof. induction t as [| b t IH]; [reflexivity | rewrite !append_cons; now f_equal]. Qed.

(** Reading on after a prefix [t] already read as [acc]. *)
Lemma digits_value_decimal (s t : string) (acc v : Z) :
  (t = EmptyString /\ acc = 0) \/ decimal_digits t acc ->
  digits_value acc s = Some v ->
  (String.append t s = EmptyString /\ v = 0) \/ decimal_digits (String.append t s) v.
Proof.
  revert t acc. induction s as [| a s IH]; intros t acc Ht Hv; simpl in Hv.
  - injection Hv as <-. rewrite append_empty_r. exact Ht.
  - destruct (digit_of a) as [d |] eqn:Hd; [| discriminate].
    apply digit_of_decimal in Hd.
    rewrite <- append_snoc_assoc. apply (IH _ (10 * acc + d)); [| exact Hv].
    right. destruct Ht as [[-> ->] | Ht].
    + simpl. now apply digits_one.
    + now apply digits_snoc.
Qed.

Lemma numeral_value_unsigned (a : ascii) (s : string) (d : Z) :
  digit_of a = Some d ->
  numeral_value (String a s) = digits_value 0 (String a s).
Proof.
  destruct a as [[] [] [] [] [] [] [] []]; intros Hd; vm_compute in Hd;
    try discriminate; reflexivity.
Qed.

Lemma numeral_value_other (a : ascii) (s : string) :
  a <> "-"%char -> a <> "+"%char ->
  numeral_value (String a s) = digits_value 0 (String a s).
Proof.
  destruct a as [[] [] [] [] [] [] [] []]; intros Hm Hp;
    try reflexivity; congruence.
Qed.

(** The parser accepts exactly the texts of the grammar, with their
    numbers. *)
Lemma numeral_value_parses (s : string) (z : Z) :
  numeral_value s = Some z <-> parses_as_integer s z.
Proof.
  split.
  - intros Hs. destruct s as [| a s]; [discriminate |].
    destruct (ascii_dec a "-") as [-> | Hm]; [| destruct (ascii_dec a "+") as [-> | Hp]].
    + destruct s as [| b s]; [discriminate |].
      change (Z.opp <$> digits_value 0 (String b s) = Some z) in Hs.
      destruct (digits_value 0 (String b s)) as [v |] eqn:Hv; [| discriminate].
      injection Hs as <-. apply parse_minus.
      destruct (digits_value_decimal _ EmptyString 0 v (or_introl (conj eq_refl eq_refl)) Hv)
        as [[? _] | Hd]; [discriminate | exact Hd].
    + destruct s as [| b s]; [discriminate |].
      change (digits_value 0 (String b s) = Some z) in Hs. apply parse_plus.
      destruct (digits_value_decimal _ EmptyString 0 z (or_introl (conj eq_refl eq_refl)) Hs)
        as [[? _] | Hd]; [discriminate | exact Hd].
    + rewrite numeral_value_other in Hs by assumption. apply parse_digits.
      destruct (digits_value_decimal _ EmptyString 0 z (or_introl (conj eq_refl eq_refl)) Hs)
        as [[? _] | Hd]; [discriminate | exact Hd].
  - intros [t v Hd | t v Hd | t v Hd].
    + destruct (decimal_digits_value t v Hd) as [Hv Hne].
      destruct t as [| a t]; [congruence |].
      simpl in Hv. destruct (digit_of a) as [d |] eqn:Ha; [| discriminate].
      rewrite (numeral_value_unsigned a t d Ha). simpl. now rewrite Ha.
    + destruct (decimal_digits_value t v Hd) as [Hv Hne].
      destruct t as [| a t]; [congruence |]. exact Hv.
    + destruct (decimal_digits_value t v Hd) as [Hv Hne].
      destruct t as [| a t]; [congruence |].
      change (Z.opp <$> digits_value 0 (String a t) = Some (- v)). now rewrite Hv.
Qed.

Lemma numeral_value_unparsable (s : string) :
  numeral_value s = None <-> unparsable s.
Proof.
  split.
  - intros Hs z Hz. apply numeral_value_parses in Hz. congruence.
  - intros Hu. destruct (numeral_value s) as [z |] eqn:Hs; [| reflexivity].
    apply numeral_value_parses in Hs. now apply Hu in Hs.
Qed.

(** C5: the coercions of a stored cell.  An integer read as a float is
    [(float)v], the binary64 number nearest to [v].  A float read as an
    integer is its truncation toward zero when that truncation is an
    INTVAL, and a read that returns never returns anything else.  The text
    ["42"] read as an integer is 42 and every text that writes an integer in
    range reads as that integer; the text ["abc"] and every other text that
    does not parse read as 0.  A null string read as an integer is 0 and as a
    float is 0.0.  No coercion changes the memory. *)
Theorem autobox_coercion_table
  (v : INTVAL) (n : FLOATVAL) (z : INTVAL) (s42 sabc sn su : ptr) (zn : Z) (m : Mem) :
  in_INTVAL v = true ->
  truncation_toward_zero n z -> in_INTVAL z = true ->
  s42 <> NULL -> string_text s42 = "42"%string ->
  sabc <> NULL -> string_text sabc = "abc"%string ->
  sn <> NULL -> parses_as_integer (string_text sn) zn -> in_INTVAL zn = true ->
  su <> NULL -> unparsable (string_text su) ->
  (exists f : FLOATVAL,
     autobox_floatval (INTCELL v) m = Ok (f, m) /\ float_of_integer v f)
  /\ autobox_intval (FLOATCELL n) m = Ok (z, m)
  /\ (forall (n' : FLOATVAL) (z' : INTVAL) (m' : Mem),
        autobox_intval (FLOATCELL n') m = Ok (z', m') ->
        truncation_toward_zero n' z' /\ in_INTVAL z' = true /\ m' = m)
  /\ autobox_intval (STRINGCELL s42) m = Ok (42, m)
  /\ autobox_intval (STRINGCELL sabc) m = Ok (0, m)
  /\ autobox_intval (STRINGCELL sn) m = Ok (zn, m)
  /\ autobox_intval (STRINGCELL su) m = Ok (0, m)
  /\ autobox_intval (STRINGCELL NULL) m = Ok (0, m)
  /\ autobox_floatval (STRINGCELL NULL) m = Ok (S754_zero false, m).
Proof.
  intros Hv Hn Hz H42 T42 Habc Tabc Hsn Tn Hzn Hsu Tu.
  split.
  { exists (FLOATVAL_of_INTVAL v). split; [reflexivity |].
    now apply FLOATVAL_of_INTVAL_nearest. }
  split.
  { unfold autobox_intval, INTVAL_of_FLOATVAL.
    now rewrite (truncation_toward_zero_trunc n z Hn), Hz. }
  split.
  { intros n' z' m' Hr. unfold autobox_intval, INTVAL_of_FLOATVAL in Hr.
    destruct (FLOATVAL_trunc n') as [t |] eqn:Ht; [| discriminate].
    destruct (in_INTVAL t) eqn:Hin; [| discriminate].
    injection Hr as <- <-.
    split; [now apply FLOATVAL_trunc_toward_zero | now split]. }
  split.
  { unfold autobox_intval, ret, Parrot_str_to_int.
    rewrite bool_decide_eq_true_2 by assumption. now rewrite T42. }
  split.
  { unfold autobox_intval, ret, Parrot_str_to_int.
    rewrite bool_decide_eq_true_2 by assumption. now rewrite Tabc. }
  split.
  { unfold autobox_intval, ret, Parrot_str_to_int.
    rewrite bool_decide_eq_true_2 by assumption.
    apply numeral_value_parses in Tn. rewrite Tn.
    unfold in_INTVAL in Hzn. apply andb_true_iff in Hzn as [Hlo Hhi].
    apply Z.leb_le in Hlo, Hhi. unfold wrap, INTVAL_MIN, INTVAL_MAX in *.
    rewrite Z.mod_small by lia. do 2 f_equal. lia. }
  split.
  { unfold autobox_intval, ret, Parrot_str_to_int.
    rewrite bool_decide_eq_true_2 by assumption.
    apply numeral_value_unparsable in Tu. now rewrite Tu. }
  split; reflexivity.
Qed.
(** ** The positional store *)

Lemma fresh_ptr_spec (m : Mem) :
  fresh_ptr m <> NULL /\ cells m !! fresh_ptr m = None /\ tables m !! fresh_ptr m = None.
Proof.
  pose proof (is_fresh (used_addresses m)) as Hf.
  fold (fresh_ptr m) in Hf. unfold used_addresses in Hf.
  repeat split.
  - intros E. apply Hf. rewrite E. set_solver.
  - apply not_elem_of_dom. set_solver.
  - apply not_elem_of_dom. set_solver.
Qed.

Lemma raw_storage_cells (n : Z) :
  0 <= n < 2 ^ 60 ->
  raw_storage (to_size_t (n * sizeof_Pcc_cell)) = replicate (Z.to_nat n) NOCELL.
Proof.
  intros Hn. unfold raw_storage, to_size_t, sizeof_Pcc_cell.
  rewrite Z.mod_small by lia. now rewrite Z.div_mul by lia.
Qed.

Lemma set_cells_same (m : Mem) : set_cells (cells m) m = m.
Proof. now destruct m. Qed.

Lemma memcpy_Ok (dest src : ptr) (n : Z) (ls ld : list Pcc_cell) (m : Mem) :
  cells m !! src = Some ls -> cells m !! dest = Some ld ->
  0 <= n < 2 ^ 60 ->
  n <= Z.of_nat (length ls) -> n <= Z.of_nat (length ld) ->
  memcpy dest src (to_size_t (n * sizeof_Pcc_cell)) m =
    Ok (tt, set_cells (<[dest := take (Z.to_nat n) ls ++ drop (Z.to_nat n) ld]> (cells m)) m).
Proof.
  intros Hs Hd Hn Hls Hld. unfold memcpy, to_size_t, sizeof_Pcc_cell.
  rewrite Z.mod_small by lia.
  destruct (Z.eqb_spec (n * 16) 0) as [E | E].
  - assert (n = 0) as -> by lia. simpl.
    rewrite insert_id by (now rewrite drop_0).
    now rewrite set_cells_same.
  - rewrite Hs, Hd, Z.div_mul by lia.
    destruct (Nat.leb_spec (Z.to_nat n) (length ls)); [| lia].
    destruct (Nat.leb_spec (Z.to_nat n) (length ld)); [| lia].
    reflexivity.
Qed.

Lemma wrap_small (z : Z) : INTVAL_MIN <= z <= INTVAL_MAX -> wrap z = z.
Proof.
  unfold wrap, INTVAL_MIN, INTVAL_MAX. intros Hz.
  rewrite Z.mod_small by lia. lia.
Qed.

Lemma storage_ok_inv (m : Mem) (self : Parrot_Signature) :
  storage_ok m self = true ->
  0 <= num_positionals self <= allocated_positionals self
  /\ allocated_positionals self < 2 ^ 59
  /\ ((positionals self = NULL /\ allocated_positionals self = 0)
      \/ (positionals self <> NULL /\
          exists l, cells m !! positionals self = Some l
                    /\ Z.of_nat (length l) = allocated_positionals self)).
Proof.
  unfold storage_ok. rewrite !andb_true_iff.
  intros [[[H0 H1] H2] H3].
  apply Z.leb_le in H0. apply Z.leb_le in H1. apply Z.ltb_lt in H2.
  repeat split; try assumption.
  case_bool_decide as Hp.
  - left. split; [assumption | now apply Z.eqb_eq].
  - right. split; [assumption |].
    destruct (cells m !! positionals self) as [l |]; [| discriminate].
    exists l. split; [reflexivity | now apply Z.eqb_eq].
Qed.

Lemma storage_ok_intro (m : Mem) (self : Parrot_Signature) (l : list Pcc_cell) :
  0 <= num_positionals self <= allocated_positionals self ->
  allocated_positionals self < 2 ^ 59 ->
  positionals self <> NULL ->
  cells m !! positionals self = Some l ->
  Z.of_nat (length l) = allocated_positionals self ->
  storage_ok m self = true.
Proof.
  intros Hn Ha Hp Hl Hlen. unfold storage_ok.
  rewrite bool_decide_eq_false_2 by assumption. rewrite Hl.
  rewrite !andb_true_iff. repeat split.
  - apply Z.leb_le. lia.
  - apply Z.leb_le. lia.
  - now apply Z.ltb_lt.
  - now apply Z.eqb_eq.
Qed.

Lemma set_fields_same (self : Parrot_Signature) :
  set_positionals (positionals self)
    (set_allocated_positionals (allocated_positionals self) self) = self.
Proof. now destruct self. Qed.

(** Enough capacity: nothing happens. *)
Lemma ensure_enough (self : Parrot_Signature) (size : INTVAL) (m : Mem) :
  size <= allocated_positionals self ->
  ensure_positionals_storage self size m = Ok (self, m).
Proof.
  intros Hs. unfold ensure_positionals_storage.
  destruct (Z.leb_spec size (allocated_positionals self)); [reflexivity | lia].
Qed.

(** Growth: a fresh block of [max 8 size] cells receives the live cells, and
    the old block, if there is one, is released. *)
Lemma ensure_grow (self : Parrot_Signature) (m : Mem) :
  storage_ok m self = true ->
  allocated_positionals self < num_positionals self + 1 < 2 ^ 59 ->
  let p := fresh_ptr m in
  let a := Z.max 8 (num_positionals self + 1) in
  exists m',
    ensure_positionals_storage self (num_positionals self + 1) m =
      Ok (set_positionals p (set_allocated_positionals a self), m')
    /\ cells m' !! p =
         Some (live_cells m self
               ++ replicate (Z.to_nat (a - num_positionals self)) NOCELL)
    /\ (forall q, q <> p -> q <> positionals self -> cells m' !! q = cells m !! q)
    /\ tables m' = tables m
    /\ gc_log m' = gc_log m ++ growth_events self a p.
Proof.
  intros Hok Hsz p a.
  destruct (storage_ok_inv _ _ Hok) as (Hn & Ha & Hst).
  destruct (fresh_ptr_spec m) as (Hp0 & Hpc & Hpt). fold p in Hp0, Hpc, Hpt.
  assert (Hnum : num_positionals self = allocated_positionals self) by lia.
  unfold ensure_positionals_storage.
  destruct (Z.leb_spec (num_positionals self + 1) (allocated_positionals self)); [lia |].
  assert (Ea : (if num_positionals self + 1 <? 8 then 8 else num_positionals self + 1) = a).
  { unfold a. destruct (Z.ltb_spec (num_positionals self + 1) 8); lia. }
  rewrite Ea.
  assert (Hraw : raw_storage (to_size_t (a * sizeof_Pcc_cell))
                 = replicate (Z.to_nat a) NOCELL).
  { apply raw_storage_cells. unfold a. lia. }
  assert (Hsz16 : to_size_t (a * sizeof_Pcc_cell) = a * sizeof_Pcc_cell).
  { unfold to_size_t, sizeof_Pcc_cell. apply Z.mod_small. unfold a. lia. }
  set (ev := if 8 <? a then AllocChunk (a * sizeof_Pcc_cell) p
             else AllocFixed (a * sizeof_Pcc_cell) p).
  set (m1 := log_event ev
               (set_cells (<[p := replicate (Z.to_nat a) NOCELL]> (cells m)) m)).
  assert (Halloc :
    (if 8 <? a
     then Parrot_gc_allocate_memory_chunk (to_size_t (a * sizeof_Pcc_cell))
     else Parrot_gc_allocate_fixed_size_storage (to_size_t (a * sizeof_Pcc_cell))) m
    = Ok (p, m1)).
  { unfold m1, ev. destruct (8 <? a);
      unfold Parrot_gc_allocate_memory_chunk, Parrot_gc_allocate_fixed_size_storage;
      fold p; now rewrite Hraw, Hsz16. }
  rewrite (bind_Ok _ _ _ _ _ Halloc). cbv beta.
  destruct Hst as [[Hnull Ha0] | [Hnn (l & Hl & Hlen)]].
  - (* no array yet *)
    rewrite bool_decide_eq_false_2 by (intros E; now apply E).
    exists m1. split; [reflexivity |].
    assert (Hn0 : num_positionals self = 0) by lia.
    split.
    { unfold m1. simpl. rewrite lookup_insert_eq. unfold live_cells.
      rewrite Hn0, Z.sub_0_r. simpl (Z.to_nat 0).
      destruct (cells m !! positionals self); now rewrite ?take_0. }
    split.
    { intros q Hq _. unfold m1. simpl. now rewrite lookup_insert_ne. }
    split; [reflexivity |].
    unfold m1, growth_events. simpl.
    now rewrite bool_decide_eq_false_2 by (intros E; now apply E).
  - (* copy and release *)
    rewrite bool_decide_eq_true_2 by assumption.
    assert (Hne : positionals self <> p).
    { intros E. rewrite E in Hl. congruence. }
    assert (Hm1old : cells m1 !! positionals self = Some l).
    { unfold m1. simpl. now rewrite lookup_insert_ne. }
    assert (Hm1new : cells m1 !! p = Some (replicate (Z.to_nat a) NOCELL)).
    { unfold m1. simpl. now rewrite lookup_insert_eq. }
    assert (Hcopy := memcpy_Ok p (positionals self) (num_positionals self) _ _ m1
                       Hm1old Hm1new ltac:(lia) ltac:(lia)
                       ltac:(rewrite length_replicate; unfold a; lia)).
    set (moved := take (Z.to_nat (num_positionals self)) l
                  ++ drop (Z.to_nat (num_positionals self))
                          (replicate (Z.to_nat a) NOCELL)) in Hcopy.
    set (m2 := set_cells (<[p := moved]> (cells m1)) m1) in Hcopy.
    assert (Hm2old : cells m2 !! positionals self = Some l).
    { unfold m2. simpl. now rewrite lookup_insert_ne. }
    set (fev := if 8 <? allocated_positionals self
                then FreeChunk (positionals self)
                else FreeFixed (allocated_positionals self * sizeof_Pcc_cell)
                               (positionals self)).
    set (m3 := log_event fev (set_cells (delete (positionals self) (cells m2)) m2)).
    assert (Hfree :
      (if 8 <? allocated_positionals self
       then Parrot_gc_free_memory_chunk (positionals self)
       else Parrot_gc_free_fixed_size_storage
              (to_size_t (allocated_positionals self * sizeof_Pcc_cell))
              (positionals self)) m2 = Ok (tt, m3)).
    { unfold m3, fev. destruct (8 <? allocated_positionals self);
        unfold Parrot_gc_free_memory_chunk, Parrot_gc_free_fixed_size_storage;
        rewrite Hm2old; [reflexivity |].
      unfold to_size_t, sizeof_Pcc_cell. now rewrite Z.mod_small by lia. }
    exists m3. split.
    { rewrite (bind_Ok _ _ m1 tt m3); [reflexivity |].
      now rewrite (bind_Ok _ _ m1 tt m2 Hcopy). }
    split.
    { unfold m3, m2. simpl. rewrite lookup_delete_ne by assumption.
      rewrite lookup_insert_eq. unfold moved, live_cells. rewrite Hl.
      f_equal. f_equal. rewrite drop_replicate. f_equal. lia. }
    split.
    { intros q Hq Hq'. unfold m3, m2, m1. simpl.
      rewrite lookup_delete_ne by congruence.
      now rewrite !lookup_insert_ne by congruence. }
    split; [reflexivity |].
    unfold m3, m2, m1, growth_events. simpl.
    rewrite bool_decide_eq_true_2 by assumption.
    now rewrite <- app_assoc.
Qed.

(** After [ensure_positionals_storage (self, count + 1)] the slot at index
    [count] exists, and the live cells are where they were. *)
Lemma ensure_next_slot (self : Parrot_Signature) (m : Mem) :
  storage_ok m self = true ->
  num_positionals self + 1 < 2 ^ 59 ->
  let p := next_array m self in
  let a := next_capacity self in
  exists m1 l1,
    ensure_positionals_storage self (wrap (num_positionals self + 1)) m =
      Ok (set_positionals p (set_allocated_positionals a self), m1)
    /\ p <> NULL
    /\ cells m1 !! p = Some l1
    /\ Z.of_nat (length l1) = a
    /\ num_positionals self < a < 2 ^ 59
    /\ take (Z.to_nat (num_positionals self)) l1 = live_cells m self
    /\ (forall q, q <> p -> q <> positionals self -> cells m1 !! q = cells m !! q)
    /\ tables m1 = tables m
    /\ gc_log m1 = gc_log m ++
         (if num_positionals self + 1 <=? allocated_positionals self then []
          else growth_events self (Z.max 8 (num_positionals self + 1)) (fresh_ptr m)).
Proof.
  intros Hok Hsz. unfold next_array, next_capacity.
  destruct (storage_ok_inv _ _ Hok) as (Hn & Ha & Hst).
  rewrite wrap_small by (unfold INTVAL_MIN, INTVAL_MAX; lia).
  destruct (Z.leb_spec (num_positionals self + 1) (allocated_positionals self)) as [Hle | Hgt].
  - destruct Hst as [[_ Ha0] | [Hnn (l & Hl & Hlen)]]; [lia |].
    exists m, l.
    rewrite set_fields_same, ensure_enough by assumption.
    split; [reflexivity |]. split; [assumption |]. split; [assumption |].
    split; [assumption |]. split; [lia |].
    split; [unfold live_cells; now rewrite Hl |].
    split; [reflexivity |]. split; [reflexivity |]. now rewrite app_nil_r.
  - destruct (ensure_grow self m Hok ltac:(lia)) as (m1 & Hrun & Hcell & Hframe & Htab & Hlog).
    destruct (fresh_ptr_spec m) as (Hp0 & _ & _).
    assert (Hlive : length (live_cells m self) = Z.to_nat (num_positionals self)).
    { unfold live_cells.
      destruct Hst as [[_ Ha0] | [Hnn (l & Hl & Hlen)]].
      - assert (E : num_positionals self = 0) by lia. rewrite E.
        destruct (cells m !! positionals self); now rewrite ?take_0.
      - rewrite Hl, length_take. lia. }
    eexists m1, _. split; [exact Hrun |].
    split; [assumption |]. split; [exact Hcell |].
    split; [rewrite length_app, length_replicate, Hlive; lia |].
    split; [lia |].
    split; [now rewrite take_app_length' by (symmetry; exact Hlive) |].
    split; [assumption |]. split; assumption.
Qed.

(** The common tail of the four positional pushes. *)
Lemma push_tail (c : Pcc_cell) (self : Parrot_Signature) (m : Mem) :
  storage_ok m self = true ->
  num_positionals self + 1 < 2 ^ 59 ->
  exists self' m',
    (let* self0 := ensure_positionals_storage self (wrap (num_positionals self + 1)) in
     store_cell (positionals self0) (num_positionals self) c >>
     ret (set_num_positionals (wrap (num_positionals self0 + 1)) self0)) m
    = Ok (self', m')
    /\ appended m self c m' self'.
Proof.
  intros Hok Hsz.
  destruct (storage_ok_inv _ _ Hok) as (Hn & Ha & _).
  destruct (ensure_next_slot self m Hok Hsz)
    as (m1 & l1 & Hrun & Hp & Hl1 & Hlen & Hbound & Htake & Hframe & Htab & Hlog).
  set (p := next_array m self) in *. set (a := next_capacity self) in *.
  set (self1 := set_positionals p (set_allocated_positionals a self)) in *.
  set (n := num_positionals self) in *.
  assert (Hstore := store_cell_Ok p n l1 c m1 Hl1 ltac:(lia)).
  set (m2 := set_cells (<[p := <[Z.to_nat n := c]> l1]> (cells m1)) m1) in Hstore.
  exists (set_num_positionals (n + 1) self1), m2. split.
  { rewrite (bind_Ok _ _ _ _ _ Hrun). cbv beta.
    change (positionals self1) with p.
    rewrite (bind_Ok _ _ _ _ _ Hstore). cbv beta.
    change (num_positionals self1) with n.
    now rewrite wrap_small by (unfold INTVAL_MIN, INTVAL_MAX; lia). }
  assert (Hcell : cells m2 !! p = Some (<[Z.to_nat n := c]> l1)).
  { unfold m2. simpl. now rewrite lookup_insert_eq. }
  unfold appended. split.
  { apply (storage_ok_intro m2 _ (<[Z.to_nat n := c]> l1)); simpl; try assumption.
    - fold n. lia.
    - lia.
    - rewrite length_insert. lia. }
  split; [reflexivity |]. split.
  { unfold live_cells.
    change (positionals (set_num_positionals (n + 1) self1)) with p.
    change (num_positionals (set_num_positionals (n + 1) self1)) with (n + 1).
    rewrite Hcell.
    replace (Z.to_nat (n + 1)) with (S (Z.to_nat n)) by lia.
    rewrite (take_S_r _ _ c) by (apply list_lookup_insert_eq; lia).
    rewrite take_insert_ge by lia. now rewrite Htake. }
  split; [reflexivity |]. split; [reflexivity |].
  split; [now repeat split |]. split; [exact Htab |]. split.
  { intros q Hq Hq'. simpl in Hq'. unfold m2. simpl.
    rewrite lookup_insert_ne by congruence. apply Hframe; congruence. }
  exact Hlog.
Qed.

Lemma live_cells_length (m : Mem) (self : Parrot_Signature) :
  storage_ok m self = true ->
  length (live_cells m self) = Z.to_nat (num_positionals self).
Proof.
  intros Hok. unfold live_cells.
  destruct (storage_ok_inv _ _ Hok) as (Hn & _ & [[_ E] | [_ (l & Hl & Hlen)]]).
  - assert (E0 : num_positionals self = 0) by lia. rewrite E0.
    destruct (cells m !! positionals self); now rewrite ?take_0.
  - rewrite Hl, length_take. lia.
Qed.


(** ** Pushing and reading back *)

Lemma live_cells_lookup (m : Mem) (self : Parrot_Signature) (i : Z) (c : Pcc_cell) :
  0 <= i -> live_cells m self !! Z.to_nat i = Some c ->
  i < num_positionals self /\ load_cell (positionals self) i m = Ok (c, m).
Proof.
  intros Hi. unfold live_cells.
  destruct (cells m !! positionals self) as [l |] eqn:Hl; [| discriminate].
  intros Hc. apply lookup_take_Some in Hc as [Hc Hlt].
  split; [lia |]. now apply (load_cell_Ok _ _ l).
Qed.

(** An index that holds a live cell is read through the coercion of that
    cell. *)
Lemma get_live (m : Mem) (self : Parrot_Signature) (i : Z) (c : Pcc_cell) :
  0 <= i -> live_cells m self !! Z.to_nat i = Some c ->
  Parrot_pcc_signature_get_integer self i m = autobox_intval c m
  /\ Parrot_pcc_signature_get_number self i m = autobox_floatval c m
  /\ Parrot_pcc_signature_get_string self i m = autobox_string c m
  /\ Parrot_pcc_signature_get_pmc self i m = autobox_pmc c m.
Proof.
  intros Hi Hc. destruct (live_cells_lookup m self i c Hi Hc) as [Hlt Hload].
  unfold Parrot_pcc_signature_get_integer, Parrot_pcc_signature_get_number,
    Parrot_pcc_signature_get_string, Parrot_pcc_signature_get_pmc.
  rewrite in_range_test by lia.
  now rewrite !(bind_Ok _ _ _ _ _ Hload).
Qed.

(** Read with the getter of its own kind, a cell gives back what was pushed. *)
Lemma get_native_live (m : Mem) (self : Parrot_Signature) (i : Z) (op : push_op) :
  0 <= i -> live_cells m self !! Z.to_nat i = Some (cell_of_push op) ->
  get_native self i op m = Ok (op, m).
Proof.
  intros Hi Hc. destruct (get_live m self i _ Hi Hc) as (Hgi & Hgn & Hgs & Hgp).
  destruct op; unfold get_native, bind;
    rewrite ?Hgi, ?Hgn, ?Hgs, ?Hgp; reflexivity.
Qed.

Lemma run_push_appends (self : Parrot_Signature) (op : push_op) (m : Mem) :
  push_allowed op = true ->
  storage_ok m self = true ->
  num_positionals self + 1 < 2 ^ 59 ->
  exists self' m',
    run_push self op m = Ok (self', m')
    /\ appended m self (cell_of_push op) m' self'.
Proof.
  intros Hal Hok Hsz.
  destruct op as [v | n | s | p]; simpl in *;
    try exact (push_tail _ self m Hok Hsz).
  unfold Parrot_pcc_signature_push_pmc.
  apply negb_true_iff in Hal. rewrite Hal. simpl.
  exact (push_tail (PMCCELL p) self m Hok Hsz).
Qed.

(** C9: an object reference that is on the free list is not stored: the push
    aborts on its assertion.  An object reference that is not on the free
    list is appended: the push returns, the count is one more, and the
    object read back at the new index is the reference that was pushed. *)
Theorem push_pmc_dead_or_live
  (self : Parrot_Signature) (dead live : ptr) (m : Mem) :
  PObj_on_free_list_TEST dead = true ->
  PObj_on_free_list_TEST live = false ->
  storage_ok m self = true ->
  num_positionals self + 1 < 2 ^ 59 ->
  Parrot_pcc_signature_push_pmc self dead m = Abort "Push dead object into CallContext!"
  /\ exists self' m',
       Parrot_pcc_signature_push_pmc self live m = Ok (self', m')
       /\ appended m self (PMCCELL live) m' self'
       /\ Parrot_pcc_signature_get_pmc self' (num_positionals self) m' = Ok (live, m').
Proof.
  intros Hdead Hlive Hok Hsz. split.
  - unfold Parrot_pcc_signature_push_pmc. now rewrite Hdead.
  - destruct (run_push_appends self (PushPMC live) m) as (self' & m' & Hrun & Happ);
      [simpl; now rewrite Hlive | assumption | assumption |].
    exists self', m'. split; [exact Hrun |]. split; [exact Happ |].
    destruct (storage_ok_inv _ _ Hok) as (Hn & _ & _).
    destruct Happ as (_ & _ & Hcells & _).
    pose proof (live_cells_length m self Hok) as Hlen.
    destruct (get_live m' self' (num_positionals self) (PMCCELL live)) as (_ & _ & _ & Hg);
      [lia | | exact Hg].
    rewrite Hcells, <- Hlen. now rewrite list_lookup_middle.
Qed.

(** A run of allowed pushes appends its cells in order. *)
Lemma run_pushes_appends (ops : list push_op) :
  forall (self : Parrot_Signature) (m : Mem),
    Forall (fun op => push_allowed op = true) ops ->
    storage_ok m self = true ->
    num_positionals self + Z.of_nat (length ops) < 2 ^ 59 ->
    exists self' m',
      run_pushes self ops m = Ok (self', m')
      /\ storage_ok m' self' = true
      /\ num_positionals self' = num_positionals self + Z.of_nat (length ops)
      /\ live_cells m' self' = live_cells m self ++ map cell_of_push ops.
Proof.
  induction ops as [| op ops IH]; intros self m Hall Hok Hsz.
  - exists self, m. simpl. rewrite app_nil_r.
    split; [reflexivity |]. split; [assumption |]. split; [lia | reflexivity].
  - apply Forall_cons in Hall as [Hop Hall]. simpl length in Hsz.
    destruct (run_push_appends self op m Hop Hok ltac:(lia))
      as (self1 & m1 & Hrun & Hok1 & Hn1 & Hl1 & _).
    destruct (IH self1 m1 Hall Hok1 ltac:(lia))
      as (self' & m' & Hruns & Hok' & Hn' & Hl').
    exists self', m'. split.
    { simpl. now rewrite (bind_Ok _ _ _ _ _ Hrun). }
    split; [assumption |]. split; [simpl length; lia |].
    rewrite Hl', Hl1. simpl. now rewrite <- app_assoc.
Qed.

Lemma storage_ok_zeroed (m : Mem) : storage_ok m (memset_Parrot_Signature 0) = true.
Proof. reflexivity. Qed.

Lemma live_cells_zeroed (m : Mem) : live_cells m (memset_Parrot_Signature 0) = [].
Proof.
  unfold live_cells. simpl.
  destruct (cells m !! _); [apply take_0 | reflexivity].
Qed.

(** From an aggregate whose members are all zero, [N] allowed pushes of any
    mix of kinds leave a count of [N], and each index read with the getter
    of its kind gives back the value pushed there. *)
Lemma pushes_onto_zeroed (ops : list push_op) (m : Mem) :
  Forall (fun op => push_allowed op = true) ops ->
  Z.of_nat (length ops) < 2 ^ 59 ->
  exists self' m',
    run_pushes (memset_Parrot_Signature 0) ops m = Ok (self', m')
    /\ Parrot_pcc_signature_num_positionals self' = Z.of_nat (length ops)
    /\ forall (i : nat) (op : push_op),
         ops !! i = Some op -> get_native self' (Z.of_nat i) op m' = Ok (op, m').
Proof.
  intros Hall Hlen.
  destruct (run_pushes_appends ops _ m Hall (storage_ok_zeroed m))
    as (self' & m' & Hrun & Hok & Hn & Hl).
  { change (num_positionals (memset_Parrot_Signature 0)) with 0. lia. }
  change (num_positionals (memset_Parrot_Signature 0)) with 0 in Hn.
  exists self', m'. split; [exact Hrun |]. split; [exact Hn |].
  intros i op Hi. apply get_native_live; [lia |].
  rewrite Nat2Z.id, Hl, live_cells_zeroed. simpl.
  now rewrite list_lookup_fmap, Hi.
Qed.

(** ** A signature as [Parrot_pcc_signature_new] returns it *)

(** The first push onto such a signature, in a memory that holds nothing
    else: the copy of the live cells reads from the array pointer
    [Parrot_pcc_signature_new] left, where no array is. *)
Lemma push_after_new (op : push_op) :
  push_allowed op = true ->
  exists sig m1,
    Parrot_pcc_signature_new empty_mem = Ok (sig, m1)
    /\ cells m1 !! positionals sig = None
    /\ run_push sig op m1 = Fault.
Proof.
  intros Hop. eexists _, _. split; [reflexivity |]. split; [reflexivity |].
  destruct op as [v | n | s | p].
  - reflexivity.
  - reflexivity.
  - reflexivity.
  - unfold push_allowed in Hop. unfold run_push, Parrot_pcc_signature_push_pmc.
    rewrite Hop. reflexivity.
Qed.

(** C1: on the signature that [Parrot_pcc_signature_new] returns the count
    is 0x0101010101010101 before any push, not 0; and a run of one or more
    pushes does not return: its first push already fails. *)
Theorem count_of_new_signature (m : Mem) (op : push_op) (ops : list push_op) :
  push_allowed op = true ->
  (exists m',
     (let* sig := Parrot_pcc_signature_new in
      let* sig := run_pushes sig [] in
      ret (Parrot_pcc_signature_num_positionals sig)) m
     = Ok (72340172838076673, m'))
  /\ (let* sig := Parrot_pcc_signature_new in run_pushes sig (op :: ops)) empty_mem
     = Fault.
Proof.
  intros Hop. split; [eexists; reflexivity |].
  destruct (push_after_new op Hop) as (sig & m1 & Hnew & _ & Hpush).
  rewrite (bind_Ok _ _ _ _ _ Hnew). cbv beta.
  simpl run_pushes. unfold bind at 1. now rewrite Hpush.
Qed.

(** C8: the first push onto the signature that [Parrot_pcc_signature_new]
    returns asks for one more cell than a count of 0x0101010101010101: more
    than the recorded capacity, so the array must grow, and more than 8, so
    the growth goes to the chunk allocator and not to the fixed-size pool;
    the array to copy from is no allocated block, and the push fails. *)
Theorem first_push_on_new_signature (op : push_op) :
  push_allowed op = true ->
  exists sig m1,
    Parrot_pcc_signature_new empty_mem = Ok (sig, m1)
    /\ (wrap (num_positionals sig + 1) <=? allocated_positionals sig) = false
    /\ (8 <? wrap (num_positionals sig + 1)) = true
    /\ positionals sig <> NULL
    /\ cells m1 !! positionals sig = None
    /\ (let* sig := Parrot_pcc_signature_new in run_push sig op) empty_mem = Fault.
Proof.
  intros Hop.
  destruct (push_after_new op Hop) as (sig & m1 & Hnew & Hcells & Hpush).
  exists sig, m1. split; [exact Hnew |].
  assert (Hsig : sig = memset_Parrot_Signature 1) by (now injection Hnew).
  split; [now rewrite Hsig |]. split; [now rewrite Hsig |].
  split; [now rewrite Hsig |]. split; [exact Hcells |].
  now rewrite (bind_Ok _ _ _ _ _ Hnew).
Qed.

(** ** Growth of the positional array *)

(** Pushes that fit the capacity ask nothing of the collector and keep the
    array where it is. *)
Lemma run_pushes_within_capacity (ops : list push_op) :
  forall (self : Parrot_Signature) (m : Mem),
    Forall (fun op => push_allowed op = true) ops ->
    storage_ok m self = true ->
    num_positionals self + Z.of_nat (length ops) <= allocated_positionals self ->
    exists self' m',
      run_pushes self ops m = Ok (self', m')
      /\ storage_ok m' self' = true
      /\ num_positionals self' = num_positionals self + Z.of_nat (length ops)
      /\ positionals self' = positionals self
      /\ allocated_positionals self' = allocated_positionals self
      /\ gc_log m' = gc_log m
      /\ live_cells m' self' = live_cells m self ++ map cell_of_push ops.
Proof.
  induction ops as [| op ops IH]; intros self m Hall Hok Hsz.
  - exists self, m. simpl. rewrite app_nil_r.
    split; [reflexivity |]. split; [assumption |]. split; [lia |].
    repeat split.
  - apply Forall_cons in Hall as [Hop Hall]. simpl length in Hsz.
    destruct (storage_ok_inv _ _ Hok) as (_ & Ha & _).
    destruct (run_push_appends self op m Hop Hok ltac:(lia))
      as (self1 & m1 & Hrun & Hok1 & Hn1 & Hl1 & Hp1 & Ha1 & _ & _ & _ & Hlog1).
    unfold next_array in Hp1. unfold next_capacity in Ha1.
    destruct (Z.leb_spec (num_positionals self + 1) (allocated_positionals self));
      [| lia].
    destruct (IH self1 m1 Hall Hok1 ltac:(lia))
      as (self' & m' & Hruns & Hok' & Hn' & Hp' & Ha' & Hlog' & Hl').
    exists self', m'. split.
    { simpl. now rewrite (bind_Ok _ _ _ _ _ Hrun). }
    split; [assumption |]. split; [simpl length; lia |].
    split; [congruence |]. split; [congruence |].
    split; [rewrite Hlog', Hlog1; apply app_nil_r |].
    rewrite Hl', Hl1. simpl. now rewrite <- app_assoc.
Qed.

(** X4: from an aggregate whose members are all zero, the first push takes 8
    cells from the fixed-size pool, the pushes up to the eighth ask for
    nothing more, and the ninth takes a chunk of 9 cells, into which the 8
    live cells are copied, and returns the pooled block. *)
Lemma growth_of_zeroed (ops : list push_op) (op9 : push_op) (m : Mem) :
  Forall (fun op => push_allowed op = true) ops ->
  push_allowed op9 = true ->
  (1 <= length ops <= 8)%nat ->
  exists s8 m8,
    run_pushes (memset_Parrot_Signature 0) ops m = Ok (s8, m8)
    /\ gc_log m8 = gc_log m ++ [AllocFixed (8 * sizeof_Pcc_cell) (fresh_ptr m)]
    /\ (length ops = 8%nat ->
        exists s9 m9,
          run_push s8 op9 m8 = Ok (s9, m9)
          /\ gc_log m9 = gc_log m8 ++ [AllocChunk (9 * sizeof_Pcc_cell) (fresh_ptr m8);
                                       FreeFixed (8 * sizeof_Pcc_cell) (fresh_ptr m)]
          /\ live_cells m9 s9 = live_cells m8 s8 ++ [cell_of_push op9]).
Proof.
  intros Hall Hop9 Hlen.
  destruct ops as [| op1 ops]; [simpl in Hlen; lia |].
  apply Forall_cons in Hall as [Hop1 Hall]. simpl length in Hlen.
  destruct (run_push_appends _ op1 m Hop1 (storage_ok_zeroed m))
    as (s1 & m1 & Hrun1 & Hok1 & Hn1 & _ & Hp1 & Ha1 & _ & _ & _ & Hlog1);
    [reflexivity |].
  change (next_array m (memset_Parrot_Signature 0)) with (fresh_ptr m) in Hp1.
  change (next_capacity (memset_Parrot_Signature 0)) with 8 in Ha1.
  change (num_positionals (memset_Parrot_Signature 0)) with 0 in Hn1.
  destruct (run_pushes_within_capacity ops s1 m1 Hall Hok1 ltac:(lia))
    as (s8 & m8 & Hruns & Hok8 & Hn8 & Hp8 & Ha8 & Hlog8 & _).
  exists s8, m8. split.
  { simpl. now rewrite (bind_Ok _ _ _ _ _ Hrun1). }
  split; [rewrite Hlog8; exact Hlog1 |].
  intros Hl8. simpl length in Hl8.
  destruct (fresh_ptr_spec m) as (Hnn & _ & _).
  destruct (run_push_appends s8 op9 m8 Hop9 Hok8 ltac:(lia))
    as (s9 & m9 & Hrun9 & _ & _ & Hl9 & _ & _ & _ & _ & _ & Hlog9).
  exists s9, m9. split; [exact Hrun9 |]. split; [| exact Hl9].
  rewrite Hlog9. f_equal.
  assert (E8 : num_positionals s8 = 8) by lia.
  unfold growth_events. rewrite E8, Ha8, Ha1, Hp8, Hp1.
  now rewrite bool_decide_eq_true_2 by assumption.
Qed.

(** ** The named store *)

(** X14: with no hash table, a named query answers with the zero of its type and
    leaves the memory as it was: nothing is allocated. *)
Lemma named_queries_on_absent_store (self : Parrot_Signature) (key : ptr) (m : Mem) :
  hash self = NULL ->
  Parrot_pcc_signature_get_integer_named self key m = Ok (0, m)
  /\ Parrot_pcc_signature_get_number_named self key m = Ok (S754_zero false, m)
  /\ Parrot_pcc_signature_get_string_named self key m = Ok (STRINGNULL, m)
  /\ Parrot_pcc_signature_get_pmc_named self key m = Ok (PMCNULL, m)
  /\ Parrot_pcc_signature_exists_named self key m = Ok (0, m).
Proof.
  intros Hh.
  unfold Parrot_pcc_signature_get_integer_named, Parrot_pcc_signature_get_number_named,
    Parrot_pcc_signature_get_string_named, Parrot_pcc_signature_get_pmc_named,
    Parrot_pcc_signature_exists_named.
  rewrite !bool_decide_eq_false_2 by (intros E; now apply E).
  repeat split.
Qed.

(** C3: on the signature that [Parrot_pcc_signature_new] returns, before any
    named write, the [hash] member is 0x0101010101010101, not null: every
    named query passes its guard and hands that address to the hash table
    functions, where no table is. *)
Theorem named_queries_on_new_signature (key : ptr) :
  (exists m', (let* sig := Parrot_pcc_signature_new in ret (hash sig)) empty_mem
              = Ok (72340172838076673, m'))
  /\ (let* sig := Parrot_pcc_signature_new in
      Parrot_pcc_signature_get_integer_named sig key) empty_mem = Fault
  /\ (let* sig := Parrot_pcc_signature_new in
      Parrot_pcc_signature_get_number_named sig key) empty_mem = Fault
  /\ (let* sig := Parrot_pcc_signature_new in
      Parrot_pcc_signature_get_string_named sig key) empty_mem = Fault
  /\ (let* sig := Parrot_pcc_signature_new in
      Parrot_pcc_signature_get_pmc_named sig key) empty_mem = Fault
  /\ (let* sig := Parrot_pcc_signature_new in
      Parrot_pcc_signature_exists_named sig key) empty_mem = Fault.
Proof.
  split; [eexists; reflexivity |]. repeat split.
Qed.

(** ** Cloning *)

(** C4: [Parrot_pcc_signature_clone] never hands a signature to its caller:
    whenever the call comes back, it comes back without a value. *)
Theorem clone_returns_no_signature
  (hash_ident : ptr) (self : Parrot_Signature) (m : Mem) :
  Parrot_pcc_signature_clone hash_ident self m = Fault
  \/ (exists msg, Parrot_pcc_signature_clone hash_ident self m = Abort msg)
  \/ (exists m', Parrot_pcc_signature_clone hash_ident self m = Ok (None, m')).
Proof.
  unfold Parrot_pcc_signature_clone, bind.
  destruct (clone_body hash_ident self m) as [[dest m'] | msg |].
  - right. right. now exists m'.
  - right. left. now exists msg.
  - now left.
Qed.

(** The [dest] the body builds for a source without positionals and without
    named store: its short signature is the interpreter, and its capacity
    and array are what [Parrot_pcc_signature_new] left there. *)
Lemma clone_body_of_empty (hash_ident : ptr) (self : Parrot_Signature) (m : Mem) :
  num_positionals self = 0 -> hash self = NULL ->
  exists dest m',
    clone_body hash_ident self m = Ok (dest, m')
    /\ short_sig dest = interp
    /\ allocated_positionals dest = 72340172838076673
    /\ positionals dest = 72340172838076673
    /\ hash dest = 72340172838076673.
Proof.
  intros Hn Hh. unfold clone_body.
  eexists _, _. split.
  - unfold bind at 1. simpl. rewrite Hn.
    rewrite bool_decide_eq_false_2 by (intros E; now apply E). reflexivity.
  - repeat split.
Qed.

(** A source with three positionals and one named parameter: the copy goes
    to the address [Parrot_pcc_signature_new] left in [dest]. *)
Lemma clone_of_sample_faults (hash_ident : ptr) :
  @Parrot_pcc_signature_clone Demo.host hash_ident Demo.sample_sig Demo.sample_mem
  = Fault.
Proof. reflexivity. Qed.

Lemma lookup_named (h k c : ptr) (b : Hash) (m : Mem) :
  tables m !! h = Some b -> find_bucket k b = Some c ->
  Parrot_hash_key_from_string h k m = Ok (k, m)
  /\ Parrot_hash_get h k m = Ok (c, m)
  /\ Parrot_hash_exists h k m = Ok (1, m).
Proof.
  intros Hh Hk.
  unfold Parrot_hash_key_from_string, Parrot_hash_get, Parrot_hash_exists, with_table.
  rewrite Hh, Hk. repeat split.
Qed.

(** The named queries on a key that is present read its cell. *)
Lemma named_queries_present
  (self : Parrot_Signature) (k c : ptr) (b : Hash) (x : Pcc_cell) (m : Mem) :
  hash self <> NULL -> tables m !! hash self = Some b ->
  find_bucket k b = Some c -> c <> NULL -> cells m !! c = Some [x] ->
  Parrot_pcc_signature_exists_named self k m = Ok (1, m)
  /\ Parrot_pcc_signature_get_integer_named self k m =
       match x with INTCELL i => Ok (i, m) | _ => autobox_intval x m end
  /\ Parrot_pcc_signature_get_number_named self k m = autobox_floatval x m
  /\ Parrot_pcc_signature_get_string_named self k m = autobox_string x m
  /\ Parrot_pcc_signature_get_pmc_named self k m =
       match x with PMCCELL p => Ok (p, m) | _ => autobox_pmc x m end.
Proof.
  intros Hh Hb Hk Hc Hx.
  destruct (lookup_named _ _ _ _ _ Hb Hk) as (Hkey & Hget & Hex).
  assert (Hload : load_cell c 0 m = Ok (x, m))
    by (apply (load_cell_Ok _ _ [x]); [assumption | lia | reflexivity]).
  unfold Parrot_pcc_signature_exists_named, Parrot_pcc_signature_get_integer_named,
    Parrot_pcc_signature_get_number_named, Parrot_pcc_signature_get_string_named,
    Parrot_pcc_signature_get_pmc_named.
  rewrite !bool_decide_eq_true_2 by assumption.
  rewrite !(bind_Ok _ _ _ _ _ Hkey). cbv beta.
  rewrite !(bind_Ok _ _ _ _ _ Hget). cbv beta.
  rewrite !bool_decide_eq_true_2 by assumption.
  rewrite !(bind_Ok _ _ _ _ _ Hload). cbv beta.
  split; [exact Hex |]. split; [now destruct x |].
  split; [reflexivity |]. split; [reflexivity |]. now destruct x.
Qed.

(** The cell of a present key is reused. *)
Lemma get_cell_named_present (self : Parrot_Signature) (k c : ptr) (b : Hash) (m : Mem) :
  tables m !! hash self = Some b -> find_bucket k b = Some c -> c <> NULL ->
  get_cell_named self k m = Ok (c, m).
Proof.
  intros Hb Hk Hc. destruct (lookup_named _ _ _ _ _ Hb Hk) as (_ & Hget & _).
  unfold get_cell_named. rewrite (bind_Ok _ _ _ _ _ Hget). cbv beta.
  now rewrite bool_decide_eq_false_2 by assumption.
Qed.

Lemma store_named_in_place
  (self : Parrot_Signature) (k c : ptr) (b : Hash) (old new : Pcc_cell) (m : Mem) :
  hash self <> NULL -> tables m !! hash self = Some b ->
  find_bucket k b = Some c -> c <> NULL -> cells m !! c = Some [old] ->
  length (named_entries k b) = 1%nat ->
  overwrites_in_place self k c new
    (let* cell := get_cell_named self k in store_cell cell 0 new) m.
Proof.
  intros Hh Hb Hk Hc Hold Hone.
  pose proof (get_cell_named_present self k c b m Hb Hk Hc) as Hcell.
  assert (Hstore := store_cell_Ok c 0 [old] new m Hold ltac:(simpl; lia)).
  simpl in Hstore.
  set (m' := set_cells (<[c := [new]]> (cells m)) m) in *.
  exists m'. split.
  { rewrite (bind_Ok _ _ _ _ _ Hcell). exact Hstore. }
  split; [reflexivity |]. split; [reflexivity |].
  split; [now exists b |]. split; [reflexivity |].
  apply (named_queries_present self k c b new m'); try assumption.
  unfold m'. simpl. apply lookup_insert_eq.
Qed.

(** C7: when key [k] is present in the named store, each of the four named
    pushes for [k] overwrites the cell of [k] in place: the table keeps its
    buckets, so it still has exactly one entry for [k]; the cell holds the
    value written last, which the named getters read back; and
    [exists_named] answers 1 before the push and after it, whatever the kind
    of the value. *)
Theorem named_push_overwrites
  (self : Parrot_Signature) (k c : ptr) (b : Hash) (old : Pcc_cell) (m : Mem)
  (vi : INTVAL) (vn : FLOATVAL) (vs vp : ptr) :
  hash self <> NULL ->
  tables m !! hash self = Some b ->
  find_bucket k b = Some c -> c <> NULL ->
  cells m !! c = Some [old] ->
  length (named_entries k b) = 1%nat ->
  Parrot_pcc_signature_exists_named self k m = Ok (1, m)
  /\ overwrites_in_place self k c (INTCELL vi)
       (Parrot_pcc_signature_push_integer_named self k vi) m
  /\ overwrites_in_place self k c (FLOATCELL vn)
       (Parrot_pcc_signature_push_number_named self k vn) m
  /\ overwrites_in_place self k c (STRINGCELL vs)
       (Parrot_pcc_signature_push_string_named self k vs) m
  /\ overwrites_in_place self k c (PMCCELL vp)
       (Parrot_pcc_signature_push_pmc_named self k vp) m.
Proof.
  intros Hh Hb Hk Hc Hold Hone.
  split.
  { now destruct (named_queries_present self k c b old m Hh Hb Hk Hc Hold). }
  pose proof (fun new => store_named_in_place self k c b old new m Hh Hb Hk Hc Hold Hone)
    as Hpush.
  split; [apply Hpush |]. split; [apply Hpush |]. split; apply Hpush.
Qed.

(** ** Marking *)

Lemma add_log_nil (m : Mem) : add_log [] m = m.
Proof. destruct m. unfold add_log. simpl. now rewrite app_nil_r. Qed.

Lemma add_log_add_log (evs evs' : list gc_event) (m : Mem) :
  add_log evs' (add_log evs m) = add_log (evs ++ evs') m.
Proof. unfold add_log. simpl. now rewrite app_assoc. Qed.

Lemma mark_cell_reports (c : Pcc_cell) (m : Mem) :
  mark_cell c m = Ok (tt, add_log (option_list (reference_of c)) m).
Proof.
  destruct c as [i | n | s | p |]; simpl; try (now rewrite add_log_nil).
  - unfold NULL. destruct (Z.eqb_spec s 0) as [-> | Hs]; simpl.
    + now rewrite add_log_nil.
    + now rewrite bool_decide_eq_true_2 by assumption.
  - unfold PMC_IS_NULL, PMCNULL, NULL.
    destruct (Z.eqb_spec p 0) as [-> | Hp]; simpl.
    + now rewrite add_log_nil.
    + now rewrite bool_decide_eq_false_2 by assumption.
Qed.

(** A loop whose every round only reports to the collector reports the
    rounds' reports in order. *)
Lemma for_each_reports {A} (f : A -> M unit) (g : A -> list gc_event)
  (xs : list A) (m : Mem) :
  (forall x evs, x ∈ xs -> f x (add_log evs m) = Ok (tt, add_log (evs ++ g x) m)) ->
  for_each f xs m = Ok (tt, add_log (flat_map g xs) m).
Proof.
  intros Hf.
  enough (Hgen : forall evs,
             for_each f xs (add_log evs m) = Ok (tt, add_log (evs ++ flat_map g xs) m)).
  { specialize (Hgen []). now rewrite add_log_nil in Hgen. }
  induction xs as [| x xs IH]; intros evs.
  - simpl. now rewrite app_nil_r.
  - simpl. rewrite (bind_Ok _ _ _ _ _ (Hf x evs ltac:(left))).
    rewrite IH by (intros y evs' Hy; apply Hf; now right).
    now rewrite app_assoc.
Qed.

Lemma references_by_index (l : list Pcc_cell) (n : nat) :
  (n <= length l)%nat ->
  flat_map (fun i : Z => option_list (l !! Z.to_nat i ≫= reference_of))
           (seqZ 0 (Z.of_nat n))
  = omap reference_of (take n l).
Proof.
  induction n as [| n IH]; intros Hn; [now rewrite take_0 |].
  destruct (lookup_lt_is_Some_2 l n ltac:(lia)) as [c Hc].
  rewrite (take_S_r _ _ c) by assumption.
  replace (Z.of_nat (S n)) with (Z.of_nat n + 1) by lia.
  rewrite seqZ_app by lia. rewrite flat_map_app, omap_app, IH by lia.
  f_equal. change (seqZ (0 + Z.of_nat n) 1) with [Z.of_nat n].
  cbn [flat_map omap list_omap]. rewrite Nat2Z.id, Hc. simpl.
  destruct (reference_of c); reflexivity.
Qed.

Lemma mark_positionals_reports (self : Parrot_Signature) (m : Mem) :
  storage_ok m self = true ->
  mark_positionals self m = Ok (tt, add_log (positional_references m self) m).
Proof.
  intros Hok. unfold mark_positionals, positional_references, live_cells.
  destruct (storage_ok_inv _ _ Hok) as (Hn & _ & [[_ E] | [_ (l & Hl & Hlen)]]).
  - assert (E0 : num_positionals self = 0) by lia. rewrite E0. simpl.
    unfold ret. rewrite <- (add_log_nil m) at 1. do 3 f_equal.
    destruct (cells m !! positionals self); now rewrite ?take_0.
  - rewrite Hl.
    rewrite <- (references_by_index l (Z.to_nat (num_positionals self))) by lia.
    rewrite Z2Nat.id by lia.
    apply for_each_reports. intros i evs Hi.
    apply elem_of_seqZ in Hi.
    destruct (lookup_lt_is_Some_2 l (Z.to_nat i) ltac:(lia)) as [c Hc].
    assert (Hload : load_cell (positionals self) i (add_log evs m)
                    = Ok (c, add_log evs m))
      by (apply (load_cell_Ok _ _ l); [exact Hl | lia | exact Hc]).
    rewrite (bind_Ok _ _ _ _ _ Hload), mark_cell_reports, add_log_add_log.
    now rewrite Hc.
Qed.

Lemma named_ok_bucket (m : Mem) (b : Hash) (kv : Z * Z) :
  named_ok m b = true -> kv ∈ b ->
  kv.1 <> NULL /\ exists c, cells m !! kv.2 = Some [c].
Proof.
  unfold named_ok. rewrite forallb_forall. intros Hall Hin.
  apply list_elem_of_In in Hin. specialize (Hall kv Hin).
  apply andb_true_iff in Hall as [Hk Hv]. split.
  - apply negb_true_iff, Z.eqb_neq in Hk. exact Hk.
  - destruct (cells m !! kv.2) as [[| c [| ? ?]] |]; try discriminate. now exists c.
Qed.

Lemma mark_hash_reports (h : ptr) (b : Hash) (m : Mem) :
  tables m !! h = Some b -> named_ok m b = true ->
  mark_hash h m = Ok (tt, add_log (named_references m b) m).
Proof.
  intros Hb Hok. unfold mark_hash, parrot_hash_iterate, with_table. rewrite Hb.
  apply for_each_reports. intros kv evs Hin.
  destruct (named_ok_bucket m b kv Hok Hin) as [_ [c Hc]].
  unfold Parrot_gc_mark_STRING_alive at 1, modify_mem, bind at 1.
  assert (Hload : load_cell kv.2 0 (log_event (MarkString kv.1) (add_log evs m))
                  = Ok (c, log_event (MarkString kv.1) (add_log evs m)))
    by (apply (load_cell_Ok _ _ [c]); [exact Hc | lia | reflexivity]).
  rewrite (bind_Ok _ _ _ _ _ Hload), mark_cell_reports.
  unfold bucket_references, named_cell. rewrite Hc. simpl.
  unfold add_log, log_event. simpl. now rewrite <- !app_assoc.
Qed.

Lemma length_references (l : list Pcc_cell) :
  length (omap reference_of l) = length (List.filter holds_reference l).
Proof.
  induction l as [| c l IH]; [reflexivity |].
  cbn [omap list_omap List.filter]. fold (omap reference_of l).
  destruct c as [i | n | s | p |]; cbn [reference_of holds_reference];
    try exact IH.
  - destruct (negb (s =? NULL)); cbn [length]; now rewrite IH.
  - destruct (negb (p =? PMCNULL)); cbn [length]; now rewrite IH.
Qed.

Lemma length_named_references (m : Mem) (b : Hash) :
  length (named_references m b)
  = (length b
     + length (List.filter holds_reference
                 (omap (fun kv : Z * Z => named_cell m kv.2) b)))%nat.
Proof.
  unfold named_references.
  induction b as [| kv b IH]; [reflexivity |].
  change (omap (fun kv : Z * Z => named_cell m kv.2) (kv :: b))
    with (match named_cell m kv.2 with
          | Some c => c :: omap (fun kv : Z * Z => named_cell m kv.2) b
          | None => omap (fun kv : Z * Z => named_cell m kv.2) b
          end).
  cbn [flat_map]. rewrite length_app, IH. unfold bucket_references.
  destruct (named_cell m kv.2) as [c |]; [| simpl; lia].
  destruct c as [i | n | s | p |]; simpl; try lia.
  - destruct (negb (s =? NULL)); simpl; lia.
  - destruct (negb (p =? PMCNULL)); simpl; lia.
Qed.

Lemma named_ok_Permutation (m : Mem) (b b' : Hash) :
  b' ≡ₚ b -> named_ok m b = true -> named_ok m b' = true.
Proof.
  unfold named_ok. rewrite !forallb_forall. intros Hp Hall kv Hin.
  apply Hall. apply list_elem_of_In. rewrite <- Hp. now apply list_elem_of_In.
Qed.

(** C10: marking reports exactly the live references the signature holds.
    Marking the positionals and then the named store appends to the
    collector's log one report for each live positional cell that holds a
    non-null string or object, one for each key, and one for each named cell
    that holds a non-null string or object, and nothing else: as many
    reports as there are held references.  A cell that holds no live
    reference (an integer, a float, a null string, a null object) is marked
    without a report.  Another order of the buckets gives the same reports
    in another order. *)
Theorem marking_reports_held_references
  (self : Parrot_Signature) (b : Hash) (m : Mem) :
  storage_ok m self = true ->
  tables m !! hash self = Some b ->
  named_ok m b = true ->
  let held := positional_references m self ++ named_references m b in
  (mark_positionals self >> mark_hash (hash self)) m = Ok (tt, add_log held m)
  /\ length held = count_references m self b
  /\ (forall c, holds_reference c = false -> mark_cell c m = Ok (tt, m))
  /\ (forall b' : Hash, b' ≡ₚ b ->
        let m' := set_tables (<[hash self := b']> (tables m)) m in
        exists held',
          (mark_positionals self >> mark_hash (hash self)) m' = Ok (tt, add_log held' m')
          /\ held' ≡ₚ held).
Proof.
  intros Hok Hb Hnamed held.
  assert (Hrun : forall (m0 : Mem) (b0 : Hash),
             storage_ok m0 self = true -> tables m0 !! hash self = Some b0 ->
             named_ok m0 b0 = true ->
             (mark_positionals self >> mark_hash (hash self)) m0
             = Ok (tt, add_log (positional_references m0 self ++ named_references m0 b0) m0)).
  { intros m0 b0 Hok0 Hb0 Hn0.
    rewrite (bind_Ok _ _ _ _ _ (mark_positionals_reports self m0 Hok0)).
    rewrite (mark_hash_reports (hash self) b0 (add_log _ m0) Hb0 Hn0).
    now rewrite add_log_add_log. }
  split; [now apply Hrun |]. split.
  { unfold held, count_references, positional_references.
    rewrite length_app, length_references, length_named_references. lia. }
  split.
  { intros c Hc. rewrite mark_cell_reports.
    destruct c; simpl in *; rewrite ?Hc; apply f_equal, f_equal, add_log_nil. }
  intros b' Hperm m'.
  exists (positional_references m' self ++ named_references m' b'). split.
  - apply Hrun.
    + exact Hok.
    + unfold m'. simpl. apply lookup_insert_eq.
    + exact (named_ok_Permutation m b b' Hperm Hnamed).
  - unfold held. apply Permutation_app; [reflexivity |].
    unfold named_references. apply Permutation_flat_map. exact Hperm.
Qed.

(** ** The first named push for a key *)

Lemma key_eqb_refl (k : ptr) : key_eqb k k = true.
Proof. unfold key_eqb. now apply bool_decide_eq_true_2. Qed.

Lemma put_bucket_absent (k c : ptr) (b : Hash) :
  find_bucket k b = None ->
  find_bucket k (put_bucket k c b) = Some c
  /\ named_entries k (put_bucket k c b) = [(k, c)].
Proof.
  unfold named_entries.
  induction b as [| [k' v'] b IH]; simpl; intros Hk.
  - now rewrite key_eqb_refl.
  - destruct (key_eqb k' k) eqn:E; [discriminate |].
    simpl. rewrite E. now apply IH.
Qed.

(** With a table that has no entry for [k], a named push allocates one cell
    from the pool and adds one bucket for [k]: afterwards [k] is present
    with exactly one entry, as [named_push_overwrites] asks. *)
Lemma named_push_creates
  (self : Parrot_Signature) (k : ptr) (b : Hash) (new : Pcc_cell) (m : Mem) :
  tables m !! hash self = Some b -> find_bucket k b = None ->
  let c := fresh_ptr m in
  exists m',
    (let* cell := get_cell_named self k in store_cell cell 0 new) m = Ok (tt, m')
    /\ tables m' !! hash self = Some (put_bucket k c b)
    /\ find_bucket k (put_bucket k c b) = Some c
    /\ c <> NULL
    /\ cells m' !! c = Some [new]
    /\ length (named_entries k (put_bucket k c b)) = 1%nat
    /\ gc_log m' = gc_log m ++ [AllocFixed sizeof_Pcc_cell c].
Proof.
  intros Hb Hk c.
  destruct (fresh_ptr_spec m) as (Hc0 & _ & _). fold c in Hc0.
  destruct (put_bucket_absent k c b Hk) as [Hfind Hent].
  set (m1 := log_event (AllocFixed sizeof_Pcc_cell c)
               (set_cells (<[c := [NOCELL]]> (cells m)) m)).
  set (m2 := set_tables (<[hash self := put_bucket k c b]> (tables m1)) m1).
  set (m3 := set_cells (<[c := [new]]> (cells m2)) m2).
  exists m3. split.
  { assert (Hcell : get_cell_named self k m = Ok (c, m2)).
    { unfold get_cell_named.
      assert (Hget : Parrot_hash_get (hash self) k m = Ok (NULL, m)).
      { unfold Parrot_hash_get, with_table. now rewrite Hb, Hk. }
      rewrite (bind_Ok _ _ _ _ _ Hget). cbv beta.
      rewrite bool_decide_eq_true_2 by reflexivity.
      assert (Halloc : ALLOC_CELL m = Ok (c, m1)) by reflexivity.
      rewrite (bind_Ok _ _ _ _ _ Halloc). cbv beta.
      assert (Hput : Parrot_hash_put (hash self) k c m1 = Ok (tt, m2)).
      { unfold Parrot_hash_put, with_table.
        change (tables m1) with (tables m). now rewrite Hb. }
      now rewrite (bind_Ok _ _ _ _ _ Hput). }
    rewrite (bind_Ok _ _ _ _ _ Hcell). cbv beta.
    apply (store_cell_Ok c 0 [NOCELL] new m2); [| simpl; lia].
    unfold m2, m1. simpl. apply lookup_insert_eq. }
  split; [unfold m3, m2; simpl; apply lookup_insert_eq |].
  split; [exact Hfind |]. split; [exact Hc0 |].
  split; [unfold m3; simpl; apply lookup_insert_eq |].
  split; [now rewrite Hent | reflexivity].
Qed.

(** [get_cell_named] reads [self->hash] as it is and never creates the
    table: where no table is, a named push has nothing to look the key up
    in. *)
Lemma named_push_without_table
  (self : Parrot_Signature) (k : ptr) (new : Pcc_cell) (m : Mem) :
  tables m !! hash self = None ->
  (let* cell := get_cell_named self k in store_cell cell 0 new) m = Fault.
Proof.
  intros Hb. unfold get_cell_named, Parrot_hash_get, with_table, bind.
  now rewrite Hb.
Qed.

(** ** Capacity *)

(** Growth to any size, with the memory it leaves. *)
Lemma ensure_grow_cells (self : Parrot_Signature) (size : INTVAL) (m : Mem) :
  storage_ok m self = true ->
  allocated_positionals self < size < 2 ^ 59 ->
  let p := fresh_ptr m in
  let a := Z.max 8 size in
  exists m',
    ensure_positionals_storage self size m =
      Ok (set_positionals p (set_allocated_positionals a self), m')
    /\ cells m' =
         <[p := live_cells m self
                ++ replicate (Z.to_nat (a - num_positionals self)) NOCELL]>
           (if bool_decide (positionals self = NULL) then cells m
            else delete (positionals self) (cells m))
    /\ tables m' = tables m
    /\ gc_log m' = gc_log m ++ growth_events self a p.
Proof.
  intros Hok Hsz p a.
  destruct (storage_ok_inv _ _ Hok) as (Hn & Ha & Hst).
  destruct (fresh_ptr_spec m) as (Hp0 & Hpc & Hpt). fold p in Hp0, Hpc, Hpt.
  unfold ensure_positionals_storage.
  destruct (Z.leb_spec size (allocated_positionals self)); [lia |].
  assert (Ea : (if size <? 8 then 8 else size) = a).
  { unfold a. destruct (Z.ltb_spec size 8); lia. }
  rewrite Ea.
  assert (Hraw : raw_storage (to_size_t (a * sizeof_Pcc_cell))
                 = replicate (Z.to_nat a) NOCELL).
  { apply raw_storage_cells. unfold a. lia. }
  assert (Hsz16 : to_size_t (a * sizeof_Pcc_cell) = a * sizeof_Pcc_cell).
  { unfold to_size_t, sizeof_Pcc_cell. apply Z.mod_small. unfold a. lia. }
  set (ev := if 8 <? a then AllocChunk (a * sizeof_Pcc_cell) p
             else AllocFixed (a * sizeof_Pcc_cell) p).
  set (m1 := log_event ev
               (set_cells (<[p := replicate (Z.to_nat a) NOCELL]> (cells m)) m)).
  assert (Halloc :
    (if 8 <? a
     then Parrot_gc_allocate_memory_chunk (to_size_t (a * sizeof_Pcc_cell))
     else Parrot_gc_allocate_fixed_size_storage (to_size_t (a * sizeof_Pcc_cell))) m
    = Ok (p, m1)).
  { unfold m1, ev. destruct (8 <? a);
      unfold Parrot_gc_allocate_memory_chunk, Parrot_gc_allocate_fixed_size_storage;
      fold p; now rewrite Hraw, Hsz16. }
  rewrite (bind_Ok _ _ _ _ _ Halloc). cbv beta.
  destruct Hst as [[Hnull Ha0] | [Hnn (l & Hl & Hlen)]].
  - rewrite bool_decide_eq_false_2 by (intros E; now apply E).
    rewrite bool_decide_eq_true_2 by assumption.
    exists m1. split; [reflexivity |].
    assert (Hn0 : num_positionals self = 0) by lia.
    split.
    { unfold m1. simpl. f_equal. unfold live_cells.
      rewrite Hn0, Z.sub_0_r. simpl (Z.to_nat 0).
      destruct (cells m !! positionals self); now rewrite ?take_0. }
    split; [reflexivity |].
    unfold m1, growth_events. simpl.
    now rewrite bool_decide_eq_false_2 by (intros E; now apply E).
  - rewrite bool_decide_eq_true_2 by assumption.
    rewrite (bool_decide_eq_false_2 (positionals self = NULL)) by assumption.
    assert (Hne : positionals self <> p).
    { intros E. rewrite E in Hl. congruence. }
    assert (Hm1old : cells m1 !! positionals self = Some l).
    { unfold m1. simpl. now rewrite lookup_insert_ne. }
    assert (Hm1new : cells m1 !! p = Some (replicate (Z.to_nat a) NOCELL)).
    { unfold m1. simpl. now rewrite lookup_insert_eq. }
    assert (Hcopy := memcpy_Ok p (positionals self) (num_positionals self) _ _ m1
                       Hm1old Hm1new ltac:(lia) ltac:(lia)
                       ltac:(rewrite length_replicate; unfold a; lia)).
    set (moved := take (Z.to_nat (num_positionals self)) l
                  ++ drop (Z.to_nat (num_positionals self))
                          (replicate (Z.to_nat a) NOCELL)) in Hcopy.
    set (m2 := set_cells (<[p := moved]> (cells m1)) m1) in Hcopy.
    assert (Hm2old : cells m2 !! positionals self = Some l).
    { unfold m2. simpl. now rewrite lookup_insert_ne. }
    set (fev := if 8 <? allocated_positionals self
                then FreeChunk (positionals self)
                else FreeFixed (allocated_positionals self * sizeof_Pcc_cell)
                               (positionals self)).
    set (m3 := log_event fev (set_cells (delete (positionals self) (cells m2)) m2)).
    assert (Hfree :
      (if 8 <? allocated_positionals self
       then Parrot_gc_free_memory_chunk (positionals self)
       else Parrot_gc_free_fixed_size_storage
              (to_size_t (allocated_positionals self * sizeof_Pcc_cell))
              (positionals self)) m2 = Ok (tt, m3)).
    { unfold m3, fev. destruct (8 <? allocated_positionals self);
        unfold Parrot_gc_free_memory_chunk, Parrot_gc_free_fixed_size_storage;
        rewrite Hm2old; [reflexivity |].
      unfold to_size_t, sizeof_Pcc_cell. now rewrite Z.mod_small by lia. }
    exists m3. split.
    { rewrite (bind_Ok _ _ m1 tt m3); [reflexivity |].
      now rewrite (bind_Ok _ _ m1 tt m2 Hcopy). }
    split.
    { unfold m3, m2, m1. simpl. rewrite insert_insert_eq.
      rewrite delete_insert_ne by congruence. f_equal.
      unfold moved, live_cells. rewrite Hl, drop_replicate.
      do 2 f_equal. lia. }
    split; [reflexivity |].
    unfold m3, m2, m1, growth_events. simpl.
    rewrite bool_decide_eq_true_2 by assumption.
    now rewrite <- app_assoc.
Qed.

(** [ensure_positionals_storage] on a consistent signature, for any
    requested size. *)
Lemma ensure_any_size (self : Parrot_Signature) (size : INTVAL) (m : Mem) :
  storage_ok m self = true ->
  size < 2 ^ 59 ->
  exists self' m',
    ensure_positionals_storage self size m = Ok (self', m')
    /\ allocated_positionals self' =
         (if size <=? allocated_positionals self then allocated_positionals self
          else Z.max 8 size)
    /\ size <= allocated_positionals self'
    /\ allocated_positionals self <= allocated_positionals self'
    /\ num_positionals self' = num_positionals self
    /\ live_cells m' self' = live_cells m self
    /\ storage_ok m' self' = true
    /\ (hash self' = hash self /\ type_tuple self' = type_tuple self
        /\ short_sig self' = short_sig self /\ arg_flags self' = arg_flags self
        /\ return_flags self' = return_flags self)
    /\ tables m' = tables m
    /\ (size <= allocated_positionals self -> self' = self /\ m' = m).
Proof.
  intros Hok Hsz.
  destruct (storage_ok_inv _ _ Hok) as (Hn & Ha & Hst).
  destruct (Z.leb_spec size (allocated_positionals self)) as [Hle | Hgt].
  - exists self, m. rewrite ensure_enough by assumption.
    split; [reflexivity |]. split; [reflexivity |]. split; [lia |].
    split; [lia |]. split; [reflexivity |]. split; [reflexivity |].
    split; [assumption |]. split; [now repeat split |].
    split; [reflexivity |]. now split.
  - destruct (ensure_grow_cells self size m Hok ltac:(lia))
      as (m' & Hrun & Hcells & Htab & _).
    set (p := fresh_ptr m) in *. set (a := Z.max 8 size) in *.
    pose proof (live_cells_length m self Hok) as Hlive.
    assert (Hp : cells m' !! p
                 = Some (live_cells m self
                         ++ replicate (Z.to_nat (a - num_positionals self)) NOCELL))
      by (rewrite Hcells; apply lookup_insert_eq).
    destruct (fresh_ptr_spec m) as (Hp0 & _ & _). fold p in Hp0.
    eexists _, m'. split; [exact Hrun |].
    split; [reflexivity |]. split; [simpl; unfold a; lia |].
    split; [simpl; unfold a; lia |]. split; [reflexivity |].
    split.
    { unfold live_cells at 1. simpl. rewrite Hp.
      now rewrite take_app_length' by (symmetry; exact Hlive). }
    split.
    { eapply storage_ok_intro; simpl; try eassumption.
      - unfold a. lia.
      - unfold a. lia.
      - rewrite length_app, length_replicate, Hlive. unfold a. lia. }
    split; [now repeat split |]. split; [exact Htab |]. lia.
Qed.

(** X3: [ensure_positionals_storage] on a consistent signature, for any
    requested size: the call returns; the capacity stays when it suffices
    and becomes [max 8 size] otherwise, so it covers the request and never
    shrinks; a growth takes the new array from the chunk allocator when its
    capacity is above 8 and from the pool otherwise, and returns the old
    array to the allocator its capacity says it came from; the count, the
    live cells and the tables are as before, and the storage is consistent
    again. *)
Theorem ensure_capacity (self : Parrot_Signature) (size : INTVAL) (m : Mem) :
  storage_ok m self = true ->
  size < 2 ^ 59 ->
  exists self' m',
    ensure_positionals_storage self size m = Ok (self', m')
    /\ allocated_positionals self' =
         (if size <=? allocated_positionals self then allocated_positionals self
          else Z.max 8 size)
    /\ size <= allocated_positionals self'
    /\ allocated_positionals self <= allocated_positionals self'
    /\ num_positionals self' = num_positionals self
    /\ live_cells m' self' = live_cells m self
    /\ storage_ok m' self' = true
    /\ tables m' = tables m
    /\ gc_log m' = gc_log m ++
         (if size <=? allocated_positionals self then []
          else growth_events self (Z.max 8 size) (fresh_ptr m)).
Proof.
  intros Hok Hsz.
  destruct (ensure_any_size self size m Hok Hsz)
    as (self' & m' & Hrun & Ha & Hge & Hmono & Hn & Hl & Hok' & _ & Ht & Hsame).
  exists self', m'. split; [exact Hrun |]. split; [exact Ha |].
  split; [exact Hge |]. split; [exact Hmono |]. split; [exact Hn |].
  split; [exact Hl |]. split; [exact Hok' |]. split; [exact Ht |].
  destruct (Z.leb_spec size (allocated_positionals self)) as [Hle | Hgt].
  - destruct (Hsame Hle) as [_ ->]. now rewrite app_nil_r.
  - destruct (storage_ok_inv _ _ Hok) as (_ & Hbound & _).
    destruct (ensure_grow_cells self size m Hok ltac:(lia)) as (m2 & Hrun2 & _ & _ & Hlog).
    rewrite Hrun in Hrun2. injection Hrun2 as _ <-. exact Hlog.
Qed.

(** ** The blocks a push leaves alone *)

(** The common tail of the pushes changes no block but the positional
    array, whether it grows or not. *)
Lemma push_tail_blocks (c : Pcc_cell) (self : Parrot_Signature) (m : Mem) :
  storage_ok m self = true ->
  num_positionals self + 1 < 2 ^ 59 ->
  cells m !! NULL = None ->
  exists self' m',
    (let* self0 := ensure_positionals_storage self (wrap (num_positionals self + 1)) in
     store_cell (positionals self0) (num_positionals self) c >>
     ret (set_num_positionals (wrap (num_positionals self0 + 1)) self0)) m
    = Ok (self', m')
    /\ other_blocks m' self' = other_blocks m self
    /\ cells m' !! NULL = None.
Proof.
  intros Hok Hsz Hnull.
  destruct (storage_ok_inv _ _ Hok) as (Hn & Ha & Hst).
  rewrite wrap_small by (unfold INTVAL_MIN, INTVAL_MAX; lia).
  set (n := num_positionals self) in *.
  destruct (Z.leb_spec (n + 1) (allocated_positionals self)) as [Hle | Hgt].
  - destruct Hst as [[_ Ha0] | [Hnn (l & Hl & Hlen)]]; [lia |].
    rewrite (bind_Ok _ _ _ _ _ (ensure_enough self (n + 1) m Hle)). cbv beta.
    assert (Hstore := store_cell_Ok (positionals self) n l c m Hl ltac:(lia)).
    rewrite (bind_Ok _ _ _ _ _ Hstore). cbv beta.
    eexists _, _. split; [reflexivity |]. unfold other_blocks. simpl. split.
    + apply delete_insert_eq.
    + now rewrite lookup_insert_ne.
  - destruct (ensure_grow_cells self (n + 1) m Hok ltac:(lia))
      as (m1 & Hrun & Hcells & _ & _).
    destruct (fresh_ptr_spec m) as (Hp0 & Hpc & _).
    set (p := fresh_ptr m) in *. set (a := Z.max 8 (n + 1)) in *.
    set (C := if bool_decide (positionals self = NULL) then cells m
              else delete (positionals self) (cells m)) in *.
    set (L := live_cells m self ++ replicate (Z.to_nat (a - n)) NOCELL) in *.
    pose proof (live_cells_length m self Hok) as Hlive. fold n in Hlive.
    assert (HL : cells m1 !! p = Some L) by (rewrite Hcells; apply lookup_insert_eq).
    assert (HlenL : Z.of_nat (length L) = a).
    { unfold L. rewrite length_app, length_replicate, Hlive. unfold a. lia. }
    assert (HCp : C !! p = None).
    { unfold C. case_bool_decide; [assumption |].
      apply lookup_delete_None. now right. }
    assert (HC : C = other_blocks m self).
    { unfold C, other_blocks. case_bool_decide as E; [| reflexivity].
      rewrite E. symmetry. now apply delete_id. }
    assert (HCnull : C !! NULL = None).
    { rewrite HC. unfold other_blocks. apply lookup_delete_None. now right. }
    rewrite (bind_Ok _ _ _ _ _ Hrun). cbv beta.
    change (positionals (set_positionals p (set_allocated_positionals a self))) with p.
    assert (Hstore := store_cell_Ok p n L c m1 HL ltac:(unfold a in *; lia)).
    rewrite (bind_Ok _ _ _ _ _ Hstore). cbv beta.
    eexists _, _. split; [reflexivity |]. unfold other_blocks at 1. simpl.
    rewrite Hcells. split.
    + rewrite !delete_insert_eq. rewrite <- HC. now apply delete_id.
    + now rewrite !lookup_insert_ne by congruence.
Qed.

Lemma run_push_blocks (self : Parrot_Signature) (op : push_op) (m : Mem) :
  push_allowed op = true ->
  storage_ok m self = true ->
  num_positionals self + 1 < 2 ^ 59 ->
  cells m !! NULL = None ->
  exists self' m',
    run_push self op m = Ok (self', m')
    /\ other_blocks m' self' = other_blocks m self
    /\ cells m' !! NULL = None.
Proof.
  intros Hal Hok Hsz Hnull.
  destruct op as [v | n | s | p]; simpl in *;
    try exact (push_tail_blocks _ self m Hok Hsz Hnull).
  unfold Parrot_pcc_signature_push_pmc.
  apply negb_true_iff in Hal. rewrite Hal. simpl.
  exact (push_tail_blocks (PMCCELL p) self m Hok Hsz Hnull).
Qed.

(** A run of pushes: what [run_pushes_appends] says, and no block but the
    array changed. *)
Lemma run_pushes_blocks (ops : list push_op) :
  forall (self : Parrot_Signature) (m : Mem),
    Forall (fun op => push_allowed op = true) ops ->
    storage_ok m self = true ->
    num_positionals self + Z.of_nat (length ops) < 2 ^ 59 ->
    cells m !! NULL = None ->
    exists self' m',
      run_pushes self ops m = Ok (self', m')
      /\ storage_ok m' self' = true
      /\ hash self' = hash self
      /\ tables m' = tables m
      /\ other_blocks m' self' = other_blocks m self
      /\ cells m' !! NULL = None.
Proof.
  induction ops as [| op ops IH]; intros self m Hall Hok Hsz Hnull.
  - exists self, m. now repeat split.
  - apply Forall_cons in Hall as [Hop Hall]. simpl length in Hsz.
    destruct (run_push_appends self op m Hop Hok ltac:(lia))
      as (self1 & m1 & Hrun & Hok1 & Hn1 & _ & _ & _ & (Hh1 & _) & Ht1 & _).
    destruct (run_push_blocks self op m Hop Hok ltac:(lia) Hnull)
      as (self1' & m1' & Hrun' & Hb1 & Hnull1).
    rewrite Hrun in Hrun'. injection Hrun' as <- <-.
    destruct (IH self1 m1 Hall Hok1 ltac:(lia) Hnull1)
      as (self' & m' & Hruns & Hok' & Hh' & Ht' & Hb' & Hnull').
    exists self', m'. split.
    { simpl. now rewrite (bind_Ok _ _ _ _ _ Hrun). }
    split; [assumption |]. split; [congruence |]. split; [congruence |].
    split; [congruence | assumption].
Qed.

(** ** Releasing the named store *)

Lemma named_cells_live_inv (m : Mem) (b : Hash) (avoid : list ptr) :
  named_cells_live m b avoid = true ->
  NoDup (b.*2)
  /\ forall kv, kv ∈ b -> is_Some (cells m !! kv.2) /\ kv.2 ∉ avoid.
Proof.
  unfold named_cells_live. rewrite andb_true_iff, forallb_forall.
  intros [Hnd Hall]. split; [now apply bool_decide_eq_true in Hnd |].
  intros kv Hin. apply list_elem_of_In in Hin. specialize (Hall kv Hin).
  apply andb_true_iff in Hall as [H1 H2].
  split; [now apply bool_decide_eq_true in H1 | now apply bool_decide_eq_true in H2].
Qed.

(** Freeing the cell of every bucket: each is released once, in bucket
    order, and nothing else changes. *)
Lemma free_cells_all (b : Hash) :
  forall m : Mem,
    NoDup (b.*2) ->
    (forall kv, kv ∈ b -> is_Some (cells m !! kv.2)) ->
    exists m',
      for_each (fun bucket : Z * Z => FREE_CELL bucket.2) b m = Ok (tt, m')
      /\ (forall q, cells m' !! q
                    = if bool_decide (q ∈ b.*2) then None else cells m !! q)
      /\ tables m' = tables m
      /\ gc_log m' = gc_log m ++ cell_releases b.
Proof.
  induction b as [| kv b IH]; intros m Hnd Hlive.
  - exists m. simpl. rewrite app_nil_r. repeat split.
  - rewrite fmap_cons in Hnd. apply NoDup_cons in Hnd as [Hnotin Hnd].
    destruct (Hlive kv ltac:(left)) as [blk Hblk].
    set (m1 := log_event (FreeFixed sizeof_Pcc_cell kv.2)
                 (set_cells (delete kv.2 (cells m)) m)).
    assert (Hfree : FREE_CELL kv.2 m = Ok (tt, m1)).
    { unfold FREE_CELL, Parrot_gc_free_fixed_size_storage. now rewrite Hblk. }
    destruct (IH m1 Hnd) as (m' & Hrun & Hcells & Htab & Hlog).
    { intros kv' Hin. unfold m1. simpl. rewrite lookup_delete_ne.
      - apply Hlive. now right.
      - intros E. apply Hnotin. rewrite E. now apply list_elem_of_fmap_2. }
    exists m'. split.
    { simpl. now rewrite (bind_Ok _ _ _ _ _ Hfree). }
    split.
    { intros q. rewrite Hcells, fmap_cons. unfold m1. simpl.
      destruct (decide (q = kv.2)) as [-> | Hq].
      - rewrite (bool_decide_eq_true_2 (kv.2 ∈ kv.2 :: b.*2)) by left.
        rewrite lookup_delete_eq. now case_bool_decide.
      - rewrite lookup_delete_ne by congruence.
        case_bool_decide as E1; case_bool_decide as E2; try reflexivity.
        + exfalso. apply E2. now right.
        + exfalso. apply elem_of_cons in E2 as [E2 | E2]; [congruence | now apply E1]. }
    split; [exact Htab |].
    rewrite Hlog. unfold m1. simpl. now rewrite <- app_assoc.
Qed.

(** The two statements that release a named store. *)
Lemma release_table (h : ptr) (b : Hash) (m : Mem) :
  tables m !! h = Some b ->
  NoDup (b.*2) ->
  (forall kv, kv ∈ b -> is_Some (cells m !! kv.2)) ->
  exists m1 m',
    parrot_hash_iterate h (fun bucket : Z * Z => FREE_CELL bucket.2) m = Ok (tt, m1)
    /\ Parrot_hash_destroy h m1 = Ok (tt, m')
    /\ (forall q, cells m' !! q
                  = if bool_decide (q ∈ b.*2) then None else cells m !! q)
    /\ tables m' = delete h (tables m)
    /\ gc_log m' = gc_log m ++ cell_releases b.
Proof.
  intros Hb Hnd Hlive.
  destruct (free_cells_all b m Hnd Hlive) as (m1 & Hrun & Hcells & Htab & Hlog).
  exists m1, (set_tables (delete h (tables m1)) m1). split.
  { unfold parrot_hash_iterate, with_table. now rewrite Hb. }
  split.
  { assert (Hb1 : tables m1 !! h = Some b) by now rewrite Htab.
    unfold Parrot_hash_destroy, with_table. now rewrite Hb1. }
  split; [exact Hcells |]. split; [simpl; now rewrite Htab | exact Hlog].
Qed.

Lemma named_store_ready_inv (m : Mem) (self : Parrot_Signature) (avoid : list ptr) :
  named_store_ready m self avoid = true ->
  (hash self = NULL /\ named_buckets m self = [])
  \/ (hash self <> NULL /\ exists b,
        tables m !! hash self = Some b /\ named_buckets m self = b
        /\ NoDup (b.*2)
        /\ forall kv, kv ∈ b -> is_Some (cells m !! kv.2) /\ kv.2 ∉ avoid).
Proof.
  unfold named_store_ready, named_buckets. case_bool_decide as Hh.
  - intros _. now left.
  - destruct (tables m !! hash self) as [b |] eqn:Hb; [| discriminate].
    intros Hlive. right. split; [assumption |]. exists b.
    destruct (named_cells_live_inv m b avoid Hlive) as [Hnd Hall].
    split; [reflexivity |]. split; [reflexivity |]. split; assumption.
Qed.

Lemma set_hash_NULL_id (self : Parrot_Signature) :
  hash self = NULL -> set_hash NULL self = self.
Proof. destruct self. simpl. now intros ->. Qed.

(** [Parrot_pcc_signature_reset] on a signature whose named store can be
    released. *)
Lemma reset_runs (self : Parrot_Signature) (m : Mem) (avoid : list ptr) :
  named_store_ready m self avoid = true ->
  exists m',
    Parrot_pcc_signature_reset self m
    = Ok (set_hash NULL (set_num_positionals 0 self), m')
    /\ (forall q, cells m' !! q
                  = if bool_decide (q ∈ (named_buckets m self).*2) then None
                    else cells m !! q)
    /\ tables m' = (if bool_decide (hash self = NULL) then tables m
                    else delete (hash self) (tables m))
    /\ gc_log m' = gc_log m ++ cell_releases (named_buckets m self).
Proof.
  intros Hready. unfold Parrot_pcc_signature_reset.
  change (hash (set_num_positionals 0 self)) with (hash self).
  destruct (named_store_ready_inv m self avoid Hready)
    as [[Hh Hb] | [Hh (b & Hb & Hnb & Hnd & Hall)]].
  - rewrite bool_decide_eq_false_2 by (intros E; now apply E).
    rewrite set_hash_NULL_id by assumption.
    exists m. split; [reflexivity |]. rewrite Hb. simpl.
    rewrite bool_decide_eq_true_2 by assumption.
    split; [reflexivity |]. split; [reflexivity | now rewrite app_nil_r].
  - rewrite bool_decide_eq_true_2 by assumption.
    rewrite (bool_decide_eq_false_2 (hash self = NULL)) by assumption.
    destruct (release_table (hash self) b m Hb Hnd (fun kv Hin => proj1 (Hall kv Hin)))
      as (m1 & m' & Hiter & Hdestroy & Hcells & Htab & Hlog).
    exists m'. split.
    { rewrite (bind_Ok _ _ _ _ _ Hiter). cbv beta.
      now rewrite (bind_Ok _ _ _ _ _ Hdestroy). }
    rewrite Hnb. now repeat split.
Qed.

(** The positional storage is as consistent after a reset as before, when
    the array is none of the named cells. *)
Lemma reset_storage_ok (self : Parrot_Signature) (m m' : Mem) :
  storage_ok m self = true ->
  named_store_ready m self [positionals self] = true ->
  (forall q, cells m' !! q
             = if bool_decide (q ∈ (named_buckets m self).*2) then None
               else cells m !! q) ->
  storage_ok m' (set_hash NULL (set_num_positionals 0 self)) = true.
Proof.
  intros Hok Hready Hcells.
  assert (Hpos : positionals self ∉ (named_buckets m self).*2).
  { destruct (named_store_ready_inv m self _ Hready)
      as [[_ Hb] | [_ (b & _ & Hnb & _ & Hall)]].
    - rewrite Hb. apply not_elem_of_nil.
    - rewrite Hnb. intros Hin. apply list_elem_of_fmap in Hin as (kv & E & Hin).
      destruct (Hall kv Hin) as [_ Hav]. apply Hav. rewrite <- E. left. }
  destruct (storage_ok_inv _ _ Hok) as (Hn & Ha & Hst).
  unfold storage_ok. simpl.
  rewrite Hcells.
  rewrite (bool_decide_eq_false_2 (positionals self ∈ (named_buckets m self).*2))
    by assumption.
  unfold storage_ok in Hok. apply andb_true_iff in Hok as [Hok1 Hok2].
  rewrite Hok2. apply andb_true_iff in Hok1 as [Hok1 Hok3]. rewrite Hok3.
  apply andb_true_iff in Hok1 as [_ Hok1].
  rewrite !andb_true_r. apply Z.leb_le. lia.
Qed.

(** X6: [Parrot_pcc_signature_reset] on a consistent signature whose named
    cells are live, distinct and not the positional array: the call
    returns; the count is 0 and the named store is absent, while the array
    and the capacity are kept; every named cell is released to the pool
    once, in bucket order, and the table is destroyed; no other block
    changes, and the positional storage is still consistent. *)
Theorem reset_keeps_array_releases_named
  (self : Parrot_Signature) (m : Mem) :
  storage_ok m self = true ->
  named_store_ready m self [positionals self] = true ->
  exists self' m',
    Parrot_pcc_signature_reset self m = Ok (self', m')
    /\ num_positionals self' = 0
    /\ hash self' = NULL
    /\ positionals self' = positionals self
    /\ allocated_positionals self' = allocated_positionals self
    /\ (type_tuple self' = type_tuple self /\ short_sig self' = short_sig self
        /\ arg_flags self' = arg_flags self /\ return_flags self' = return_flags self)
    /\ gc_log m' = gc_log m ++ cell_releases (named_buckets m self)
    /\ (forall kv, kv ∈ named_buckets m self -> cells m' !! kv.2 = None)
    /\ (forall q, q ∉ (named_buckets m self).*2 -> cells m' !! q = cells m !! q)
    /\ (hash self <> NULL -> tables m' !! hash self = None)
    /\ storage_ok m' self' = true.
Proof.
  intros Hok Hready.
  destruct (reset_runs self m _ Hready) as (m' & Hrun & Hcells & Htab & Hlog).
  exists (set_hash NULL (set_num_positionals 0 self)), m'.
  split; [exact Hrun |]. split; [reflexivity |]. split; [reflexivity |].
  split; [reflexivity |]. split; [reflexivity |]. split; [now repeat split |].
  split; [exact Hlog |]. split.
  { intros kv Hin. rewrite Hcells.
    now rewrite bool_decide_eq_true_2 by (now apply list_elem_of_fmap_2). }
  split.
  { intros q Hq. rewrite Hcells. now rewrite bool_decide_eq_false_2. }
  split.
  { intros Hh. rewrite Htab, bool_decide_eq_false_2 by assumption.
    apply lookup_delete_eq. }
  exact (reset_storage_ok self m m' Hok Hready Hcells).
Qed.

(** X7: after a reset the signature reads as empty: the count is 0, every
    positional getter answers the zero of its type at every index, every
    named query answers zero, and marking the positionals reports nothing,
    although the array still holds the cells pushed before. *)
Theorem reset_reads_as_empty
  (self : Parrot_Signature) (m : Mem) (key : INTVAL) (k : ptr) :
  named_store_ready m self [] = true ->
  exists self' m',
    Parrot_pcc_signature_reset self m = Ok (self', m')
    /\ Parrot_pcc_signature_num_positionals self' = 0
    /\ (Parrot_pcc_signature_get_integer self' key m' = Ok (0, m')
        /\ Parrot_pcc_signature_get_number self' key m' = Ok (S754_zero false, m')
        /\ Parrot_pcc_signature_get_string self' key m' = Ok (STRINGNULL, m')
        /\ Parrot_pcc_signature_get_pmc self' key m' = Ok (PMCNULL, m'))
    /\ (Parrot_pcc_signature_get_integer_named self' k m' = Ok (0, m')
        /\ Parrot_pcc_signature_get_number_named self' k m' = Ok (S754_zero false, m')
        /\ Parrot_pcc_signature_get_string_named self' k m' = Ok (STRINGNULL, m')
        /\ Parrot_pcc_signature_get_pmc_named self' k m' = Ok (PMCNULL, m')
        /\ Parrot_pcc_signature_exists_named self' k m' = Ok (0, m'))
    /\ mark_positionals self' m' = Ok (tt, m').
Proof.
  intros Hready.
  destruct (reset_runs self m _ Hready) as (m' & Hrun & _).
  set (self' := set_hash NULL (set_num_positionals 0 self)) in *.
  exists self', m'. split; [exact Hrun |]. split; [reflexivity |].
  assert (Hout : (num_positionals self' <=? key) || (key <? 0) = true)
    by (apply out_of_range_test; simpl; lia).
  split.
  { unfold Parrot_pcc_signature_get_integer, Parrot_pcc_signature_get_number,
      Parrot_pcc_signature_get_string, Parrot_pcc_signature_get_pmc.
    rewrite Hout. now repeat split. }
  split; [| reflexivity].
  unfold Parrot_pcc_signature_get_integer_named, Parrot_pcc_signature_get_number_named,
    Parrot_pcc_signature_get_string_named, Parrot_pcc_signature_get_pmc_named,
    Parrot_pcc_signature_exists_named.
  change (hash self') with NULL.
  rewrite !bool_decide_eq_false_2 by (intros E; now apply E).
  now repeat split.
Qed.

(** X8: after a reset, pushes up to the capacity the signature had reuse
    its array: the reset and the pushes return, the pushes ask nothing of
    the collector, the array and the capacity are the ones from before the
    reset, and the live cells are exactly the cells pushed since. *)
Theorem reset_then_pushes_reuse_array
  (self : Parrot_Signature) (m : Mem) (ops : list push_op) :
  storage_ok m self = true ->
  named_store_ready m self [positionals self] = true ->
  Forall (fun op => push_allowed op = true) ops ->
  Z.of_nat (length ops) <= allocated_positionals self ->
  exists s1 m1 s2 m2,
    Parrot_pcc_signature_reset self m = Ok (s1, m1)
    /\ run_pushes s1 ops m1 = Ok (s2, m2)
    /\ gc_log m2 = gc_log m1
    /\ positionals s2 = positionals self
    /\ allocated_positionals s2 = allocated_positionals self
    /\ num_positionals s2 = Z.of_nat (length ops)
    /\ live_cells m2 s2 = map cell_of_push ops.
Proof.
  intros Hok Hready Hall Hlen.
  destruct (reset_runs self m _ Hready) as (m1 & Hrun & Hcells & _).
  pose proof (reset_storage_ok self m m1 Hok Hready Hcells) as Hok1.
  set (s1 := set_hash NULL (set_num_positionals 0 self)) in *.
  destruct (run_pushes_within_capacity ops s1 m1 Hall Hok1)
    as (s2 & m2 & Hpush & _ & Hn2 & Hp2 & Ha2 & Hlog2 & Hl2); [simpl; lia |].
  exists s1, m1, s2, m2. split; [exact Hrun |]. split; [exact Hpush |].
  split; [exact Hlog2 |]. split; [exact Hp2 |]. split; [exact Ha2 |].
  split; [simpl in Hn2; lia |].
  rewrite Hl2. unfold live_cells. simpl.
  destruct (cells m1 !! positionals self); now rewrite ?take_0.
Qed.

(** ** Freeing a signature *)

(** The first statement of [Parrot_pcc_signature_free]: the array goes back
    to the allocator its capacity says it came from. *)
Lemma free_array_step (self : Parrot_Signature) (m : Mem) :
  storage_ok m self = true ->
  exists mA,
    (if negb (allocated_positionals self =? 0) then
       if 8 <? allocated_positionals self
       then Parrot_gc_free_memory_chunk (positionals self)
       else Parrot_gc_free_fixed_size_storage
              (to_size_t (allocated_positionals self * sizeof_Pcc_cell))
              (positionals self)
     else ret tt) m = Ok (tt, mA)
    /\ cells mA = (if allocated_positionals self =? 0 then cells m
                   else delete (positionals self) (cells m))
    /\ tables mA = tables m
    /\ gc_log mA = gc_log m ++ array_release self.
Proof.
  intros Hok. destruct (storage_ok_inv _ _ Hok) as (Hn & Ha & Hst).
  unfold array_release.
  destruct (Z.eqb_spec (allocated_positionals self) 0) as [E | E]; simpl.
  - exists m. rewrite app_nil_r. now repeat split.
  - destruct Hst as [[_ Ha0] | [Hnn (l & Hl & Hlen)]]; [lia |].
    assert (Hsz : to_size_t (allocated_positionals self * sizeof_Pcc_cell)
                  = allocated_positionals self * sizeof_Pcc_cell).
    { unfold to_size_t, sizeof_Pcc_cell. apply Z.mod_small. lia. }
    destruct (8 <? allocated_positionals self);
      unfold Parrot_gc_free_memory_chunk, Parrot_gc_free_fixed_size_storage;
      rewrite Hl, ?Hsz; eexists; (split; [reflexivity |]); now repeat split.
Qed.

(** X9: [Parrot_pcc_signature_free] on a consistent signature whose
    aggregate, array and named cells are distinct live blocks: the call
    returns; the collector is asked, in this order, for the release of the
    array (to the chunk allocator when the capacity is above 8, else to the
    pool with the size of the capacity; not at all for capacity 0), of each
    named cell, and of the aggregate; afterwards none of these blocks is
    allocated, the table is gone, and every other block and table is as it
    was. *)
Theorem free_releases_everything
  (self_ptr : ptr) (self : Parrot_Signature) (blk : list Pcc_cell) (m : Mem) :
  storage_ok m self = true ->
  cells m !! self_ptr = Some blk ->
  self_ptr <> positionals self ->
  named_store_ready m self [positionals self; self_ptr] = true ->
  exists m',
    Parrot_pcc_signature_free self_ptr self m = Ok (tt, m')
    /\ gc_log m' = gc_log m ++ array_release self
                   ++ cell_releases (named_buckets m self)
                   ++ [FreeFixed sizeof_Parrot_Signature self_ptr]
    /\ (allocated_positionals self <> 0 -> cells m' !! positionals self = None)
    /\ (forall kv, kv ∈ named_buckets m self -> cells m' !! kv.2 = None)
    /\ cells m' !! self_ptr = None
    /\ (hash self <> NULL -> tables m' !! hash self = None)
    /\ (forall q, q <> positionals self -> q <> self_ptr ->
                  q ∉ (named_buckets m self).*2 -> cells m' !! q = cells m !! q)
    /\ (forall h, h <> hash self -> tables m' !! h = tables m !! h).
Proof.
  intros Hok Hself Hne Hready.
  destruct (free_array_step self m Hok) as (mA & HA & HcA & HtA & HlA).
  (* the named store, in the memory the first statement leaves *)
  assert (HB : exists mB,
             (if bool_decide (hash self <> NULL) then
                parrot_hash_iterate (hash self) (fun bucket : Z * Z => FREE_CELL bucket.2) >>
                Parrot_hash_destroy (hash self)
              else ret tt) mA = Ok (tt, mB)
             /\ (forall q, cells mB !! q
                           = if bool_decide (q ∈ (named_buckets m self).*2) then None
                             else cells mA !! q)
             /\ tables mB = (if bool_decide (hash self = NULL) then tables m
                             else delete (hash self) (tables m))
             /\ gc_log mB = gc_log mA ++ cell_releases (named_buckets m self)).
  { destruct (named_store_ready_inv m self _ Hready)
      as [[Hh Hb] | [Hh (b & Hb & Hnb & Hnd & Hall)]].
    - rewrite bool_decide_eq_false_2 by (intros E; now apply E).
      rewrite bool_decide_eq_true_2 by assumption.
      exists mA. rewrite Hb. simpl. rewrite app_nil_r. now repeat split.
    - rewrite bool_decide_eq_true_2 by assumption.
      rewrite (bool_decide_eq_false_2 (hash self = NULL)) by assumption.
      assert (HbA : tables mA !! hash self = Some b) by now rewrite HtA.
      destruct (release_table (hash self) b mA HbA Hnd)
        as (m1 & mB & Hiter & Hdestroy & Hcells & Htab & Hlog).
      { intros kv Hin. destruct (Hall kv Hin) as [Hlive Hav].
        rewrite HcA. destruct (allocated_positionals self =? 0); [assumption |].
        rewrite lookup_delete_ne; [assumption |].
        intros E. apply Hav. rewrite <- E. left. }
      exists mB. split.
      { now rewrite (bind_Ok _ _ _ _ _ Hiter). }
      rewrite Hnb. split; [exact Hcells |]. split; [now rewrite Htab, HtA | exact Hlog]. }
  destruct HB as (mB & HB & HcB & HtB & HlB).
  assert (Hnotin : (self_ptr ∉ (named_buckets m self).*2)
                   /\ (positionals self ∉ (named_buckets m self).*2)).
  { destruct (named_store_ready_inv m self _ Hready)
      as [[_ Hb] | [_ (b & _ & Hnb & _ & Hall)]].
    - rewrite Hb. split; apply not_elem_of_nil.
    - rewrite Hnb. split; intros Hin;
        apply list_elem_of_fmap in Hin as (kv & E & Hin);
        destruct (Hall kv Hin) as [_ Hav]; apply Hav; rewrite <- E.
      + right. left.
      + left. }
  destruct Hnotin as [Hself_notin Hpos_notin].
  assert (HselfB : cells mB !! self_ptr = Some blk).
  { rewrite HcB, bool_decide_eq_false_2 by assumption. rewrite HcA.
    destruct (allocated_positionals self =? 0); [assumption |].
    now rewrite lookup_delete_ne by congruence. }
  set (m' := log_event (FreeFixed sizeof_Parrot_Signature self_ptr)
               (set_cells (delete self_ptr (cells mB)) mB)).
  exists m'. split.
  { unfold Parrot_pcc_signature_free.
    rewrite (bind_Ok _ _ _ _ _ HA). cbv beta.
    rewrite (bind_Ok _ _ _ _ _ HB). cbv beta.
    unfold Parrot_gc_free_fixed_size_storage. now rewrite HselfB. }
  split.
  { unfold m'. simpl. rewrite HlB, HlA. now rewrite <- !app_assoc. }
  split.
  { intros Ha. unfold m'. simpl. rewrite lookup_delete_ne by congruence.
    rewrite HcB, bool_decide_eq_false_2 by assumption. rewrite HcA.
    destruct (Z.eqb_spec (allocated_positionals self) 0); [contradiction |].
    apply lookup_delete_eq. }
  split.
  { intros kv Hin. unfold m'. simpl. apply lookup_delete_None. right.
    rewrite HcB. now rewrite bool_decide_eq_true_2 by (now apply list_elem_of_fmap_2). }
  split; [unfold m'; simpl; apply lookup_delete_eq |].
  split.
  { intros Hh. unfold m'. simpl. rewrite HtB, bool_decide_eq_false_2 by assumption.
    apply lookup_delete_eq. }
  split.
  { intros q Hq1 Hq2 Hq3. unfold m'. simpl. rewrite lookup_delete_ne by congruence.
    rewrite HcB, bool_decide_eq_false_2 by assumption. rewrite HcA.
    destruct (allocated_positionals self =? 0); [reflexivity |].
    now rewrite lookup_delete_ne by congruence. }
  intros h Hh. unfold m'. simpl. rewrite HtB.
  case_bool_decide; [reflexivity |]. now rewrite lookup_delete_ne by congruence.
Qed.

Lemma run_pushes_sane (ops : list push_op) :
  forall (self : Parrot_Signature) (m : Mem),
    Forall (fun op => push_allowed op = true) ops ->
    storage_ok m self = true ->
    num_positionals self + Z.of_nat (length ops) < 2 ^ 59 ->
    capacity_sane self = true ->
    exists self' m',
      run_pushes self ops m = Ok (self', m') /\ capacity_sane self' = true.
Proof.
  induction ops as [| op ops IH]; intros self m Hall Hok Hsz Hsane.
  - now exists self, m.
  - apply Forall_cons in Hall as [Hop Hall]. simpl length in Hsz.
    destruct (storage_ok_inv _ _ Hok) as (Hn & _ & _).
    destruct (run_push_appends self op m Hop Hok ltac:(lia))
      as (self1 & m1 & Hrun & Hok1 & Hn1 & _ & _ & Ha1 & _).
    assert (Hsane1 : capacity_sane self1 = true).
    { unfold capacity_sane. rewrite Ha1. unfold next_capacity.
      destruct (Z.leb_spec (num_positionals self + 1) (allocated_positionals self));
        (match goal with |- context [?x =? 0] => destruct (Z.eqb_spec x 0) as [E | E] end;
         [lia | reflexivity]). }
    destruct (IH self1 m1 Hall Hok1 ltac:(lia) Hsane1) as (self' & m' & Hruns & Hsane').
    exists self', m'. split; [| assumption].
    simpl. now rewrite (bind_Ok _ _ _ _ _ Hrun).
Qed.

(** X10: storage balances.  On a consistent signature without named store,
    any run of allowed pushes followed by [Parrot_pcc_signature_free]
    returns and leaves exactly the blocks that were there besides the array
    and the aggregate: every array the pushes allocated while growing was
    released, by a push or by the free, and no other block was touched. *)
Theorem pushes_then_free_restore_memory
  (self_ptr : ptr) (self : Parrot_Signature) (blk : list Pcc_cell)
  (ops : list push_op) (m : Mem) :
  storage_ok m self = true ->
  capacity_sane self = true ->
  hash self = NULL ->
  cells m !! NULL = None ->
  cells m !! self_ptr = Some blk ->
  self_ptr <> positionals self ->
  Forall (fun op => push_allowed op = true) ops ->
  num_positionals self + Z.of_nat (length ops) < 2 ^ 59 ->
  exists s m1 m2,
    run_pushes self ops m = Ok (s, m1)
    /\ Parrot_pcc_signature_free self_ptr s m1 = Ok (tt, m2)
    /\ cells m2 = delete self_ptr (other_blocks m self)
    /\ tables m2 = tables m.
Proof.
  intros Hok Hsane Hh Hnull Hself Hne Hall Hsz.
  destruct (run_pushes_blocks ops self m Hall Hok Hsz Hnull)
    as (s & m1 & Hrun & Hok1 & Hh1 & Ht1 & Hb1 & Hnull1).
  destruct (run_pushes_sane ops self m Hall Hok Hsz Hsane) as (s' & m1' & Hrun' & Hsane1).
  rewrite Hrun in Hrun'. injection Hrun' as <- <-.
  assert (Hother : other_blocks m1 s !! self_ptr = Some blk).
  { rewrite Hb1. unfold other_blocks. now rewrite lookup_delete_ne by congruence. }
  assert (Hne1 : self_ptr <> positionals s).
  { intros E. unfold other_blocks in Hother. rewrite E, lookup_delete_eq in Hother.
    discriminate. }
  destruct (free_array_step s m1 Hok1) as (mA & HA & HcA & HtA & _).
  assert (HcA' : cells mA = other_blocks m1 s).
  { rewrite HcA. unfold other_blocks, capacity_sane in *.
    destruct (Z.eqb_spec (allocated_positionals s) 0); [| reflexivity].
    simpl in Hsane1. apply bool_decide_eq_true in Hsane1. rewrite Hsane1.
    symmetry. now apply delete_id. }
  set (m2 := log_event (FreeFixed sizeof_Parrot_Signature self_ptr)
               (set_cells (delete self_ptr (cells mA)) mA)).
  exists s, m1, m2. split; [exact Hrun |]. split.
  { unfold Parrot_pcc_signature_free.
    rewrite (bind_Ok _ _ _ _ _ HA). cbv beta.
    rewrite Hh1, Hh.
    rewrite bool_decide_eq_false_2 by (intros E; now apply E).
    unfold bind at 1, ret. unfold Parrot_gc_free_fixed_size_storage.
    assert (HselfA : cells mA !! self_ptr = Some blk) by (rewrite HcA'; exact Hother).
    now rewrite HselfA. }
  split.
  { unfold m2. simpl. now rewrite HcA', Hb1. }
  unfold m2. simpl. now rewrite HtA, Ht1.
Qed.

(** ** Pushes and getters together *)

(** X1: each positional push on a consistent signature (an object push with
    a reference that is not on the free list) returns and appends exactly
    its cell; each of the four getters at the new index then answers with
    the coercion of that cell to its type, and the getter of the cell's own
    kind gives back the value pushed. *)
Theorem push_then_get_coerces (self : Parrot_Signature) (op : push_op) (m : Mem) :
  push_allowed op = true ->
  storage_ok m self = true ->
  num_positionals self + 1 < 2 ^ 59 ->
  exists self' m',
    run_push self op m = Ok (self', m')
    /\ appended m self (cell_of_push op) m' self'
    /\ Parrot_pcc_signature_get_integer self' (num_positionals self) m'
       = autobox_intval (cell_of_push op) m'
    /\ Parrot_pcc_signature_get_number self' (num_positionals self) m'
       = autobox_floatval (cell_of_push op) m'
    /\ Parrot_pcc_signature_get_string self' (num_positionals self) m'
       = autobox_string (cell_of_push op) m'
    /\ Parrot_pcc_signature_get_pmc self' (num_positionals self) m'
       = autobox_pmc (cell_of_push op) m'
    /\ get_native self' (num_positionals self) op m' = Ok (op, m').
Proof.
  intros Hop Hok Hsz.
  destruct (run_push_appends self op m Hop Hok Hsz) as (self' & m' & Hrun & Happ).
  exists self', m'. split; [exact Hrun |]. split; [exact Happ |].
  destruct (storage_ok_inv _ _ Hok) as (Hn & _ & _).
  destruct Happ as (_ & _ & Hcells & _).
  pose proof (live_cells_length m self Hok) as Hlen.
  assert (Hc : live_cells m' self' !! Z.to_nat (num_positionals self)
               = Some (cell_of_push op)).
  { rewrite Hcells, <- Hlen. now rewrite list_lookup_middle. }
  destruct (get_live m' self' (num_positionals self) _ ltac:(lia) Hc)
    as (Hgi & Hgn & Hgs & Hgp).
  split; [exact Hgi |]. split; [exact Hgn |]. split; [exact Hgs |].
  split; [exact Hgp |]. apply get_native_live; [lia | exact Hc].
Qed.

(** X2: a run of [N] allowed pushes on a consistent signature returns; the
    count grows by [N]; every index that was live is read as before, by
    each getter; and each new index, read by the getter of its own kind,
    gives back the value pushed there, in push order. *)
Theorem pushes_read_back (self : Parrot_Signature) (ops : list push_op) (m : Mem) :
  Forall (fun op => push_allowed op = true) ops ->
  storage_ok m self = true ->
  num_positionals self + Z.of_nat (length ops) < 2 ^ 59 ->
  exists self' m',
    run_pushes self ops m = Ok (self', m')
    /\ Parrot_pcc_signature_num_positionals self'
       = Parrot_pcc_signature_num_positionals self + Z.of_nat (length ops)
    /\ (forall (i : INTVAL), 0 <= i < num_positionals self ->
          Parrot_pcc_signature_get_integer self' i m'
            = match Parrot_pcc_signature_get_integer self i m with
              | Ok (v, _) => Ok (v, m') | Abort msg => Abort msg | Fault => Fault
              end
          /\ Parrot_pcc_signature_get_number self' i m'
               = match Parrot_pcc_signature_get_number self i m with
                 | Ok (v, _) => Ok (v, m') | Abort msg => Abort msg | Fault => Fault
                 end
          /\ Parrot_pcc_signature_get_string self' i m'
               = match Parrot_pcc_signature_get_string self i m with
                 | Ok (v, _) => Ok (v, m') | Abort msg => Abort msg | Fault => Fault
                 end
          /\ Parrot_pcc_signature_get_pmc self' i m'
               = match Parrot_pcc_signature_get_pmc self i m with
                 | Ok (v, _) => Ok (v, m') | Abort msg => Abort msg | Fault => Fault
                 end)
    /\ (forall (i : nat) (op : push_op), ops !! i = Some op ->
          get_native self' (num_positionals self + Z.of_nat i) op m' = Ok (op, m')).
Proof.
  intros Hall Hok Hsz.
  destruct (run_pushes_appends ops self m Hall Hok Hsz)
    as (self' & m' & Hrun & Hok' & Hn & Hl).
  destruct (storage_ok_inv _ _ Hok) as (Hn0 & _ & _).
  pose proof (live_cells_length m self Hok) as Hlen.
  exists self', m'. split; [exact Hrun |]. split; [exact Hn |]. split.
  - intros i Hi.
    destruct (lookup_lt_is_Some_2 (live_cells m self) (Z.to_nat i) ltac:(lia)) as [c Hc].
    assert (Hc' : live_cells m' self' !! Z.to_nat i = Some c).
    { rewrite Hl. rewrite lookup_app_l by lia. exact Hc. }
    destruct (get_live m self i c ltac:(lia) Hc) as (Hgi & Hgn & Hgs & Hgp).
    destruct (get_live m' self' i c ltac:(lia) Hc') as (Hgi' & Hgn' & Hgs' & Hgp').
    rewrite Hgi, Hgn, Hgs, Hgp, Hgi', Hgn', Hgs', Hgp'.
    destruct c as [v | n | s | p |]; simpl; try (now repeat split).
    unfold autobox_intval. destruct (INTVAL_of_FLOATVAL n); now repeat split.
  - intros i op Hi. apply get_native_live; [lia |].
    rewrite Hl.
    replace (Z.to_nat (num_positionals self + Z.of_nat i))
      with (length (live_cells m self) + i)%nat by lia.
    rewrite lookup_app_r by lia.
    replace (length (live_cells m self) + i - length (live_cells m self))%nat
      with i by lia.
    now rewrite list_lookup_fmap, Hi.
Qed.

(** X5: pushes that fit the capacity ask nothing of the collector: on a
    consistent signature with room for [N] more cells, a run of [N] allowed
    pushes returns with the same array and capacity, an unchanged collector
    log and unchanged tables. *)
Theorem pushes_within_capacity_allocate_nothing
  (self : Parrot_Signature) (ops : list push_op) (m : Mem) :
  Forall (fun op => push_allowed op = true) ops ->
  storage_ok m self = true ->
  num_positionals self + Z.of_nat (length ops) <= allocated_positionals self ->
  exists self' m',
    run_pushes self ops m = Ok (self', m')
    /\ gc_log m' = gc_log m
    /\ positionals self' = positionals self
    /\ allocated_positionals self' = allocated_positionals self
    /\ dom (cells m') = dom (cells m)
    /\ live_cells m' self' = live_cells m self ++ map cell_of_push ops.
Proof.
  intros Hall Hok Hsz.
  destruct (run_pushes_within_capacity ops self m Hall Hok Hsz)
    as (self' & m' & Hrun & Hok' & Hn & Hp & Ha & Hlog & Hl).
  exists self', m'. split; [exact Hrun |]. split; [exact Hlog |].
  split; [exact Hp |]. split; [exact Ha |]. split; [| exact Hl].
  clear Hok' Hn Hp Ha Hlog Hl.
  revert self m self' m' Hall Hok Hsz Hrun.
  induction ops as [| op ops IH]; intros self m self' m' Hall Hok Hsz Hrun.
  - simpl in Hrun. now injection Hrun as _ <-.
  - apply Forall_cons in Hall as [Hop Hall]. simpl length in Hsz.
    destruct (storage_ok_inv _ _ Hok) as (Hn0 & Hbound & Hst).
    destruct (run_push_appends self op m Hop Hok ltac:(lia))
      as (self1 & m1 & Hrun1 & Hok1 & Hn1 & _ & Hp1 & Ha1 & _ & _ & Hframe & _).
    simpl in Hrun. rewrite (bind_Ok _ _ _ _ _ Hrun1) in Hrun.
    unfold next_array in Hp1. unfold next_capacity in Ha1.
    destruct (Z.leb_spec (num_positionals self + 1) (allocated_positionals self));
      [| lia].
    rewrite (IH self1 m1 self' m' Hall Hok1 ltac:(lia) Hrun).
    destruct Hst as [[_ E] | [Hnn (l & Hl & _)]]; [lia |].
    destruct (storage_ok_inv _ _ Hok1) as (_ & _ & [[E _] | [_ (l1 & Hl1 & _)]]);
      [congruence |].
    apply set_eq. intros q. rewrite !elem_of_dom.
    destruct (decide (q = positionals self)) as [-> | Hq].
    + rewrite Hl. rewrite <- Hp1, Hl1. split; eauto.
    + rewrite Hframe by congruence. reflexivity.
Qed.

(** X17: the positional getters never write to the signature's storage.
    On a consistent signature and for every index, [get_number],
    [get_string] and [get_pmc] return with the array, the named cells, the
    tables and the storage log as they were (the string or object a
    coercion makes is the host's); [get_integer] does the same unless the
    index is live and holds a float whose integral part is not an INTVAL
    (or that is infinite or not a number), the one case in which its
    conversion is undefined. *)
Theorem positional_getters_never_write
  (self : Parrot_Signature) (key : INTVAL) (m : Mem) :
  storage_ok m self = true ->
  (exists n, Parrot_pcc_signature_get_number self key m = Ok (n, m))
  /\ (exists s, Parrot_pcc_signature_get_string self key m = Ok (s, m))
  /\ (exists p, Parrot_pcc_signature_get_pmc self key m = Ok (p, m))
  /\ ((exists i, Parrot_pcc_signature_get_integer self key m = Ok (i, m))
      \/ (Parrot_pcc_signature_get_integer self key m = Fault
          /\ 0 <= key < num_positionals self
          /\ exists n, live_cells m self !! Z.to_nat key = Some (FLOATCELL n)
                       /\ INTVAL_of_FLOATVAL n = None)).
Proof.
  intros Hok.
  destruct (Z.le_gt_cases (num_positionals self) key) as [Hhigh | Hlt];
    [| destruct (Z.lt_ge_cases key 0) as [Hneg | Hge]].
  - unfold Parrot_pcc_signature_get_integer, Parrot_pcc_signature_get_number,
      Parrot_pcc_signature_get_string, Parrot_pcc_signature_get_pmc.
    rewrite out_of_range_test by (now left). unfold ret.
    split; [eauto |]. split; [eauto |]. split; [eauto |]. left. eauto.
  - unfold Parrot_pcc_signature_get_integer, Parrot_pcc_signature_get_number,
      Parrot_pcc_signature_get_string, Parrot_pcc_signature_get_pmc.
    rewrite out_of_range_test by (now right). unfold ret.
    split; [eauto |]. split; [eauto |]. split; [eauto |]. left. eauto.
  - pose proof (live_cells_length m self Hok) as Hlen.
    destruct (lookup_lt_is_Some_2 (live_cells m self) (Z.to_nat key) ltac:(lia))
      as [c Hc].
    destruct (get_live m self key c Hge Hc) as (Hgi & Hgn & Hgs & Hgp).
    rewrite Hgi, Hgn, Hgs, Hgp.
    destruct c as [v | n | s | p |]; unfold autobox_intval, autobox_floatval,
      autobox_string, autobox_pmc, ret;
      (split; [eauto |]); (split; [eauto |]); (split; [eauto |]);
      try (left; eauto; fail).
    destruct (INTVAL_of_FLOATVAL n) as [z |] eqn:E; [left; eauto |].
    right. split; [reflexivity |]. split; [lia |]. eauto.
Qed.

(** X18: [get_cell_at] on a consistent signature, for an index [key >= 0]:
    the call returns a slot inside the array, so a write through it is
    within bounds; the count and the live cells are unchanged: a cell
    written at or past the count is not visible to the getters. *)
Theorem get_cell_at_slot (self : Parrot_Signature) (key : INTVAL) (m : Mem) :
  storage_ok m self = true ->
  0 <= key -> key + 1 < 2 ^ 59 ->
  exists self' m' l,
    get_cell_at self key m = Ok ((self', (positionals self', key)), m')
    /\ cells m' !! positionals self' = Some l
    /\ key < Z.of_nat (length l)
    /\ num_positionals self' = num_positionals self
    /\ live_cells m' self' = live_cells m self
    /\ storage_ok m' self' = true
    /\ (num_positionals self <= key ->
        forall c : Pcc_cell,
          exists m'', store_cell (positionals self') key c m' = Ok (tt, m'')
                      /\ live_cells m'' self' = live_cells m self
                      /\ Parrot_pcc_signature_get_integer self' key m'' = Ok (0, m'')).
Proof.
  intros Hok Hkey Hsz.
  destruct (ensure_any_size self (key + 1) m Hok Hsz)
    as (self' & m' & Hrun & _ & Hge & _ & Hn & Hl & Hok' & _).
  destruct (storage_ok_inv _ _ Hok') as (_ & _ & [[_ E] | [_ (l & Hcell & Hlen)]]);
    [lia |].
  exists self', m', l. split.
  { unfold get_cell_at.
    rewrite wrap_small by (unfold INTVAL_MIN, INTVAL_MAX; lia).
    now rewrite (bind_Ok _ _ _ _ _ Hrun). }
  split; [exact Hcell |]. split; [lia |]. split; [exact Hn |].
  split; [exact Hl |]. split; [exact Hok' |].
  intros Hout c.
  eexists. split; [apply (store_cell_Ok _ _ l); [exact Hcell | lia] |]. split.
  - rewrite <- Hl. unfold live_cells. simpl. rewrite lookup_insert_eq, Hcell.
    apply take_insert_ge. lia.
  - unfold Parrot_pcc_signature_get_integer.
    now rewrite out_of_range_test by (left; lia).
Qed.

(** ** Named pushes on a well-formed store *)

Lemma table_ok_inv (m : Mem) (b : Hash) :
  table_ok m b = true ->
  named_ok m b = true
  /\ NoDup (b.*2)
  /\ (forall kv, kv ∈ b -> kv.2 <> NULL)
  /\ NoDup (string_text <$> b.*1).
Proof.
  unfold table_ok. rewrite !andb_true_iff.
  intros [[[H1 H2] H3] H4]. split; [assumption |].
  split; [now apply bool_decide_eq_true in H2 |]. split.
  - rewrite forallb_forall in H3. intros kv Hin.
    apply list_elem_of_In in Hin. specialize (H3 kv Hin).
    now apply negb_true_iff, Z.eqb_neq in H3.
  - now apply bool_decide_eq_true in H4.
Qed.

Lemma key_eqb_true (k1 k2 : ptr) :
  key_eqb k1 k2 = true <-> string_text k1 = string_text k2.
Proof. unfold key_eqb. apply bool_decide_eq_true. Qed.

Lemma key_eqb_false (k1 k2 : ptr) :
  key_eqb k1 k2 = false <-> string_text k1 <> string_text k2.
Proof. unfold key_eqb. apply bool_decide_eq_false. Qed.

Lemma find_bucket_Some_elem (k c : ptr) (b : Hash) :
  find_bucket k b = Some c ->
  exists k0, (k0, c) ∈ b /\ string_text k0 = string_text k.
Proof.
  induction b as [| [k' v'] b IH]; simpl; [discriminate |].
  destruct (key_eqb k' k) eqn:E.
  - intros [= <-]. exists k'. split; [left | now apply key_eqb_true].
  - intros Hf. destruct (IH Hf) as (k0 & Hin & Ht). exists k0. split; [now right | assumption].
Qed.

Lemma find_bucket_None_elem (k : ptr) (b : Hash) :
  find_bucket k b = None ->
  forall kv, kv ∈ b -> string_text kv.1 <> string_text k.
Proof.
  induction b as [| [k' v'] b IH]; simpl; intros Hf kv Hin.
  - now apply elem_of_nil in Hin.
  - destruct (key_eqb k' k) eqn:E; [discriminate |].
    apply elem_of_cons in Hin as [-> | Hin].
    + now apply key_eqb_false.
    + now apply IH.
Qed.

Lemma put_bucket_absent_app (k c : ptr) (b : Hash) :
  find_bucket k b = None -> put_bucket k c b = b ++ [(k, c)].
Proof.
  induction b as [| [k' v'] b IH]; simpl; intros Hf; [reflexivity |].
  destruct (key_eqb k' k); [discriminate |]. now rewrite IH.
Qed.

Lemma find_bucket_app_other (k k' c : ptr) (b : Hash) :
  string_text k' <> string_text k ->
  find_bucket k' (b ++ [(k, c)]) = find_bucket k' b.
Proof.
  intros Hne. induction b as [| [k0 v0] b IH]; simpl.
  - assert (E : key_eqb k k' = false) by (apply key_eqb_false; congruence).
    now rewrite E.
  - now rewrite IH.
Qed.

Lemma named_entries_one (k c : ptr) (b : Hash) :
  NoDup (string_text <$> b.*1) ->
  find_bucket k b = Some c ->
  length (named_entries k b) = 1%nat.
Proof.
  unfold named_entries.
  induction b as [| [k' v'] b IH]; simpl; [discriminate |].
  intros Hnd Hf. apply NoDup_cons in Hnd as [Hnotin Hnd].
  destruct (key_eqb k' k) eqn:E.
  - simpl. f_equal.
    assert (Hnone : forall kv, kv ∈ b -> key_eqb kv.1 k = false).
    { intros kv Hin. apply key_eqb_false. intros Ht. apply Hnotin.
      apply key_eqb_true in E. rewrite E, <- Ht.
      apply list_elem_of_fmap_2. now apply list_elem_of_fmap_2. }
    clear -Hnone. induction b as [| kv b IH]; [reflexivity |].
    simpl. rewrite (Hnone kv) by left. apply IH. intros kv' Hin. apply Hnone. now right.
  - now apply IH.
Qed.

Lemma distinct_cells (b : Hash) (k1 k2 c : ptr) :
  NoDup (b.*2) -> (k1, c) ∈ b -> (k2, c) ∈ b -> k1 = k2.
Proof.
  intros Hnd H1 H2.
  apply list_elem_of_lookup in H1 as [i Hi]. apply list_elem_of_lookup in H2 as [j Hj].
  assert (Hi2 : b.*2 !! i = Some c) by (now rewrite list_lookup_fmap, Hi).
  assert (Hj2 : b.*2 !! j = Some c) by (now rewrite list_lookup_fmap, Hj).
  pose proof (NoDup_lookup _ _ _ _ Hnd Hi2 Hj2) as ->. congruence.
Qed.

(** What a named push (any kind) does on a well-formed store: one cell is
    written, the cell of the key when the key is present, else a new cell
    from the pool, for which a bucket is added at the end. *)
Lemma named_store_effect
  (self : Parrot_Signature) (k : ptr) (new : Pcc_cell) (b : Hash) (m : Mem) :
  tables m !! hash self = Some b ->
  table_ok m b = true ->
  let c := default (fresh_ptr m) (find_bucket k b) in
  let b' := match find_bucket k b with Some _ => b | None => b ++ [(k, c)] end in
  exists m',
    (let* cell := get_cell_named self k in store_cell cell 0 new) m = Ok (tt, m')
    /\ cells m' = <[c := [new]]> (cells m)
    /\ tables m' = <[hash self := b']> (tables m)
    /\ gc_log m' = gc_log m ++ match find_bucket k b with
                               | Some _ => []
                               | None => [AllocFixed sizeof_Pcc_cell c]
                               end
    /\ c <> NULL
    /\ find_bucket k b' = Some c.
Proof.
  intros Hb Hok c b'.
  destruct (table_ok_inv m b Hok) as (Hnamed & Hnd & Hnn & Hkeys).
  destruct (find_bucket k b) as [c0 |] eqn:Hk; simpl in c, b'.
  - destruct (find_bucket_Some_elem k c b Hk) as (k0 & Hin & _).
    pose proof (Hnn _ Hin) as Hc. simpl in Hc.
    destruct (named_ok_bucket m b _ Hnamed Hin) as [_ [old Hold]]. simpl in Hold.
    pose proof (get_cell_named_present self k c b m Hb Hk Hc) as Hcell.
    assert (Hstore := store_cell_Ok c 0 [old] new m Hold ltac:(simpl; lia)).
    simpl in Hstore.
    eexists. split.
    { rewrite (bind_Ok _ _ _ _ _ Hcell). exact Hstore. }
    simpl. split; [reflexivity |]. split; [now rewrite insert_id |].
    split; [now rewrite app_nil_r |]. now split.
  - destruct (fresh_ptr_spec m) as (Hc0 & _ & _). fold c in Hc0.
    set (m1 := log_event (AllocFixed sizeof_Pcc_cell c)
                 (set_cells (<[c := [NOCELL]]> (cells m)) m)).
    set (m2 := set_tables (<[hash self := put_bucket k c b]> (tables m1)) m1).
    assert (Hcell : get_cell_named self k m = Ok (c, m2)).
    { unfold get_cell_named.
      assert (Hget : Parrot_hash_get (hash self) k m = Ok (NULL, m)).
      { unfold Parrot_hash_get, with_table. now rewrite Hb, Hk. }
      rewrite (bind_Ok _ _ _ _ _ Hget). cbv beta.
      rewrite bool_decide_eq_true_2 by reflexivity.
      assert (Halloc : ALLOC_CELL m = Ok (c, m1)) by reflexivity.
      rewrite (bind_Ok _ _ _ _ _ Halloc). cbv beta.
      assert (Hput : Parrot_hash_put (hash self) k c m1 = Ok (tt, m2)).
      { unfold Parrot_hash_put, with_table.
        change (tables m1) with (tables m). now rewrite Hb. }
      now rewrite (bind_Ok _ _ _ _ _ Hput). }
    assert (Hstore := store_cell_Ok c 0 [NOCELL] new m2
                        ltac:(unfold m2, m1; simpl; apply lookup_insert_eq)
                        ltac:(simpl; lia)).
    simpl in Hstore.
    eexists. split.
    { rewrite (bind_Ok _ _ _ _ _ Hcell). exact Hstore. }
    unfold m2, m1. simpl. rewrite insert_insert_eq.
    rewrite put_bucket_absent_app by assumption.
    split; [reflexivity |]. split; [reflexivity |]. split; [reflexivity |].
    split; [assumption |].
    unfold b'. rewrite <- (put_bucket_absent_app k c b Hk).
    now destruct (put_bucket_absent k c b Hk).
Qed.

(** A named push keeps the store well-formed. *)
Lemma table_ok_after_push (k c : ptr) (new : Pcc_cell) (b : Hash) (m m' : Mem) :
  table_ok m b = true ->
  k <> NULL ->
  c = default (fresh_ptr m) (find_bucket k b) ->
  cells m' = <[c := [new]]> (cells m) ->
  table_ok m' (match find_bucket k b with Some _ => b | None => b ++ [(k, c)] end)
  = true.
Proof.
  intros Hok Hk Hc Hcells.
  destruct (table_ok_inv m b Hok) as (Hnamed & Hnd & Hnn & Hkeys).
  assert (Hold : forall kv, kv ∈ b ->
             negb (kv.1 =? NULL)
             && match cells m' !! kv.2 with Some [_] => true | _ => false end = true).
  { intros kv Hin. destruct (named_ok_bucket m b kv Hnamed Hin) as [Hk1 [x Hx]].
    apply andb_true_iff. split; [now apply negb_true_iff, Z.eqb_neq |].
    rewrite Hcells. destruct (decide (c = kv.2)) as [-> | Hne].
    - now rewrite lookup_insert_eq.
    - now rewrite lookup_insert_ne, Hx by assumption. }
  unfold table_ok, named_ok.
  destruct (find_bucket k b) as [c0 |] eqn:Hf.
  - rewrite !andb_true_iff. split; [split; [split |] |].
    + apply forallb_forall. intros kv Hin. apply Hold. now apply list_elem_of_In.
    + now apply bool_decide_eq_true.
    + apply forallb_forall. intros kv Hin. apply negb_true_iff, Z.eqb_neq.
      apply Hnn. now apply list_elem_of_In.
    + now apply bool_decide_eq_true.
  - simpl in Hc. destruct (fresh_ptr_spec m) as (Hc0 & Hcfresh & _). rewrite <- Hc in *.
    rewrite !andb_true_iff. split; [split; [split |] |].
    + apply forallb_forall. intros kv Hin. apply list_elem_of_In in Hin.
      apply elem_of_app in Hin as [Hin | Hin]; [now apply Hold |].
      apply list_elem_of_singleton in Hin as ->. simpl.
      apply andb_true_iff. split; [now apply negb_true_iff, Z.eqb_neq |].
      now rewrite Hcells, lookup_insert_eq.
    + apply bool_decide_eq_true. rewrite fmap_app. simpl.
      apply NoDup_app. split; [assumption |]. split; [| apply NoDup_singleton].
      intros v Hv Hv'. apply list_elem_of_singleton in Hv' as ->.
      apply list_elem_of_fmap in Hv as (kv & E & Hin).
      destruct (named_ok_bucket m b kv Hnamed Hin) as [_ [x Hx]].
      rewrite <- E in Hx. congruence.
    + apply forallb_forall. intros kv Hin. apply negb_true_iff, Z.eqb_neq.
      apply list_elem_of_In in Hin.
      apply elem_of_app in Hin as [Hin | Hin]; [now apply Hnn |].
      now apply list_elem_of_singleton in Hin as ->.
    + apply bool_decide_eq_true. rewrite !fmap_app. simpl.
      apply NoDup_app. split; [assumption |]. split; [| apply NoDup_singleton].
      intros t Ht Ht'. apply list_elem_of_singleton in Ht' as ->.
      apply list_elem_of_fmap in Ht as (k0 & E & Hin).
      apply list_elem_of_fmap in Hin as (kv & -> & Hin).
      now apply (find_bucket_None_elem k b Hf kv Hin).
Qed.

Lemma get_native_named_reads
  (self : Parrot_Signature) (k : ptr) (op : push_op) (m : Mem) :
  named_reads self k (cell_of_push op) m ->
  get_native_named self k op m = Ok (op, m).
Proof.
  intros (_ & Hgi & Hgn & Hgs & Hgp).
  destruct op; unfold get_native_named, bind; simpl in *;
    rewrite ?Hgi, ?Hgn, ?Hgs, ?Hgp; reflexivity.
Qed.

(** X15: a named push of any kind, for a non-null key, on a well-formed
    named store: the call returns and the store is well-formed again, with
    exactly one entry for the key; the named getter of the pushed kind gives
    back the value, the other getters its coercion, and [exists_named]
    answers 1.  A key that was present keeps its bucket and its cell and
    nothing is allocated; a key that was absent gets one cell from the pool
    and one bucket after the others. *)
Theorem named_push_round_trip
  (self : Parrot_Signature) (k : ptr) (op : push_op) (b : Hash) (m : Mem) :
  hash self <> NULL ->
  tables m !! hash self = Some b ->
  table_ok m b = true ->
  k <> NULL ->
  exists m' b',
    run_push_named self k op m = Ok (tt, m')
    /\ tables m' !! hash self = Some b'
    /\ table_ok m' b' = true
    /\ length (named_entries k b') = 1%nat
    /\ named_reads self k (cell_of_push op) m'
    /\ get_native_named self k op m' = Ok (op, m')
    /\ b' = match find_bucket k b with
            | Some _ => b
            | None => b ++ [(k, fresh_ptr m)]
            end
    /\ gc_log m' = gc_log m ++ match find_bucket k b with
                               | Some _ => []
                               | None => [AllocFixed sizeof_Pcc_cell (fresh_ptr m)]
                               end.
Proof.
  intros Hh Hb Hok Hk.
  destruct (named_store_effect self k (cell_of_push op) b m Hb Hok)
    as (m' & Hrun0 & Hcells & Htab & Hlog & Hc & Hfind).
  set (c := default (fresh_ptr m) (find_bucket k b)) in *.
  set (b' := match find_bucket k b with Some _ => b | None => b ++ [(k, c)] end) in *.
  assert (Hrun : run_push_named self k op m = Ok (tt, m')) by (destruct op; exact Hrun0).
  assert (Hb' : tables m' !! hash self = Some b') by (rewrite Htab; apply lookup_insert_eq).
  assert (Hok' : table_ok m' b' = true)
    by (exact (table_ok_after_push k c _ b m m' Hok Hk eq_refl Hcells)).
  assert (Hreads : named_reads self k (cell_of_push op) m').
  { apply (named_queries_present self k c b'); try assumption.
    rewrite Hcells. apply lookup_insert_eq. }
  exists m', b'. split; [exact Hrun |]. split; [exact Hb' |]. split; [exact Hok' |].
  split.
  { destruct (table_ok_inv m' b' Hok') as (_ & _ & _ & Hkeys).
    exact (named_entries_one k c b' Hkeys Hfind). }
  split; [exact Hreads |]. split; [now apply get_native_named_reads |].
  unfold b', c in *. destruct (find_bucket k b); now split.
Qed.

(** X16: a named push for one key leaves every other key as it was: on a
    well-formed store, a key [k'] with another text than the pushed key is
    still present afterwards and every named getter answers for [k'] what
    it answered before. *)
Theorem named_push_keeps_other_keys
  (self : Parrot_Signature) (k k' c' : ptr) (op : push_op) (b : Hash) (m : Mem) :
  hash self <> NULL ->
  tables m !! hash self = Some b ->
  table_ok m b = true ->
  string_text k' <> string_text k ->
  find_bucket k' b = Some c' ->
  exists m' x,
    run_push_named self k op m = Ok (tt, m')
    /\ cells m !! c' = Some [x]
    /\ named_reads self k' x m
    /\ named_reads self k' x m'.
Proof.
  intros Hh Hb Hok Hne Hk'.
  destruct (table_ok_inv m b Hok) as (Hnamed & Hnd & Hnn & Hkeys).
  destruct (find_bucket_Some_elem k' c' b Hk') as (k0' & Hin' & Ht').
  pose proof (Hnn _ Hin') as Hc'. simpl in Hc'.
  destruct (named_ok_bucket m b _ Hnamed Hin') as [_ [x Hx]]. simpl in Hx.
  destruct (named_store_effect self k (cell_of_push op) b m Hb Hok)
    as (m' & Hrun0 & Hcells & Htab & _ & Hc & Hfind).
  set (c := default (fresh_ptr m) (find_bucket k b)) in *.
  set (b' := match find_bucket k b with Some _ => b | None => b ++ [(k, c)] end) in *.
  assert (Hrun : run_push_named self k op m = Ok (tt, m')) by (destruct op; exact Hrun0).
  exists m', x. split; [exact Hrun |]. split; [exact Hx |]. split.
  { now apply (named_queries_present self k' c' b). }
  assert (Hcc : c <> c').
  { unfold c. destruct (find_bucket k b) as [c0 |] eqn:Hf; simpl.
    - intros ->. destruct (find_bucket_Some_elem k c' b Hf) as (k0 & Hin & Ht).
      pose proof (distinct_cells b k0 k0' c' Hnd Hin Hin'). congruence.
    - destruct (fresh_ptr_spec m) as (_ & Hfresh & _). congruence. }
  apply (named_queries_present self k' c' b'); try assumption.
  - rewrite Htab. apply lookup_insert_eq.
  - unfold b'. destruct (find_bucket k b); [assumption |].
    now rewrite find_bucket_app_other.
  - rewrite Hcells. now rewrite lookup_insert_ne.
Qed.

(** X13: a key that is not in the named store: every named getter answers
    the zero of its type and [exists_named] answers 0; the memory is as it
    was, the key is not added. *)
Theorem named_queries_missing_key
  (self : Parrot_Signature) (k : ptr) (b : Hash) (m : Mem) :
  hash self <> NULL ->
  tables m !! hash self = Some b ->
  find_bucket k b = None ->
  Parrot_pcc_signature_get_integer_named self k m = Ok (0, m)
  /\ Parrot_pcc_signature_get_number_named self k m = Ok (S754_zero false, m)
  /\ Parrot_pcc_signature_get_string_named self k m = Ok (STRINGNULL, m)
  /\ Parrot_pcc_signature_get_pmc_named self k m = Ok (PMCNULL, m)
  /\ Parrot_pcc_signature_exists_named self k m = Ok (0, m).
Proof.
  intros Hh Hb Hk.
  assert (Hkey : Parrot_hash_key_from_string (hash self) k m = Ok (k, m))
    by (unfold Parrot_hash_key_from_string, with_table; now rewrite Hb).
  assert (Hget : Parrot_hash_get (hash self) k m = Ok (NULL, m))
    by (unfold Parrot_hash_get, with_table; now rewrite Hb, Hk).
  assert (Hex : Parrot_hash_exists (hash self) k m = Ok (0, m))
    by (unfold Parrot_hash_exists, with_table; now rewrite Hb, Hk).
  unfold Parrot_pcc_signature_exists_named, Parrot_pcc_signature_get_integer_named,
    Parrot_pcc_signature_get_number_named, Parrot_pcc_signature_get_string_named,
    Parrot_pcc_signature_get_pmc_named.
  rewrite !bool_decide_eq_true_2 by assumption.
  rewrite !(bind_Ok _ _ _ _ _ Hkey). cbv beta.
  rewrite !(bind_Ok _ _ _ _ _ Hget). cbv beta.
  rewrite !bool_decide_eq_false_2 by (intros E; now apply E).
  now repeat split.
Qed.

(** ** The lazily created table *)

(** X11: [get_hash] always returns a non-null handle that is then the
    signature's own, and a second call returns the same handle and changes
    nothing.  With a handle already there, the first call changes nothing
    either; without one, it creates an empty table at an address no other
    table or block has, touches no cell, and the new store holds no key. *)
Theorem get_hash_idempotent (SELF : Parrot_Signature) (m : Mem) (k : ptr) :
  exists h SELF' m',
    get_hash SELF m = Ok ((h, SELF'), m')
    /\ h <> NULL
    /\ hash SELF' = h
    /\ get_hash SELF' m' = Ok ((h, SELF'), m')
    /\ cells m' = cells m
    /\ gc_log m' = gc_log m
    /\ (hash SELF <> NULL -> SELF' = SELF /\ m' = m)
    /\ (hash SELF = NULL ->
        tables m !! h = None /\ cells m !! h = None
        /\ tables m' = <[h := []]> (tables m)
        /\ Parrot_pcc_signature_exists_named SELF' k m' = Ok (0, m')).
Proof.
  unfold get_hash. case_bool_decide as Hh.
  - destruct (fresh_ptr_spec m) as (Hp0 & Hpc & Hpt).
    set (p := fresh_ptr m) in *.
    set (m' := set_tables (<[p := []]> (tables m)) m).
    exists p, (set_hash p SELF), m'.
    assert (Hrun : Parrot_hash_create m = Ok (p, m')) by reflexivity.
    split; [now rewrite (bind_Ok _ _ _ _ _ Hrun) |].
    split; [assumption |]. split; [reflexivity |].
    assert (Hp' : tables m' !! p = Some []) by (unfold m'; simpl; apply lookup_insert_eq).
    split.
    { change (hash (set_hash p SELF)) with p.
      now rewrite bool_decide_eq_false_2 by assumption. }
    split; [reflexivity |]. split; [reflexivity |]. split; [congruence |].
    intros _. split; [assumption |]. split; [assumption |]. split; [reflexivity |].
    unfold Parrot_pcc_signature_exists_named.
    change (hash (set_hash p SELF)) with p.
    rewrite bool_decide_eq_true_2 by assumption.
    assert (Hkey : Parrot_hash_key_from_string p k m' = Ok (k, m'))
      by (unfold Parrot_hash_key_from_string, with_table; now rewrite Hp').
    rewrite (bind_Ok _ _ _ _ _ Hkey). cbv beta.
    unfold Parrot_hash_exists, with_table. now rewrite Hp'.
  - exists (hash SELF), SELF, m. split; [reflexivity |]. split; [assumption |].
    split; [reflexivity |].
    split; [now rewrite bool_decide_eq_false_2 by assumption |].
    split; [reflexivity |].
    split; [reflexivity |]. split; [now split | congruence].
Qed.

(** X12: the first named parameter of a signature.  On a signature without
    named store, [get_hash] followed by a named push of any kind returns;
    the store then holds exactly the pushed key, in one bucket; the named
    getter of the pushed kind gives back the value and [exists_named]
    answers 1 for the key and 0 for a key with another text. *)
Theorem named_round_trip_in_new_store
  (SELF : Parrot_Signature) (k k' : ptr) (op : push_op) (m : Mem) :
  hash SELF = NULL ->
  string_text k' <> string_text k ->
  exists h SELF' m1 m2,
    get_hash SELF m = Ok ((h, SELF'), m1)
    /\ run_push_named SELF' k op m1 = Ok (tt, m2)
    /\ tables m2 !! h = Some [(k, fresh_ptr m1)]
    /\ get_native_named SELF' k op m2 = Ok (op, m2)
    /\ Parrot_pcc_signature_exists_named SELF' k m2 = Ok (1, m2)
    /\ Parrot_pcc_signature_exists_named SELF' k' m2 = Ok (0, m2)
    /\ gc_log m2 = gc_log m ++ [AllocFixed sizeof_Pcc_cell (fresh_ptr m1)].
Proof.
  intros Hh Hne.
  destruct (fresh_ptr_spec m) as (Hp0 & _ & _).
  set (p := fresh_ptr m) in *.
  set (m1 := set_tables (<[p := []]> (tables m)) m).
  set (S1 := set_hash p SELF).
  assert (Hgh : get_hash SELF m = Ok ((p, S1), m1)).
  { unfold get_hash. rewrite bool_decide_eq_true_2 by assumption.
    assert (Hrun : Parrot_hash_create m = Ok (p, m1)) by reflexivity.
    now rewrite (bind_Ok _ _ _ _ _ Hrun). }
  assert (Hb : tables m1 !! hash S1 = Some [])
    by (unfold m1, S1; simpl; apply lookup_insert_eq).
  destruct (named_store_effect S1 k (cell_of_push op) [] m1 Hb eq_refl)
    as (m2 & Hrun0 & Hcells & Htab & Hlog & Hc & Hfind).
  simpl in Hcells, Htab, Hlog, Hc, Hfind.
  assert (Hrun : run_push_named S1 k op m1 = Ok (tt, m2)) by (destruct op; exact Hrun0).
  assert (Hb2 : tables m2 !! hash S1 = Some [(k, fresh_ptr m1)])
    by (rewrite Htab; apply lookup_insert_eq).
  assert (Hreads : named_reads S1 k (cell_of_push op) m2).
  { apply (named_queries_present S1 k (fresh_ptr m1) [(k, fresh_ptr m1)]);
      try assumption.
    rewrite Hcells. apply lookup_insert_eq. }
  exists p, S1, m1, m2. split; [exact Hgh |]. split; [exact Hrun |].
  split; [exact Hb2 |]. split; [now apply get_native_named_reads |].
  split; [now destruct Hreads |]. split; [| exact Hlog].
  unfold Parrot_pcc_signature_exists_named.
  rewrite bool_decide_eq_true_2 by assumption.
  assert (Hkey : Parrot_hash_key_from_string (hash S1) k' m2 = Ok (k', m2))
    by (unfold Parrot_hash_key_from_string, with_table; now rewrite Hb2).
  rewrite (bind_Ok _ _ _ _ _ Hkey). cbv beta.
  unfold Parrot_hash_exists, with_table. rewrite Hb2. simpl.
  assert (E : key_eqb k k' = false) by (apply key_eqb_false; congruence).
  now rewrite E.
Qed.

(** ** The two stores do not disturb each other *)

(** X19: a named push leaves the positionals alone.  On a consistent
    signature with a well-formed named store of which the positional array
    is no cell, a named push of any kind returns with the same live
    positional cells and consistent positional storage. *)
Theorem named_push_keeps_positionals
  (self : Parrot_Signature) (k : ptr) (op : push_op) (b : Hash) (m : Mem) :
  storage_ok m self = true ->
  tables m !! hash self = Some b ->
  table_ok m b = true ->
  positionals self ∉ b.*2 ->
  exists m',
    run_push_named self k op m = Ok (tt, m')
    /\ live_cells m' self = live_cells m self
    /\ storage_ok m' self = true.
Proof.
  intros Hok Hb Htab Hpos.
  destruct (named_store_effect self k (cell_of_push op) b m Hb Htab)
    as (m' & Hrun0 & Hcells & _ & _ & Hc & Hfind).
  set (c := default (fresh_ptr m) (find_bucket k b)) in *.
  assert (Hrun : run_push_named self k op m = Ok (tt, m')) by (destruct op; exact Hrun0).
  assert (Hcp : c <> positionals self \/ positionals self = NULL).
  { unfold c. destruct (find_bucket k b) as [c0 |] eqn:Hf; simpl.
    - left. intros ->. apply Hpos.
      destruct (find_bucket_Some_elem k _ b Hf) as (k0 & Hin & _).
      now apply (list_elem_of_fmap_2 snd) in Hin.
    - destruct (storage_ok_inv _ _ Hok) as (_ & _ & [[E _] | [_ (l & Hl & _)]]).
      + now right.
      + left. destruct (fresh_ptr_spec m) as (_ & Hfresh & _). congruence. }
  assert (Hsame : cells m' !! positionals self = cells m !! positionals self
                  \/ positionals self = NULL).
  { destruct Hcp as [Hne | E]; [left | now right].
    rewrite Hcells. now apply lookup_insert_ne. }
  exists m'. split; [exact Hrun |].
  destruct (storage_ok_inv _ _ Hok) as (Hn & Ha & Hst).
  destruct Hsame as [Hsame | E].
  - split.
    + unfold live_cells. now rewrite Hsame.
    + unfold storage_ok in *. now rewrite Hsame.
  - destruct Hst as [[_ Ha0] | [Hnn _]]; [| contradiction].
    assert (Hn0 : num_positionals self = 0) by lia.
    split.
    + unfold live_cells. rewrite Hn0. simpl.
      destruct (cells m' !! positionals self), (cells m !! positionals self);
        now rewrite ?take_0.
    + unfold storage_ok in *. rewrite bool_decide_eq_true_2 in * by assumption.
      exact Hok.
Qed.

(** X20: a positional push leaves the named store alone.  On a consistent
    signature, with a key that is present and whose cell is not the
    positional array, an allowed positional push returns and every named
    query for the key answers as before. *)
Theorem positional_push_keeps_named
  (self : Parrot_Signature) (op : push_op) (k c : ptr) (b : Hash) (x : Pcc_cell)
  (m : Mem) :
  push_allowed op = true ->
  storage_ok m self = true ->
  num_positionals self + 1 < 2 ^ 59 ->
  hash self <> NULL ->
  tables m !! hash self = Some b ->
  find_bucket k b = Some c -> c <> NULL ->
  cells m !! c = Some [x] ->
  c <> positionals self ->
  exists self' m',
    run_push self op m = Ok (self', m')
    /\ named_reads self k x m
    /\ named_reads self' k x m'.
Proof.
  intros Hop Hok Hsz Hh Hb Hk Hc Hx Hcp.
  destruct (run_push_appends self op m Hop Hok Hsz)
    as (self' & m' & Hrun & _ & _ & _ & Hp & _ & (Hh' & _) & Ht & Hframe & _).
  exists self', m'. split; [exact Hrun |]. split.
  { now apply (named_queries_present self k c b). }
  apply (named_queries_present self' k c b); try assumption.
  - now rewrite Hh'.
  - now rewrite Hh', Ht.
  - rewrite Hframe; [assumption | assumption |].
    rewrite Hp. unfold next_array.
    destruct (num_positionals self + 1 <=? allocated_positionals self); [assumption |].
    destruct (fresh_ptr_spec m) as (_ & Hfresh & _). congruence.
Qed.

End Properties.

(** * The theorems at concrete inputs *)

Import Demo.

Example str_to_int_examples :
  Parrot_str_to_int 100 = 42 /\ Parrot_str_to_int 101 = 0 /\ Parrot_str_to_int 103 = -17.
Proof. repeat split. Qed.

Example conversion_examples :
  FLOATVAL_of_INTVAL 7 = S754_finite false 7881299347898368 (-50)
  /\ INTVAL_of_FLOATVAL sample_float = Some (-3)
  /\ INTVAL_of_FLOATVAL (S754_infinity false) = None
  /\ INTVAL_of_FLOATVAL (S754_finite false 1 64) = None.
Proof. repeat split. Qed.

Example three_pushes_on_zeroed :
  exists m',
    (let* s := run_pushes (memset_Parrot_Signature 0)
                 [PushInteger 5; PushString 100; PushPMC 300] in
     let* a := Parrot_pcc_signature_get_integer s 1 in
     let* b := Parrot_pcc_signature_get_pmc s 2 in
     let* c := Parrot_pcc_signature_get_string s 7 in
     ret (Parrot_pcc_signature_num_positionals s, a, b, c)) empty_mem
    = Ok ((3, 42, 300, STRINGNULL), m')
    /\ gc_log m' = [AllocFixed 128 1].
Proof. eexists. split; reflexivity. Qed.

Lemma autobox_coercion_table_witness :
  in_INTVAL (2 ^ 53 + 1) = true
  /\ (truncation_toward_zero sample_float (-3) /\ in_INTVAL (-3) = true)
  /\ (100 <> NULL /\ string_text 100 = "42"%string)
  /\ (101 <> NULL /\ string_text 101 = "abc"%string)
  /\ (103 <> NULL /\ parses_as_integer (string_text 103) (-17)
      /\ in_INTVAL (-17) = true)
  /\ (102 <> NULL /\ unparsable (string_text 102))
  /\ (exists f : FLOATVAL,
        autobox_floatval (INTCELL (2 ^ 53 + 1)) sample_mem = Ok (f, sample_mem)
        /\ float_of_integer (2 ^ 53 + 1) f)
  /\ autobox_intval (FLOATCELL sample_float) sample_mem = Ok (-3, sample_mem)
  /\ (forall (n' : FLOATVAL) (z' : INTVAL) (m' : Mem),
        autobox_intval (FLOATCELL n') sample_mem = Ok (z', m') ->
        truncation_toward_zero n' z' /\ in_INTVAL z' = true /\ m' = sample_mem)
  /\ autobox_intval (STRINGCELL 100) sample_mem = Ok (42, sample_mem)
  /\ autobox_intval (STRINGCELL 101) sample_mem = Ok (0, sample_mem)
  /\ autobox_intval (STRINGCELL 103) sample_mem = Ok (-17, sample_mem)
  /\ autobox_intval (STRINGCELL 102) sample_mem = Ok (0, sample_mem)
  /\ autobox_intval (STRINGCELL NULL) sample_mem = Ok (0, sample_mem)
  /\ autobox_floatval (STRINGCELL NULL) sample_mem = Ok (S754_zero false, sample_mem).
Proof.
  assert (Ht : truncation_toward_zero sample_float (-3))
    by (vm_compute; repeat split; discriminate).
  assert (Hp : parses_as_integer (string_text 103) (-17))
    by (apply numeral_value_parses; reflexivity).
  assert (Hu : unparsable (string_text 102))
    by (apply numeral_value_unparsable; reflexivity).
  split; [reflexivity |].
  split; [split; [exact Ht | reflexivity] |].
  split; [split; [vm_compute; lia | reflexivity] |].
  split; [split; [vm_compute; lia | reflexivity] |].
  split; [split; [vm_compute; lia | split; [exact Hp | reflexivity]] |].
  split; [split; [vm_compute; lia | exact Hu] |].
  apply (autobox_coercion_table (2 ^ 53 + 1) sample_float (-3) 100 101 103 102 (-17)
           sample_mem);
    solve [reflexivity | assumption | vm_compute; lia].
Defined.

(** C5, as the specification words it, fails for a float whose integral
    part is no INTVAL.  The number [2^64] can be pushed like any other; its
    truncation toward zero is [2^64], which no INTVAL equals, the conversion
    of the C cast is undefined, and the read returns no truncation. *)
Lemma float_read_without_truncation :
  truncation_toward_zero Demo2.huge_float (2 ^ 64)
  /\ (forall z : INTVAL, in_INTVAL z = true -> ~ truncation_toward_zero Demo2.huge_float z)
  /\ (let* self := Parrot_pcc_signature_push_float sample_sig Demo2.huge_float in
      Parrot_pcc_signature_get_integer self 3) sample_mem = Fault
  /\ ~ (exists (z : INTVAL) (m' : Mem),
          autobox_intval (FLOATCELL Demo2.huge_float) sample_mem = Ok (z, m')
          /\ truncation_toward_zero Demo2.huge_float z).
Proof.
  split; [vm_compute; repeat split; discriminate |].
  split.
  { intros z Hz Ht. apply truncation_toward_zero_trunc in Ht.
    injection Ht as <-. discriminate Hz. }
  split; [reflexivity |].
  intros (z & m' & Hr & _). discriminate Hr.
Qed.

Lemma get_out_of_range_witness :
  (num_positionals sample_sig <= 3 \/ 3 < 0)
  /\ Parrot_pcc_signature_get_integer sample_sig 3 sample_mem = Ok (0, sample_mem)
  /\ Parrot_pcc_signature_get_number sample_sig 3 sample_mem = Ok (S754_zero false, sample_mem)
  /\ Parrot_pcc_signature_get_string sample_sig 3 sample_mem = Ok (STRINGNULL, sample_mem)
  /\ Parrot_pcc_signature_get_pmc sample_sig 3 sample_mem = Ok (PMCNULL, sample_mem).
Proof.
  split; [left; simpl; lia |].
  apply (get_out_of_range sample_sig 3 sample_mem). left. simpl. lia.
Defined.

Lemma named_push_overwrites_witness :
  Parrot_pcc_signature_exists_named sample_sig 102 sample_mem = Ok (1, sample_mem)
  /\ overwrites_in_place sample_sig 102 32 (INTCELL 9)
       (Parrot_pcc_signature_push_integer_named sample_sig 102 9) sample_mem
  /\ overwrites_in_place sample_sig 102 32 (FLOATCELL sample_float)
       (Parrot_pcc_signature_push_number_named sample_sig 102 sample_float) sample_mem
  /\ overwrites_in_place sample_sig 102 32 (STRINGCELL 101)
       (Parrot_pcc_signature_push_string_named sample_sig 102 101) sample_mem
  /\ overwrites_in_place sample_sig 102 32 (PMCCELL 300)
       (Parrot_pcc_signature_push_pmc_named sample_sig 102 300) sample_mem.
Proof.
  apply (named_push_overwrites sample_sig 102 32 [(102, 32); (100, 64)] (INTCELL 1)
           sample_mem 9 sample_float 101 300);
    solve [reflexivity | vm_compute; lia].
Defined.

Lemma count_of_new_signature_witness :
  push_allowed (PushInteger 7) = true
  /\ (exists m',
        (let* sig := Parrot_pcc_signature_new in
         let* sig := run_pushes sig [] in
         ret (Parrot_pcc_signature_num_positionals sig)) empty_mem
        = Ok (72340172838076673, m'))
  /\ (let* sig := Parrot_pcc_signature_new in
      run_pushes sig [PushInteger 7; PushString 100]) empty_mem = Fault.
Proof.
  split; [reflexivity |].
  apply (count_of_new_signature empty_mem (PushInteger 7) [PushString 100]).
  reflexivity.
Defined.

Lemma first_push_on_new_signature_witness :
  push_allowed (PushPMC 300) = true
  /\ exists sig m1,
       Parrot_pcc_signature_new empty_mem = Ok (sig, m1)
       /\ (wrap (num_positionals sig + 1) <=? allocated_positionals sig) = false
       /\ (8 <? wrap (num_positionals sig + 1)) = true
       /\ positionals sig <> NULL
       /\ cells m1 !! positionals sig = None
       /\ (let* sig := Parrot_pcc_signature_new in run_push sig (PushPMC 300)) empty_mem
          = Fault.
Proof.
  split; [reflexivity |].
  apply (first_push_on_new_signature (PushPMC 300)). reflexivity.
Defined.

Lemma push_pmc_dead_or_live_witness :
  (PObj_on_free_list_TEST 666 = true /\ PObj_on_free_list_TEST 301 = false
   /\ storage_ok sample_mem sample_sig = true)
  /\ Parrot_pcc_signature_push_pmc sample_sig 666 sample_mem
     = Abort "Push dead object into CallContext!"
  /\ exists self' m',
       Parrot_pcc_signature_push_pmc sample_sig 301 sample_mem = Ok (self', m')
       /\ appended sample_mem sample_sig (PMCCELL 301) m' self'
       /\ Parrot_pcc_signature_get_pmc self' (num_positionals sample_sig) m' = Ok (301, m').
Proof.
  split; [repeat split |].
  apply (push_pmc_dead_or_live sample_sig 666 301 sample_mem);
    solve [reflexivity | vm_compute; reflexivity].
Defined.

Lemma marking_reports_held_references_witness :
  (mark_positionals sample_sig >> mark_hash (hash sample_sig)) sample_mem
  = Ok (tt, add_log [MarkString 100; MarkPMC 300;
                     MarkString 102; MarkString 100; MarkString 101] sample_mem)
  /\ count_references sample_mem sample_sig [(102, 32); (100, 64)] = 5%nat.
Proof.
  destruct (marking_reports_held_references sample_sig [(102, 32); (100, 64)] sample_mem)
    as (Hrun & Hlen & _); [reflexivity | reflexivity | reflexivity |].
  split; [exact Hrun | reflexivity].
Defined.

(** ** Further properties at concrete inputs *)

Import Demo2.

Lemma push_then_get_coerces_witness :
  exists self' m',
    run_push sample_sig (PushFloat sample_float) sample_mem = Ok (self', m')
    /\ Parrot_pcc_signature_get_integer self' 3 m' = Ok (-3, m')
    /\ Parrot_pcc_signature_get_number self' 3 m' = Ok (sample_float, m').
Proof.
  destruct (push_then_get_coerces sample_sig (PushFloat sample_float) sample_mem)
    as (self' & m' & Hrun & _ & Hgi & Hgn & _);
    [reflexivity | reflexivity | vm_compute; reflexivity |].
  exists self', m'. split; [exact Hrun |]. split; [exact Hgi | exact Hgn].
Defined.

Lemma pushes_read_back_witness :
  exists self' m',
    run_pushes sample_sig nine_pushes sample_mem = Ok (self', m')
    /\ Parrot_pcc_signature_num_positionals self' = 12
    /\ get_native self' (3 + 1) (PushString 100) m' = Ok (PushString 100, m').
Proof.
  destruct (pushes_read_back sample_sig nine_pushes sample_mem)
    as (self' & m' & Hrun & Hn & _ & Hnew);
    [repeat constructor | reflexivity | vm_compute; reflexivity |].
  exists self', m'. split; [exact Hrun |]. split; [exact Hn |].
  exact (Hnew 1%nat (PushString 100) eq_refl).
Defined.

Lemma ensure_capacity_witness :
  exists self' m',
    ensure_positionals_storage sample_sig 20 sample_mem = Ok (self', m')
    /\ allocated_positionals self' = 20
    /\ live_cells m' self' = [INTCELL 5; STRINGCELL 100; PMCCELL 300]
    /\ gc_log m' = [AllocChunk 320 (fresh_ptr sample_mem); FreeFixed 128 16].
Proof.
  destruct (ensure_capacity sample_sig 20 sample_mem)
    as (self' & m' & Hrun & Ha & _ & _ & _ & Hl & _ & _ & Hlog);
    [reflexivity | vm_compute; reflexivity |].
  exists self', m'. split; [exact Hrun |]. split; [exact Ha |].
  split; [exact Hl | exact Hlog].
Defined.

Lemma growth_of_zeroed_witness :
  exists s8 m8,
    run_pushes (memset_Parrot_Signature 0) (take 8 nine_pushes) bare_mem = Ok (s8, m8)
    /\ gc_log m8 = [AllocFixed 128 (fresh_ptr bare_mem)]
    /\ exists s9 m9,
         run_push s8 (PushPMC 301) m8 = Ok (s9, m9)
         /\ gc_log m9 = gc_log m8 ++ [AllocChunk 144 (fresh_ptr m8);
                                      FreeFixed 128 (fresh_ptr bare_mem)].
Proof.
  destruct (growth_of_zeroed (take 8 nine_pushes) (PushPMC 301) bare_mem)
    as (s8 & m8 & Hrun & Hlog & Hninth);
    [repeat constructor | reflexivity | simpl; lia |].
  exists s8, m8. split; [exact Hrun |]. split; [exact Hlog |].
  destruct (Hninth eq_refl) as (s9 & m9 & Hrun9 & Hlog9 & _).
  exists s9, m9. split; [exact Hrun9 | exact Hlog9].
Defined.

Lemma pushes_within_capacity_allocate_nothing_witness :
  exists self' m',
    run_pushes sample_sig (take 5 nine_pushes) sample_mem = Ok (self', m')
    /\ gc_log m' = []
    /\ positionals self' = 16.
Proof.
  destruct (pushes_within_capacity_allocate_nothing sample_sig (take 5 nine_pushes)
              sample_mem)
    as (self' & m' & Hrun & Hlog & Hp & _);
    [repeat constructor | reflexivity | vm_compute; discriminate |].
  exists self', m'. split; [exact Hrun |]. split; [exact Hlog | exact Hp].
Defined.

Lemma reset_keeps_array_releases_named_witness :
  exists self' m',
    Parrot_pcc_signature_reset sample_sig sample_mem = Ok (self', m')
    /\ num_positionals self' = 0
    /\ allocated_positionals self' = 8
    /\ gc_log m' = [FreeFixed 16 32; FreeFixed 16 64]
    /\ tables m' !! 48 = None.
Proof.
  destruct (reset_keeps_array_releases_named sample_sig sample_mem)
    as (self' & m' & Hrun & Hn & _ & _ & Ha & _ & Hlog & _ & _ & Htab & _);
    [reflexivity | reflexivity |].
  exists self', m'. split; [exact Hrun |]. split; [exact Hn |].
  split; [exact Ha |]. split; [exact Hlog |].
  apply Htab. vm_compute. lia.
Defined.

Lemma reset_reads_as_empty_witness :
  exists self' m',
    Parrot_pcc_signature_reset sample_sig sample_mem = Ok (self', m')
    /\ Parrot_pcc_signature_get_integer self' 0 m' = Ok (0, m')
    /\ Parrot_pcc_signature_exists_named self' 102 m' = Ok (0, m')
    /\ mark_positionals self' m' = Ok (tt, m').
Proof.
  destruct (reset_reads_as_empty sample_sig sample_mem 0 102)
    as (self' & m' & Hrun & _ & (Hgi & _) & (_ & _ & _ & _ & Hex) & Hmark);
    [reflexivity |].
  exists self', m'. split; [exact Hrun |]. split; [exact Hgi |].
  split; [exact Hex | exact Hmark].
Defined.

Lemma reset_then_pushes_reuse_array_witness :
  exists s1 m1 s2 m2,
    Parrot_pcc_signature_reset sample_sig sample_mem = Ok (s1, m1)
    /\ run_pushes s1 (take 8 nine_pushes) m1 = Ok (s2, m2)
    /\ gc_log m2 = gc_log m1
    /\ positionals s2 = 16
    /\ num_positionals s2 = 8.
Proof.
  destruct (reset_then_pushes_reuse_array sample_sig sample_mem (take 8 nine_pushes))
    as (s1 & m1 & s2 & m2 & Hreset & Hrun & Hlog & Hp & _ & Hn & _);
    [reflexivity | reflexivity | repeat constructor | vm_compute; discriminate |].
  exists s1, m1, s2, m2. split; [exact Hreset |]. split; [exact Hrun |].
  split; [exact Hlog |]. split; [exact Hp | exact Hn].
Defined.

Lemma free_releases_everything_witness :
  exists m',
    Parrot_pcc_signature_free 8 sample_sig owned_mem = Ok (tt, m')
    /\ gc_log m' = [FreeFixed 128 16; FreeFixed 16 32; FreeFixed 16 64; FreeFixed 64 8]
    /\ cells m' !! 16 = None
    /\ cells m' !! 8 = None.
Proof.
  destruct (free_releases_everything 8 sample_sig [NOCELL; NOCELL; NOCELL; NOCELL]
              owned_mem)
    as (m' & Hrun & Hlog & Harr & _ & Hself & _);
    [reflexivity | reflexivity | vm_compute; lia | reflexivity |].
  exists m'. split; [exact Hrun |]. split; [exact Hlog |].
  split; [apply Harr; vm_compute; lia | exact Hself].
Defined.

Lemma pushes_then_free_restore_memory_witness :
  exists s m1 m2,
    run_pushes (memset_Parrot_Signature 0) nine_pushes bare_mem = Ok (s, m1)
    /\ Parrot_pcc_signature_free 8 s m1 = Ok (tt, m2)
    /\ cells m2 = delete 8 (other_blocks bare_mem (memset_Parrot_Signature 0))
    /\ tables m2 = ∅.
Proof.
  apply (pushes_then_free_restore_memory 8 (memset_Parrot_Signature 0)
           [NOCELL; NOCELL; NOCELL; NOCELL] nine_pushes bare_mem);
    solve [reflexivity | vm_compute; lia | vm_compute; reflexivity | repeat constructor].
Defined.

Lemma named_round_trip_in_new_store_witness :
  exists h SELF' m1 m2,
    get_hash (memset_Parrot_Signature 0) bare_mem = Ok ((h, SELF'), m1)
    /\ run_push_named SELF' 102 (PushString 101) m1 = Ok (tt, m2)
    /\ get_native_named SELF' 102 (PushString 101) m2 = Ok (PushString 101, m2)
    /\ Parrot_pcc_signature_exists_named SELF' 100 m2 = Ok (0, m2).
Proof.
  destruct (named_round_trip_in_new_store (memset_Parrot_Signature 0) 102 100
              (PushString 101) bare_mem)
    as (h & S1 & m1 & m2 & Hgh & Hrun & _ & Hget & _ & Hex & _);
    [reflexivity | vm_compute; discriminate |].
  exists h, S1, m1, m2. split; [exact Hgh |]. split; [exact Hrun |].
  split; [exact Hget | exact Hex].
Defined.

Lemma named_queries_missing_key_witness :
  Parrot_pcc_signature_get_integer_named sample_sig 101 sample_mem = Ok (0, sample_mem)
  /\ Parrot_pcc_signature_get_number_named sample_sig 101 sample_mem
     = Ok (S754_zero false, sample_mem)
  /\ Parrot_pcc_signature_get_string_named sample_sig 101 sample_mem
     = Ok (STRINGNULL, sample_mem)
  /\ Parrot_pcc_signature_get_pmc_named sample_sig 101 sample_mem = Ok (PMCNULL, sample_mem)
  /\ Parrot_pcc_signature_exists_named sample_sig 101 sample_mem = Ok (0, sample_mem).
Proof.
  apply (named_queries_missing_key sample_sig 101 [(102, 32); (100, 64)] sample_mem);
    solve [reflexivity | vm_compute; lia].
Defined.

Lemma named_queries_on_absent_store_witness :
  Parrot_pcc_signature_get_integer_named float_sig 102 float_mem = Ok (0, float_mem)
  /\ Parrot_pcc_signature_get_number_named float_sig 102 float_mem
     = Ok (S754_zero false, float_mem)
  /\ Parrot_pcc_signature_get_string_named float_sig 102 float_mem
     = Ok (STRINGNULL, float_mem)
  /\ Parrot_pcc_signature_get_pmc_named float_sig 102 float_mem = Ok (PMCNULL, float_mem)
  /\ Parrot_pcc_signature_exists_named float_sig 102 float_mem = Ok (0, float_mem).
Proof.
  apply (named_queries_on_absent_store float_sig 102 float_mem). reflexivity.
Defined.

Lemma named_push_round_trip_witness :
  exists m' b',
    run_push_named sample_sig 101 (PushPMC 300) sample_mem = Ok (tt, m')
    /\ tables m' !! 48 = Some b'
    /\ b' = [(102, 32); (100, 64); (101, fresh_ptr sample_mem)]
    /\ table_ok m' b' = true
    /\ get_native_named sample_sig 101 (PushPMC 300) m' = Ok (PushPMC 300, m').
Proof.
  destruct (named_push_round_trip sample_sig 101 (PushPMC 300) [(102, 32); (100, 64)]
              sample_mem)
    as (m' & b' & Hrun & Hb' & Hok & _ & _ & Hget & Hb & _);
    [vm_compute; lia | reflexivity | reflexivity | vm_compute; lia |].
  exists m', b'. split; [exact Hrun |]. split; [exact Hb' |].
  split; [exact Hb |]. split; [exact Hok | exact Hget].
Defined.

Lemma named_push_keeps_other_keys_witness :
  exists m',
    run_push_named sample_sig 102 (PushFloat sample_float) sample_mem = Ok (tt, m')
    /\ named_reads sample_sig 100 (STRINGCELL 101) sample_mem
    /\ named_reads sample_sig 100 (STRINGCELL 101) m'.
Proof.
  destruct (named_push_keeps_other_keys sample_sig 102 100 64 (PushFloat sample_float)
              [(102, 32); (100, 64)] sample_mem)
    as (m' & x & Hrun & Hx & Hbefore & Hafter);
    [vm_compute; lia | reflexivity | reflexivity | vm_compute; discriminate
     | reflexivity |].
  assert (E : x = STRINGCELL 101) by (vm_compute in Hx; congruence).
  rewrite E in *. exists m'. split; [exact Hrun |]. split; [exact Hbefore | exact Hafter].
Defined.

Lemma positional_getters_never_write_witness :
  (exists n, Parrot_pcc_signature_get_number float_sig 1 float_mem = Ok (n, float_mem))
  /\ Parrot_pcc_signature_get_integer float_sig 1 float_mem = Fault.
Proof.
  destruct (positional_getters_never_write float_sig 1 float_mem)
    as (Hn & _ & _ & _); [reflexivity |].
  split; [exact Hn | reflexivity].
Defined.

Lemma get_cell_at_slot_witness :
  exists self' m' l,
    get_cell_at sample_sig 10 sample_mem = Ok ((self', (positionals self', 10)), m')
    /\ cells m' !! positionals self' = Some l
    /\ 10 < Z.of_nat (length l)
    /\ num_positionals self' = 3.
Proof.
  destruct (get_cell_at_slot sample_sig 10 sample_mem)
    as (self' & m' & l & Hrun & Hl & Hlen & Hn & _);
    [reflexivity | vm_compute; discriminate | vm_compute; reflexivity |].
  exists self', m', l. split; [exact Hrun |]. split; [exact Hl |].
  split; [exact Hlen | exact Hn].
Defined.

Lemma named_push_keeps_positionals_witness :
  exists m',
    run_push_named sample_sig 101 (PushInteger 4) sample_mem = Ok (tt, m')
    /\ live_cells m' sample_sig = [INTCELL 5; STRINGCELL 100; PMCCELL 300]
    /\ storage_ok m' sample_sig = true.
Proof.
  destruct (named_push_keeps_positionals sample_sig 101 (PushInteger 4)
              [(102, 32); (100, 64)] sample_mem)
    as (m' & Hrun & Hl & Hok);
    [reflexivity | reflexivity | reflexivity
    | intros Hin; apply list_elem_of_In in Hin; vm_compute in Hin;
      intuition discriminate |].
  exists m'. split; [exact Hrun |]. split; [exact Hl | exact Hok].
Defined.

Lemma positional_push_keeps_named_witness :
  exists self' m',
    run_push sample_sig (PushString 101) sample_mem = Ok (self', m')
    /\ named_reads sample_sig 100 (STRINGCELL 101) sample_mem
    /\ named_reads self' 100 (STRINGCELL 101) m'.
Proof.
  apply (positional_push_keeps_named sample_sig (PushString 101) 100 64
           [(102, 32); (100, 64)] (STRINGCELL 101) sample_mem);
    solve [reflexivity | vm_compute; reflexivity | vm_compute; lia].
Defined.
